(** * client.js: negotiation, control channel and teardown of the WebRTC client

    A shallow embedding of [src/client.js].  The page is single threaded and
    event driven: every function of the script and every callback it
    registers runs to completion, and the browser decides which event comes
    next.  The embedding therefore is

    - a [state] record holding the three globals of the script ([pc], [dc],
      [dcInterval]), the parts of the page it writes (buttons, video sink,
      log element) and the browser objects it created (peer connections,
      data channels, timers, pending promise chains);
    - one Rocq function per script function or callback, named after it;
    - a [step] function that delivers one browser event to the script.

    Object references are indices into [pcs] and [dcs]; the globals hold such
    an index or [None] for [null].  [transports] says which peer connection
    created each data channel. *)

From Stdlib Require Import ZArith Lia Ascii.
From stdpp Require Import base option list relations strings pretty.

(** ** Browser data *)

Inductive RTCPeerConnectionState :=
  CsNew | CsConnecting | CsConnected | CsDisconnected | CsFailed | CsClosed.

Inductive RTCIceGatheringState := GsNew | GsGathering | GsComplete.

Inductive RTCDataChannelState := RsConnecting | RsOpen | RsClosing | RsClosed.

#[global] Instance RTCPeerConnectionState_eq_dec : EqDecision RTCPeerConnectionState.
Proof. solve_decision. Defined.
#[global] Instance RTCIceGatheringState_eq_dec : EqDecision RTCIceGatheringState.
Proof. solve_decision. Defined.
#[global] Instance RTCDataChannelState_eq_dec : EqDecision RTCDataChannelState.
Proof. solve_decision. Defined.

Definition string_of_connectionState (c : RTCPeerConnectionState) : string :=
  match c with
  | CsNew => "new" | CsConnecting => "connecting" | CsConnected => "connected"
  | CsDisconnected => "disconnected" | CsFailed => "failed" | CsClosed => "closed"
  end.

(** A session description: [{sdp, type}]. *)
Record description := { sdp : string; type : string }.

#[global] Instance description_eq_dec : EqDecision description.
Proof. solve_decision. Defined.

(** What [response.json()] can produce: an object shaped like a session
    description, or any other JSON value. *)
Inductive json :=
  | JDescription (d : description)
  | JOther (raw : string).

(** A settled [fetch]: the HTTP outcome and what reading the body as JSON
    will give ([inl] is the parser's exception). *)
Record response := {
  resp_ok : bool;
  resp_status : nat;
  resp_json : string + json }.

(** The callbacks the script passes to [addEventListener] on a peer
    connection.  [checkState k] is the closure created by the [k]-th call of
    [negotiate]. *)
Inductive listener :=
  | onConnectionStateChange   (* client.js:91 *)
  | onTrack                   (* client.js:103 *)
  | checkState (k : nat).     (* client.js:36 *)

#[global] Instance listener_eq_dec : EqDecision listener.
Proof. solve_decision. Defined.

Inductive event_type := connectionstatechange | track | icegatheringstatechange.

#[global] Instance event_type_eq_dec : EqDecision event_type.
Proof. solve_decision. Defined.

Definition listener_type (l : listener) : event_type :=
  match l with
  | onConnectionStateChange => connectionstatechange
  | onTrack => track
  | checkState _ => icegatheringstatechange
  end.

Record RTCPeerConnection := {
  closed : bool;
  connectionState : RTCPeerConnectionState;
  iceGatheringState : RTCIceGatheringState;
  localDescription : option description;
  remoteDescription : option description;
  listeners : list listener;                        (* addEventListener, in order *)
  ontrack : option listener;                        (* event handler attributes *)
  onicegatheringstatechange : option listener;
  onconnectionstatechange : option listener }.

Record RTCDataChannel := {
  label : string;
  readyState : RTCDataChannelState }.

(** The promise chain built by one call of [negotiate], by the operation it
    is waiting for. *)
Inductive stage :=
  | AwaitOffer (p : nat)                         (* pc.createOffer() *)
  | AwaitSetLocal (p : nat) (offer : description) (* pc.setLocalDescription(offer) *)
  | AwaitGathering                               (* checkState registered *)
  | AwaitFetch                                   (* fetch('/offer', ...) *)
  | AwaitJson (r : response)                     (* response.json() *)
  | AwaitSetRemote (p : nat) (answer : json)     (* pc.setRemoteDescription(answer) *)
  | Fulfilled                                    (* last then-callback has run *)
  | Caught (e : string).                         (* the catch callback has run *)

(** Calls into the browser, recorded in the order the script makes them.
    The negotiation calls carry the index [k] of the chain that makes them. *)
Inductive call :=
  | CreateOffer (k p : nat)
  | SetLocalDescription (k p : nat) (offer : description)
  | GatheringResolved (k p : nat)       (* resolve() of the gathering promise *)
  | Fetch (k : nat) (body : description)
  | ResponseJson (k : nat)
  | SetRemoteDescription (k p : nat) (answer : json)
  | AddTransceiver (p : nat)
  | AddEventListener (p : nat) (l : listener)
  | RemoveEventListener (p : nat) (l : listener)
  | Alert (msg : string)
  | SetInterval (t : nat)
  | ClearInterval (t : nat)
  | SetTimeout (t : nat)
  | ChannelSend (d : nat) (msg : string) (thrown : option string)
  | ChannelClose (d : nat)
  | ConnectionClose (p : nat).

(** ** The state of the page *)

Record state := {
  (* globals of client.js:4-6 *)
  pc : option nat;
  dc : option nat;
  dcInterval : option nat;
  (* the page *)
  startDisabled : bool;
  requestFrameDisabled : bool;
  stopDisabled : bool;
  srcObject : option nat;          (* videoElement.srcObject, a stream handle *)
  logs : list string;              (* lines appended to logElement *)
  (* the browser *)
  pcs : list RTCPeerConnection;
  dcs : list RTCDataChannel;
  transports : list nat;           (* the peer connection of each data channel *)
  intervals : list nat;            (* active setInterval timers *)
  timeouts : list nat;             (* pending setTimeout callbacks *)
  next_timer : nat;
  negs : list stage;               (* promise chains of negotiate *)
  calls : list call;
  errors : list string }.          (* exceptions no script code caught *)

Definition set_pc v s := {| pc := v; dc := dc s; dcInterval := dcInterval s;
  startDisabled := startDisabled s; requestFrameDisabled := requestFrameDisabled s;
  stopDisabled := stopDisabled s; srcObject := srcObject s; logs := logs s;
  pcs := pcs s; dcs := dcs s; transports := transports s; intervals := intervals s; timeouts := timeouts s;
  next_timer := next_timer s; negs := negs s; calls := calls s; errors := errors s |}.
Definition set_dc v s := {| pc := pc s; dc := v; dcInterval := dcInterval s;
  startDisabled := startDisabled s; requestFrameDisabled := requestFrameDisabled s;
  stopDisabled := stopDisabled s; srcObject := srcObject s; logs := logs s;
  pcs := pcs s; dcs := dcs s; transports := transports s; intervals := intervals s; timeouts := timeouts s;
  next_timer := next_timer s; negs := negs s; calls := calls s; errors := errors s |}.
Definition set_dcInterval v s := {| pc := pc s; dc := dc s; dcInterval := v;
  startDisabled := startDisabled s; requestFrameDisabled := requestFrameDisabled s;
  stopDisabled := stopDisabled s; srcObject := srcObject s; logs := logs s;
  pcs := pcs s; dcs := dcs s; transports := transports s; intervals := intervals s; timeouts := timeouts s;
  next_timer := next_timer s; negs := negs s; calls := calls s; errors := errors s |}.
Definition set_startDisabled v s := {| pc := pc s; dc := dc s; dcInterval := dcInterval s;
  startDisabled := v; requestFrameDisabled := requestFrameDisabled s;
  stopDisabled := stopDisabled s; srcObject := srcObject s; logs := logs s;
  pcs := pcs s; dcs := dcs s; transports := transports s; intervals := intervals s; timeouts := timeouts s;
  next_timer := next_timer s; negs := negs s; calls := calls s; errors := errors s |}.
Definition set_requestFrameDisabled v s := {| pc := pc s; dc := dc s; dcInterval := dcInterval s;
  startDisabled := startDisabled s; requestFrameDisabled := v;
  stopDisabled := stopDisabled s; srcObject := srcObject s; logs := logs s;
  pcs := pcs s; dcs := dcs s; transports := transports s; intervals := intervals s; timeouts := timeouts s;
  next_timer := next_timer s; negs := negs s; calls := calls s; errors := errors s |}.
Definition set_stopDisabled v s := {| pc := pc s; dc := dc s; dcInterval := dcInterval s;
  startDisabled := startDisabled s; requestFrameDisabled := requestFrameDisabled s;
  stopDisabled := v; srcObject := srcObject s; logs := logs s;
  pcs := pcs s; dcs := dcs s; transports := transports s; intervals := intervals s; timeouts := timeouts s;
  next_timer := next_timer s; negs := negs s; calls := calls s; errors := errors s |}.
Definition set_srcObject v s := {| pc := pc s; dc := dc s; dcInterval := dcInterval s;
  startDisabled := startDisabled s; requestFrameDisabled := requestFrameDisabled s;
  stopDisabled := stopDisabled s; srcObject := v; logs := logs s;
  pcs := pcs s; dcs := dcs s; transports := transports s; intervals := intervals s; timeouts := timeouts s;
  next_timer := next_timer s; negs := negs s; calls := calls s; errors := errors s |}.
Definition set_logs v s := {| pc := pc s; dc := dc s; dcInterval := dcInterval s;
  startDisabled := startDisabled s; requestFrameDisabled := requestFrameDisabled s;
  stopDisabled := stopDisabled s; srcObject := srcObject s; logs := v;
  pcs := pcs s; dcs := dcs s; transports := transports s; intervals := intervals s; timeouts := timeouts s;
  next_timer := next_timer s; negs := negs s; calls := calls s; errors := errors s |}.
Definition set_pcs v s := {| pc := pc s; dc := dc s; dcInterval := dcInterval s;
  startDisabled := startDisabled s; requestFrameDisabled := requestFrameDisabled s;
  stopDisabled := stopDisabled s; srcObject := srcObject s; logs := logs s;
  pcs := v; dcs := dcs s; transports := transports s; intervals := intervals s; timeouts := timeouts s;
  next_timer := next_timer s; negs := negs s; calls := calls s; errors := errors s |}.
Definition set_dcs v s := {| pc := pc s; dc := dc s; dcInterval := dcInterval s;
  startDisabled := startDisabled s; requestFrameDisabled := requestFrameDisabled s;
  stopDisabled := stopDisabled s; srcObject := srcObject s; logs := logs s;
  pcs := pcs s; dcs := v; transports := transports s; intervals := intervals s; timeouts := timeouts s;
  next_timer := next_timer s; negs := negs s; calls := calls s; errors := errors s |}.
Definition set_transports v s := {| pc := pc s; dc := dc s; dcInterval := dcInterval s;
  startDisabled := startDisabled s; requestFrameDisabled := requestFrameDisabled s;
  stopDisabled := stopDisabled s; srcObject := srcObject s; logs := logs s;
  pcs := pcs s; dcs := dcs s; transports := v; intervals := intervals s;
  timeouts := timeouts s;
  next_timer := next_timer s; negs := negs s; calls := calls s; errors := errors s |}.
Definition set_intervals v s := {| pc := pc s; dc := dc s; dcInterval := dcInterval s;
  startDisabled := startDisabled s; requestFrameDisabled := requestFrameDisabled s;
  stopDisabled := stopDisabled s; srcObject := srcObject s; logs := logs s;
  pcs := pcs s; dcs := dcs s; transports := transports s; intervals := v; timeouts := timeouts s;
  next_timer := next_timer s; negs := negs s; calls := calls s; errors := errors s |}.
Definition set_timeouts v s := {| pc := pc s; dc := dc s; dcInterval := dcInterval s;
  startDisabled := startDisabled s; requestFrameDisabled := requestFrameDisabled s;
  stopDisabled := stopDisabled s; srcObject := srcObject s; logs := logs s;
  pcs := pcs s; dcs := dcs s; transports := transports s; intervals := intervals s; timeouts := v;
  next_timer := next_timer s; negs := negs s; calls := calls s; errors := errors s |}.
Definition set_next_timer v s := {| pc := pc s; dc := dc s; dcInterval := dcInterval s;
  startDisabled := startDisabled s; requestFrameDisabled := requestFrameDisabled s;
  stopDisabled := stopDisabled s; srcObject := srcObject s; logs := logs s;
  pcs := pcs s; dcs := dcs s; transports := transports s; intervals := intervals s; timeouts := timeouts s;
  next_timer := v; negs := negs s; calls := calls s; errors := errors s |}.
Definition set_negs v s := {| pc := pc s; dc := dc s; dcInterval := dcInterval s;
  startDisabled := startDisabled s; requestFrameDisabled := requestFrameDisabled s;
  stopDisabled := stopDisabled s; srcObject := srcObject s; logs := logs s;
  pcs := pcs s; dcs := dcs s; transports := transports s; intervals := intervals s; timeouts := timeouts s;
  next_timer := next_timer s; negs := v; calls := calls s; errors := errors s |}.
Definition set_calls v s := {| pc := pc s; dc := dc s; dcInterval := dcInterval s;
  startDisabled := startDisabled s; requestFrameDisabled := requestFrameDisabled s;
  stopDisabled := stopDisabled s; srcObject := srcObject s; logs := logs s;
  pcs := pcs s; dcs := dcs s; transports := transports s; intervals := intervals s; timeouts := timeouts s;
  next_timer := next_timer s; negs := negs s; calls := v; errors := errors s |}.
Definition set_errors v s := {| pc := pc s; dc := dc s; dcInterval := dcInterval s;
  startDisabled := startDisabled s; requestFrameDisabled := requestFrameDisabled s;
  stopDisabled := stopDisabled s; srcObject := srcObject s; logs := logs s;
  pcs := pcs s; dcs := dcs s; transports := transports s; intervals := intervals s; timeouts := timeouts s;
  next_timer := next_timer s; negs := negs s; calls := calls s; errors := v |}.

(** The page once the script has been loaded (client.js:4-6 and 224-225):
    no session, only the start button usable.  Timer handles are positive,
    so that [if (dcInterval)] tests presence. *)
Definition init : state := {|
  pc := None; dc := None; dcInterval := None;
  startDisabled := false; requestFrameDisabled := true; stopDisabled := true;
  srcObject := None; logs := [];
  pcs := []; dcs := []; transports := []; intervals := []; timeouts := [];
  next_timer := 1;
  negs := []; calls := []; errors := [] |}.

(** ** Primitive operations of the page and the browser *)

(** [log] (client.js:15-21).  The time stamp put before the message is left
    out: a line of the log is its message. *)
Definition log (message : string) (s : state) : state :=
  set_logs (logs s ++ [message]) s.

Definition record (c : call) (s : state) : state :=
  set_calls (calls s ++ [c]) s.

Definition alert (msg : string) (s : state) : state := record (Alert msg) s.

(** An exception that reaches the top of an event handler is reported on
    the console and ends the handler. *)
Definition uncaught (e : string) (s : state) : state :=
  set_errors (errors s ++ [e]) s.

Definition TypeError_null : string := "TypeError: pc is null".
Definition TypeError_dc_null : string := "TypeError: dc is null".
Definition InvalidStateError : string := "InvalidStateError".

(** The object a global refers to; [None] when the global is [null]. *)
Definition cur_pc (s : state) : option (nat * RTCPeerConnection) :=
  p ← pc s; o ← pcs s !! p; Some (p, o).

Definition cur_dc (s : state) : option (nat * RTCDataChannel) :=
  d ← dc s; o ← dcs s !! d; Some (d, o).

Definition upd_pc (p : nat) (f : RTCPeerConnection → RTCPeerConnection)
    (s : state) : state :=
  set_pcs (alter f p (pcs s)) s.

Definition upd_dc (d : nat) (f : RTCDataChannel → RTCDataChannel)
    (s : state) : state :=
  set_dcs (alter f d (dcs s)) s.

Definition with_listeners v o := {| closed := closed o;
  connectionState := connectionState o; iceGatheringState := iceGatheringState o;
  localDescription := localDescription o; remoteDescription := remoteDescription o;
  listeners := v; ontrack := ontrack o;
  onicegatheringstatechange := onicegatheringstatechange o;
  onconnectionstatechange := onconnectionstatechange o |}.
Definition with_connectionState v o := {| closed := closed o;
  connectionState := v; iceGatheringState := iceGatheringState o;
  localDescription := localDescription o; remoteDescription := remoteDescription o;
  listeners := listeners o; ontrack := ontrack o;
  onicegatheringstatechange := onicegatheringstatechange o;
  onconnectionstatechange := onconnectionstatechange o |}.
Definition with_iceGatheringState v o := {| closed := closed o;
  connectionState := connectionState o; iceGatheringState := v;
  localDescription := localDescription o; remoteDescription := remoteDescription o;
  listeners := listeners o; ontrack := ontrack o;
  onicegatheringstatechange := onicegatheringstatechange o;
  onconnectionstatechange := onconnectionstatechange o |}.
Definition with_localDescription v o := {| closed := closed o;
  connectionState := connectionState o; iceGatheringState := iceGatheringState o;
  localDescription := v; remoteDescription := remoteDescription o;
  listeners := listeners o; ontrack := ontrack o;
  onicegatheringstatechange := onicegatheringstatechange o;
  onconnectionstatechange := onconnectionstatechange o |}.
Definition with_remoteDescription v o := {| closed := closed o;
  connectionState := connectionState o; iceGatheringState := iceGatheringState o;
  localDescription := localDescription o; remoteDescription := v;
  listeners := listeners o; ontrack := ontrack o;
  onicegatheringstatechange := onicegatheringstatechange o;
  onconnectionstatechange := onconnectionstatechange o |}.

(** [pc.ontrack = null; pc.onicegatheringstatechange = null;
    pc.onconnectionstatechange = null] (client.js:199-201): the three event
    handler attributes; the list built by [addEventListener] is another
    slot of the object. *)
Definition clear_handler_attributes o := {| closed := closed o;
  connectionState := connectionState o; iceGatheringState := iceGatheringState o;
  localDescription := localDescription o; remoteDescription := remoteDescription o;
  listeners := listeners o; ontrack := None;
  onicegatheringstatechange := None;
  onconnectionstatechange := None |}.

(** [RTCPeerConnection.close()], on the connection object itself. *)
Definition close_connection o := {| closed := true;
  connectionState := CsClosed; iceGatheringState := iceGatheringState o;
  localDescription := localDescription o; remoteDescription := remoteDescription o;
  listeners := listeners o; ontrack := ontrack o;
  onicegatheringstatechange := onicegatheringstatechange o;
  onconnectionstatechange := onconnectionstatechange o |}.

Definition with_readyState v (o : RTCDataChannel) :=
  {| label := label o; readyState := v |}.

(** [new RTCPeerConnection(config)]. *)
Definition new_connection : RTCPeerConnection := {|
  closed := false; connectionState := CsNew; iceGatheringState := GsNew;
  localDescription := None; remoteDescription := None; listeners := [];
  ontrack := None; onicegatheringstatechange := None;
  onconnectionstatechange := None |}.

(** The connection as [start] leaves it, with its two listeners. *)
Definition started_connection : RTCPeerConnection :=
  with_listeners [onConnectionStateChange; onTrack] new_connection.

(** [target.addEventListener(type, l)]: a callback already registered is not
    registered twice. *)
Definition addEventListener (p : nat) (l : listener) (s : state) : state :=
  record (AddEventListener p l)
    (upd_pc p (λ o, if decide (l ∈ listeners o) then o
                    else with_listeners (listeners o ++ [l]) o) s).

Definition removeEventListener (p : nat) (l : listener) (s : state) : state :=
  record (RemoveEventListener p l)
    (upd_pc p (λ o, with_listeners (filter (λ x, x ≠ l) (listeners o)) o) s).

(** The callbacks an event of type [ty] reaches on an object: the handler
    attribute, when one is set, and the registered listeners. *)
Definition handler_attribute (ty : event_type) (o : RTCPeerConnection) :=
  match ty with
  | connectionstatechange => onconnectionstatechange o
  | track => ontrack o
  | icegatheringstatechange => onicegatheringstatechange o
  end.

Definition handlers (ty : event_type) (o : RTCPeerConnection) : list listener :=
  option_list (handler_attribute ty o)
  ++ filter (λ l, listener_type l = ty) (listeners o).

(** Timers: [setInterval], [clearInterval], [setTimeout] give out and
    retire handles; the callbacks are fixed by the call sites
    (client.js:119 and 204). *)
Definition setInterval (s : state) : nat * state :=
  let t := next_timer s in
  (t, record (SetInterval t)
        (set_next_timer (S t) (set_intervals (intervals s ++ [t]) s))).

Definition clearInterval (t : nat) (s : state) : state :=
  record (ClearInterval t) (set_intervals (filter (λ x, x ≠ t) (intervals s)) s).

Definition setTimeout (s : state) : nat * state :=
  let t := next_timer s in
  (t, record (SetTimeout t)
        (set_next_timer (S t) (set_timeouts (timeouts s ++ [t]) s))).

(** [channel.close()]: a channel that is connecting or open starts closing;
    the close notification comes later from the browser. *)
Definition closing (o : RTCDataChannel) : RTCDataChannel :=
  match readyState o with
  | RsConnecting | RsOpen => with_readyState RsClosing o
  | RsClosing | RsClosed => o
  end.

Definition channel_close (d : nat) (s : state) : state :=
  record (ChannelClose d) (upd_dc d closing s).

(** [channel.send(msg)]: throws [InvalidStateError] unless the channel is
    open; on an open channel [r] is what the browser decides (buffer full,
    message too large, ...), [None] for a message queued for transmission. *)
Definition channel_send (d : nat) (o : RTCDataChannel) (msg : string)
    (r : option string) (s : state) : state * option string :=
  let thrown := if decide (readyState o = RsOpen) then r
                else Some InvalidStateError in
  (record (ChannelSend d msg thrown) s, thrown).

(** [dc.send(msg)] through the global. *)
Definition dc_send (msg : string) (r : option string) (s : state)
    : state * option string :=
  match cur_dc s with
  | Some (d, o) => channel_send d o msg r s
  | None => (s, Some TypeError_dc_null)
  end.

(** ** Numbers and strings of JavaScript

    A Number is a double.  The script computes with integers only (time
    stamps, and what [parseInt] reads), so a Number is NaN, an infinity,
    or an integer that a double holds exactly; the sign of zero is not
    kept, nothing in the script tells [-0] from [0]. *)

Inductive number := NaN | Infinity (negative : bool) | Int (z : Z).

(** The Number for an integer: the nearest double, with 53 significant
    bits, a tie going to the even neighbour, and an infinity from 2^1024
    on. *)
Definition to_number (z : Z) : number :=
  let a := Z.abs z in
  if (a <? 2 ^ 53)%Z then Int z
  else
    let e := (Z.log2 a - 52)%Z in
    let q := (a / 2 ^ e)%Z in
    let r := (a mod 2 ^ e)%Z in
    let half := (2 ^ (e - 1))%Z in
    let q' := if (r <? half)%Z then q
              else if (half <? r)%Z then (q + 1)%Z
              else if Z.even q then q else (q + 1)%Z in
    let m := (q' * 2 ^ e)%Z in
    if (2 ^ 1024 <=? m)%Z then Infinity (z <? 0)%Z
    else Int (Z.sgn z * m).

(** [a - b]. *)
Definition number_sub (a b : number) : number :=
  match a, b with
  | NaN, _ | _, NaN => NaN
  | Infinity n, Infinity m => if Bool.eqb n m then NaN else Infinity n
  | Infinity n, Int _ => Infinity n
  | Int _, Infinity m => Infinity (negb m)
  | Int x, Int y => to_number (x - y)
  end.

(** A text is held as its UTF-8 encoding, one byte per character of the
    Rocq string, as it travels on the channel.  To the script it is a
    sequence of UTF-16 code units: [substring] counts, and [parseInt]
    reads, code units.  [utf8_decode] is the decoder of the browser: bytes
    that are no encoding of a character become U+FFFD. *)
Fixpoint bytes (str : string) : list N :=
  match str with
  | String c rest => N_of_ascii c :: bytes rest
  | EmptyString => []
  end.

Definition continuation (lo hi b : N) : bool := ((lo <=? b) && (b <=? hi))%N.

Definition replacement : N := 65533.

Fixpoint utf8_decode (bs : list N) : list N :=
  match bs with
  | [] => []
  | b :: bs1 =>
      if (b <? 128)%N then b :: utf8_decode bs1
      else if ((194 <=? b) && (b <=? 223))%N then
        match bs1 with
        | b1 :: bs2 =>
            if continuation 128 191 b1
            then ((b - 192) * 64 + (b1 - 128))%N :: utf8_decode bs2
            else replacement :: utf8_decode bs1
        | [] => [replacement]
        end
      else if ((224 <=? b) && (b <=? 239))%N then
        match bs1 with
        | b1 :: bs2 =>
            if continuation (if (b =? 224)%N then 160 else 128)
                            (if (b =? 237)%N then 159 else 191) b1
            then
              match bs2 with
              | b2 :: bs3 =>
                  if continuation 128 191 b2
                  then (((b - 224) * 64 + (b1 - 128)) * 64 + (b2 - 128))%N
                       :: utf8_decode bs3
                  else replacement :: utf8_decode bs2
              | [] => [replacement]
              end
            else replacement :: utf8_decode bs1
        | [] => [replacement]
        end
      else if ((240 <=? b) && (b <=? 244))%N then
        match bs1 with
        | b1 :: bs2 =>
            if continuation (if (b =? 240)%N then 144 else 128)
                            (if (b =? 244)%N then 143 else 191) b1
            then
              match bs2 with
              | b2 :: bs3 =>
                  if continuation 128 191 b2
                  then
                    match bs3 with
                    | b3 :: bs4 =>
                        if continuation 128 191 b3
                        then ((((b - 240) * 64 + (b1 - 128)) * 64
                               + (b2 - 128)) * 64 + (b3 - 128))%N
                             :: utf8_decode bs4
                        else replacement :: utf8_decode bs3
                    | [] => [replacement]
                    end
                  else replacement :: utf8_decode bs2
              | [] => [replacement]
              end
            else replacement :: utf8_decode bs1
        | [] => [replacement]
        end
      else replacement :: utf8_decode bs1
  end.

(** The code units of a character: itself, or a surrogate pair. *)
Definition utf16_encode (cp : N) : list N :=
  if (cp <? 65536)%N then [cp]
  else [(55296 + (cp - 65536) / 1024)%N; (56320 + (cp - 65536) mod 1024)%N].

Definition code_units (str : string) : list N :=
  flat_map utf16_encode (utf8_decode (bytes str)).

(** ** parseInt

    [parseInt(str, 10)]: leading white space is skipped, an optional sign
    is read, then the longest run of decimal digits, whose value becomes a
    Number; without a digit the result is NaN.  White space is what the
    language calls so: the white space and line terminator characters
    (TAB, LF, VT, FF, CR, SP, NBSP, U+1680, U+2000 to U+200A, U+2028,
    U+2029, U+202F, U+205F, U+3000, U+FEFF). *)

Definition digit_of (u : N) : option Z :=
  if ((48 <=? u) && (u <=? 57))%N then Some (Z.of_N (u - 48)) else None.

Fixpoint parse_digits (acc : Z) (us : list N) : Z :=
  match us with
  | u :: rest =>
      match digit_of u with
      | Some d => parse_digits (10 * acc + d) rest
      | None => acc
      end
  | [] => acc
  end.

Definition is_white_space (u : N) : bool :=
  existsb (N.eqb u)
    [9; 10; 11; 12; 13; 32; 160; 5760; 8232; 8233; 8239; 8287; 12288; 65279]%N
  || ((8192 <=? u) && (u <=? 8202))%N.

Fixpoint skip_white_space (us : list N) : list N :=
  match us with
  | u :: rest => if is_white_space u then skip_white_space rest else us
  | [] => us
  end.

Definition parse_unsigned (us : list N) : option Z :=
  match us with
  | u :: _ =>
      match digit_of u with
      | Some _ => Some (parse_digits 0 us)
      | None => None
      end
  | [] => None
  end.

Definition parseInt (us : list N) : number :=
  let '(sign, body) :=
    match skip_white_space us with
    | 45%N :: rest => ((-1)%Z, rest)     (* - *)
    | 43%N :: rest => (1%Z, rest)        (* + *)
    | body => (1%Z, body)
    end in
  match parse_unsigned body with
  | Some m => to_number (sign * m)
  | None => NaN
  end.

(** The text after the first [n] bytes of a text; for a text of ASCII
    characters this is [str.substring(n)]. *)
Fixpoint substring_from (n : nat) (str : string) : string :=
  match n, str with
  | S m, String _ rest => substring_from m rest
  | _, _ => str
  end.

(** [connection.close()] on peer connection [p]: the connection is closed
    and the ready state of each of its data channels is set to closed,
    abruptly; no event is fired for either. *)
Definition closed_with (p : nat) (ts : list nat) (d : nat)
    (o : RTCDataChannel) : RTCDataChannel :=
  if decide (ts !! d = Some p) then with_readyState RsClosed o else o.

Definition connection_close (p : nat) (s : state) : state :=
  let s := upd_pc p close_connection s in
  let s := set_dcs (imap (closed_with p (transports s)) (dcs s)) s in
  record (ConnectionClose p) s.

(** ** Stop Connection (client.js:175-221) *)

(** The callback handed to [setTimeout] (client.js:204-210).  It reads the
    global when it runs. *)
Definition deferred_close (s : state) : state :=
  match pc s with
  | Some p =>
      let s := connection_close p s in
      let s := set_pc None s in
      log "PeerConnection close complete" s
  | None => s
  end.

Definition stop (s : state) : state :=
  let s := log "Stop connection button clicked / Starting stop process" s in
  let s := set_startDisabled false s in
  let s := set_stopDisabled true s in
  let s := set_requestFrameDisabled true s in
  (* Clear DataChannel ping interval *)
  let s := match dcInterval s with
           | Some t =>
               let s := clearInterval t s in
               let s := set_dcInterval None s in
               log "DataChannel ping interval stopped" s
           | None => s
           end in
  (* Close DataChannel *)
  let s := match dc s with
           | Some d =>
               let s := log "Closing DataChannel" s in
               let s := channel_close d s in
               set_dc None s
           | None => s
           end in
  (* Close PeerConnection *)
  let s := match pc s with
           | Some p =>
               let s := log "Closing PeerConnection" s in
               let s := upd_pc p clear_handler_attributes s in
               snd (setTimeout s)
           | None => s
           end in
  (* Reset video element *)
  let s := set_srcObject None s in
  let s := log "Video element reset" s in
  log "Stop process complete" s.

(** ** WebRTC Negotiation (client.js:24-71)

    One function per callback of the promise chain.  A callback runs when
    the promise before it is fulfilled; an exception thrown in a callback,
    or a rejected promise, goes to the [catch] callback. *)

Definition set_stage (k : nat) (st : stage) (s : state) : state :=
  set_negs (<[k := st]> (negs s)) s.

(** [.catch((e) => ...)] (client.js:66-70). *)
Definition negotiation_failed (k : nat) (e : string) (s : state) : state :=
  let s := set_stage k (Caught e) s in
  let s := log ("Negotiation failed: " +:+ e) s in
  let s := alert ("Negotiation failed: " +:+ e) s in
  stop s.

(** [.then(() => { log('Remote Description setting successful, ...') })]
    (client.js:64-65). *)
Definition on_remote_applied (k : nat) (s : state) : state :=
  let s := log "Remote Description setting successful, establishing connection" s in
  set_stage k Fulfilled s.

(** [.then((answer) => ...)] (client.js:61-63). *)
Definition on_answer (k : nat) (answer : json) (s : state) : state :=
  let s := log "Answer setting started" s in
  match pc s with
  | Some p =>
      let s := record (SetRemoteDescription k p answer) s in
      set_stage k (AwaitSetRemote p answer) s
  | None => negotiation_failed k TypeError_null s
  end.

(** [.then((response) => ...)] (client.js:58-60). *)
Definition on_response (k : nat) (r : response) (s : state) : state :=
  let s := log "Received Answer from server" s in
  let s := record (ResponseJson k) s in
  set_stage k (AwaitJson r) s.

(** [.then(() => { ... fetch('/offer', ...) })] (client.js:45-57). *)
Definition on_gathering_complete (k : nat) (s : state) : state :=
  let s := log "ICE gathering complete, sending Offer to server" s in
  match cur_pc s with
  | Some (p, o) =>
      match localDescription o with
      | Some offer =>
          let s := record (Fetch k {| sdp := sdp offer; type := type offer |}) s in
          set_stage k AwaitFetch s
      | None => negotiation_failed k "TypeError: offer is null" s
      end
  | None => negotiation_failed k TypeError_null s
  end.

(** [resolve()] of the promise made at client.js:32.  Resolving a promise
    that is already settled does nothing. *)
Definition resolve_gathering (k p : nat) (s : state) : state :=
  match negs s !! k with
  | Some AwaitGathering =>
      on_gathering_complete k (record (GatheringResolved k p) s)
  | _ => s
  end.

(** [.then(() => { ... return new Promise((resolve) => ...) })]
    (client.js:29-44).  An exception in the executor rejects the promise. *)
Definition on_local_applied (k : nat) (s : state) : state :=
  let s := log "Local Description setting successful" s in
  match cur_pc s with
  | Some (p, o) =>
      if decide (iceGatheringState o = GsComplete) then
        on_gathering_complete k
          (record (GatheringResolved k p) (set_stage k AwaitGathering s))
      else
        let s := addEventListener p (checkState k) s in
        set_stage k AwaitGathering s
  | None => negotiation_failed k TypeError_null s
  end.

(** [.then((offer) => ...)] (client.js:26-28). *)
Definition on_offer (k : nat) (offer : description) (s : state) : state :=
  let s := log "Offer creation successful" s in
  match pc s with
  | Some p =>
      let s := record (SetLocalDescription k p offer) s in
      set_stage k (AwaitSetLocal p offer) s
  | None => negotiation_failed k TypeError_null s
  end.

(** [negotiate] itself: up to [pc.createOffer()], which is pending when it
    returns.  Outside a callback an exception is not caught by the chain. *)
Definition negotiate (s : state) : state :=
  let s := log "Starting negotiation..." s in
  match pc s with
  | Some p =>
      let k := length (negs s) in
      let s := set_negs (negs s ++ [AwaitOffer p]) s in
      record (CreateOffer k p) s
  | None => uncaught TypeError_null s
  end.

(** The listener [checkState] (client.js:36-41). *)
Definition run_checkState (k : nat) (s : state) : state :=
  match cur_pc s with
  | Some (p, o) =>
      if decide (iceGatheringState o = GsComplete) then
        let s := removeEventListener p (checkState k) s in
        resolve_gathering k p s
      else s
  | None => uncaught TypeError_null s
  end.

(** ** Callbacks registered by start (client.js:91-157) *)

(** [pc.addEventListener('connectionstatechange', ...)] (client.js:91-100). *)
Definition run_onConnectionStateChange (s : state) : state :=
  match cur_pc s with
  | Some (_, o) =>
      let c := connectionState o in
      let s := log ("Connection state changed: " +:+ string_of_connectionState c) s in
      match c with
      | CsConnected =>
          let s := log "Connection successful!" s in
          set_requestFrameDisabled false s
      | CsFailed | CsClosed | CsDisconnected =>
          let s := log "Connection has been disconnected." s in
          stop s
      | CsNew | CsConnecting => s
      end
  | None => uncaught TypeError_null s
  end.

(** [pc.addEventListener('track', ...)] (client.js:103-109); [kind] is
    [evt.track.kind] and [stream] is [evt.streams[0]]. *)
Definition run_onTrack (kind : string) (stream : nat) (s : state) : state :=
  let s := log ("Remote track received: " +:+ kind) s in
  if decide (kind = "video") then
    let s := log "Adding video track to <video> element" s in
    set_srcObject (Some stream) s
  else s.

(** What an event carries for the callbacks. *)
Inductive payload :=
  | NoPayload
  | TrackPayload (kind : string) (stream : nat).

Definition run_listener (ev : payload) (s : state) (l : listener) : state :=
  match l with
  | onConnectionStateChange => run_onConnectionStateChange s
  | onTrack =>
      match ev with
      | TrackPayload kind stream => run_onTrack kind stream s
      | NoPayload => s
      end
  | checkState k => run_checkState k s
  end.

(** Dispatch of an event of type [ty] at peer connection [p]: the callbacks
    present when the dispatch starts run one after the other, each to
    completion (with the promise callbacks it releases). *)
Definition dispatch (ty : event_type) (ev : payload) (p : nat) (s : state) : state :=
  match pcs s !! p with
  | Some o => foldl (run_listener ev) s (handlers ty o)
  | None => s
  end.

(** [dc.onopen] (client.js:116-133). *)
Definition dc_onopen (s : state) : state :=
  match cur_dc s with
  | Some (_, o) =>
      let s := log ("DataChannel '" +:+ label o +:+ "' open") s in
      let '(t, s) := setInterval s in
      set_dcInterval (Some t) s
  | None => uncaught TypeError_dc_null s
  end.

(** The callback of that interval (client.js:119-132); [now] is
    [Date.now()]. *)
Definition ping (now : Z) (r : option string) (s : state) : state :=
  let message := "ping " +:+ pretty now in
  match dc_send message r s with
  | (s, None) => s
  | (s, Some e) =>
      let s := log ("Ping send error: " +:+ e) s in
      match dcInterval s with
      | Some t =>
          let s := clearInterval t s in
          set_dcInterval None s
      | None => s
      end
  end.

(** [dc.onclose] (client.js:135-143). *)
Definition dc_onclose (s : state) : state :=
  match cur_dc s with
  | Some (_, o) =>
      let s := log ("DataChannel '" +:+ label o +:+ "' closed") s in
      let s := match dcInterval s with
               | Some t =>
                   let s := clearInterval t s in
                   set_dcInterval None s
               | None => s
               end in
      set_requestFrameDisabled true s
  | None => uncaught TypeError_dc_null s
  end.

(** [dc.onerror] (client.js:145-147). *)
Definition dc_onerror (error : string) (s : state) : state :=
  match cur_dc s with
  | Some (_, o) =>
      log ("DataChannel '" +:+ label o +:+ "' error: " +:+ error) s
  | None => uncaught TypeError_dc_null s
  end.

(** [const roundtrip = Date.now() - parseInt(evt.data.substring(5), 10)]
    (client.js:152). *)
Definition roundtrip (now : Z) (data : string) : number :=
  number_sub (to_number now) (parseInt (drop 5 (code_units data))).

(** [evt.data.substring(0, 4) === 'pong'] (client.js:151). *)
Definition is_pong (data : string) : bool :=
  bool_decide (take 4 (code_units data) = code_units "pong").

(** [dc.onmessage] (client.js:149-157).  The round trip time is a local
    constant that nothing reads. *)
Definition dc_onmessage (now : Z) (data : string) (s : state) : state :=
  if is_pong data then
    let _ := roundtrip now data in
    s
  else
    match cur_dc s with
    | Some (_, o) =>
        log ("Message from DataChannel '" +:+ label o +:+ "': " +:+ data) s
    | None => uncaught TypeError_dc_null s
    end.

(** ** Start Connection (client.js:74-161) *)

Definition start (s : state) : state :=
  let s := log "Start connection button clicked" s in
  let s := set_startDisabled true s in
  let s := set_stopDisabled false s in
  (* pc = new RTCPeerConnection(config) *)
  let p := length (pcs s) in
  let s := set_pcs (pcs s ++ [new_connection]) s in
  let s := set_pc (Some p) s in
  let s := record (AddTransceiver p) s in
  let s := addEventListener p onConnectionStateChange s in
  let s := addEventListener p onTrack s in
  (* dc = pc.createDataChannel('chat', { negotiated: false }) *)
  let d := length (dcs s) in
  let s := set_dcs (dcs s ++ [{| label := "chat"; readyState := RsConnecting |}]) s in
  let s := set_transports (transports s ++ [p]) s in
  let s := set_dc (Some d) s in
  let s := log "DataChannel 'chat' creation attempt" s in
  (* dc.onopen, dc.onclose, dc.onerror, dc.onmessage: see above *)
  negotiate s.

(** ** Request Frame (client.js:164-172)

    The result says how the call completed: [None] normally, [Some e] with
    the exception [e] thrown. *)
Definition requestFrame (r : option string) (s : state) : state * option string :=
  match cur_dc s with
  | Some (d, o) =>
      if decide (readyState o = RsOpen) then
        let s := log "Sending frame request via DataChannel: 'send_frame'" s in
        channel_send d o "send_frame" r s
      else
        let s := log "Frame request failed: DataChannel is not open" s in
        (alert "DataChannel is not open. Please check the connection." s, None)
  | None =>
      let s := log "Frame request failed: DataChannel is not open" s in
      (alert "DataChannel is not open. Please check the connection." s, None)
  end.

(** ** Events

    What the browser can deliver to the script.  The results of the
    operations the script started are chosen by the browser and come with
    the event: [inl e] or [Some e] is a rejection or exception [e]. *)

Inductive event :=
  (* the buttons of the page (part_000:69-71) *)
  | ClickStart
  | ClickRequestFrame (r : option string)
  | ClickStop
  (* promises of a negotiation settling *)
  | OfferSettled (k : nat) (r : string + description)
  | LocalSettled (k : nat) (r : option string)
  | FetchSettled (k : nat) (r : string + response)
  | JsonSettled (k : nat)
  | RemoteSettled (k : nat) (r : option string)
  (* events of a peer connection *)
  | GatheringStateChange (p : nat) (g : RTCIceGatheringState)
  | ConnectionStateChange (p : nat) (c : RTCPeerConnectionState)
  | TrackArrived (p : nat) (kind : string) (stream : nat)
  (* events of a data channel *)
  | ChannelOpen (d : nat)
  | ChannelClosing (d : nat)
  | ChannelClosed (d : nat)
  | ChannelError (d : nat) (error : string)
  | ChannelMessage (d : nat) (now : Z) (data : string)
  (* timers *)
  | IntervalTick (t : nat) (now : Z) (r : option string)
  | TimeoutFired (t : nat).

(** A peer connection that has been closed fires no more events. *)
Definition live_pc (p : nat) (s : state) : bool :=
  match pcs s !! p with
  | Some o => negb (closed o)
  | None => false
  end.

(** Candidates are gathered for the transports that a local description
    sets up: the gathering state of a peer connection leaves [new], and
    changes at all, only once the connection has a local description. *)
Definition has_local (p : nat) (s : state) : bool :=
  match pcs s !! p with
  | Some o => bool_decide (is_Some (localDescription o))
  | None => false
  end.

(** [step e s] is the page after event [e], or [None] when the browser
    cannot deliver [e] in [s]: a disabled button is not clicked, a promise
    settles once, and never when it belongs to a peer connection that has
    been closed, a channel changes state along connecting, open, closing,
    closed, messages arrive on open channels, the gathering state changes
    on connections with a local description, and only live timers fire. *)
Definition step (e : event) (s : state) : option state :=
  match e with
  | ClickStart =>
      if startDisabled s then None else Some (start s)
  | ClickRequestFrame r =>
      if requestFrameDisabled s then None
      else
        match requestFrame r s with
        | (s, None) => Some s
        | (s, Some e) => Some (uncaught e s)
        end
  | ClickStop =>
      if stopDisabled s then None else Some (stop s)
  | OfferSettled k r =>
      match negs s !! k with
      | Some (AwaitOffer p) =>
          if live_pc p s then
            Some match r with
                 | inr offer => on_offer k offer s
                 | inl e => negotiation_failed k e s
                 end
          else None
      | _ => None
      end
  | LocalSettled k r =>
      match negs s !! k with
      | Some (AwaitSetLocal p offer) =>
          if live_pc p s then
            Some match r with
                 | None =>
                     on_local_applied k
                       (upd_pc p (with_localDescription (Some offer)) s)
                 | Some e => negotiation_failed k e s
                 end
          else None
      | _ => None
      end
  | FetchSettled k r =>
      match negs s !! k with
      | Some AwaitFetch =>
          Some match r with
               | inr resp => on_response k resp s
               | inl e => negotiation_failed k e s
               end
      | _ => None
      end
  | JsonSettled k =>
      match negs s !! k with
      | Some (AwaitJson resp) =>
          Some match resp_json resp with
               | inr answer => on_answer k answer s
               | inl e => negotiation_failed k e s
               end
      | _ => None
      end
  | RemoteSettled k r =>
      match negs s !! k with
      | Some (AwaitSetRemote p answer) =>
          if live_pc p s then
            match r, answer with
            | None, JDescription d =>
                Some (on_remote_applied k
                        (upd_pc p (with_remoteDescription (Some d)) s))
            | None, JOther _ => None     (* not a description: never accepted *)
            | Some e, _ => Some (negotiation_failed k e s)
            end
          else None
      | _ => None
      end
  | GatheringStateChange p g =>
      if live_pc p s then
        if has_local p s then
          Some (dispatch icegatheringstatechange NoPayload p
                  (upd_pc p (with_iceGatheringState g) s))
        else None
      else None
  | ConnectionStateChange p c =>
      if live_pc p s then
        Some (dispatch connectionstatechange NoPayload p
                (upd_pc p (with_connectionState c) s))
      else None
  | TrackArrived p kind stream =>
      if live_pc p s then
        Some (dispatch track (TrackPayload kind stream) p s)
      else None
  | ChannelOpen d =>
      match dcs s !! d with
      | Some o =>
          if decide (readyState o = RsConnecting)
          then Some (dc_onopen (upd_dc d (with_readyState RsOpen) s))
          else None
      | None => None
      end
  | ChannelClosing d =>
      match dcs s !! d with
      | Some o =>
          if decide (readyState o = RsOpen)
          then Some (upd_dc d (with_readyState RsClosing) s)
          else None
      | None => None
      end
  | ChannelClosed d =>
      match dcs s !! d with
      | Some o =>
          if decide (readyState o = RsClosed) then None
          else Some (dc_onclose (upd_dc d (with_readyState RsClosed) s))
      | None => None
      end
  | ChannelError d error =>
      match dcs s !! d with
      | Some o =>
          if decide (readyState o = RsClosed) then None
          else Some (dc_onerror error s)
      | None => None
      end
  | ChannelMessage d now data =>
      match dcs s !! d with
      | Some o =>
          if decide (readyState o = RsOpen)
          then Some (dc_onmessage now data s)
          else None
      | None => None
      end
  | IntervalTick t now r =>
      if decide (t ∈ intervals s) then Some (ping now r s) else None
  | TimeoutFired t =>
      if decide (t ∈ timeouts s)
      then Some (deferred_close
                   (set_timeouts (filter (λ x, x ≠ t) (timeouts s)) s))
      else None
  end.

(** A run of the page: events delivered one after the other. *)
Fixpoint run (es : list event) (s : state) : option state :=
  match es with
  | [] => Some s
  | e :: es => s' ← step e s; run es s'
  end.

Definition reachable (s : state) : Prop := ∃ es, run es init = Some s.

(** * Vocabulary of the properties *)

(** The Control Channel is present and open. *)
Definition channel_open (s : state) : bool :=
  match cur_dc s with
  | Some (_, o) => bool_decide (readyState o = RsOpen)
  | None => false
  end.

(** The messages handed to [send] among some calls. *)
Definition sent (cs : list call) : list string :=
  omap (λ c, match c with ChannelSend _ msg _ => Some msg | _ => None end) cs.


(** ** Negotiation *)

(** The steps of a negotiation, as calls into the browser: creating the
    offer, applying it locally, the gathering promise being resolved
    (gathering state seen complete), the signaling request and the reading
    of its response, applying the answer. *)
Inductive negotiation_step :=
  | StepCreateOffer
  | StepApplyLocal
  | StepGatheringComplete
  | StepSignalingRequest
  | StepSignalingResponse
  | StepApplyRemote.

Definition negotiation_order : list negotiation_step :=
  [StepCreateOffer; StepApplyLocal; StepGatheringComplete;
   StepSignalingRequest; StepSignalingResponse; StepApplyRemote].

Definition step_of (k : nat) (c : call) : option negotiation_step :=
  match c with
  | CreateOffer k' _ => if decide (k' = k) then Some StepCreateOffer else None
  | SetLocalDescription k' _ _ => if decide (k' = k) then Some StepApplyLocal else None
  | GatheringResolved k' _ => if decide (k' = k) then Some StepGatheringComplete else None
  | Fetch k' _ => if decide (k' = k) then Some StepSignalingRequest else None
  | ResponseJson k' => if decide (k' = k) then Some StepSignalingResponse else None
  | SetRemoteDescription k' _ _ => if decide (k' = k) then Some StepApplyRemote else None
  | _ => None
  end.

(** The steps negotiation [k] has made, oldest first. *)
Definition steps_of (k : nat) (cs : list call) : list negotiation_step :=
  omap (step_of k) cs.

(** A chain that has run its last callback. *)
Definition settled (st : stage) : bool :=
  match st with
  | Fulfilled | Caught _ => true
  | _ => false
  end.

(** How many steps a chain has made when it waits in a stage. *)
Definition progress (st : stage) : option nat :=
  match st with
  | AwaitOffer _ => Some 1
  | AwaitSetLocal _ _ => Some 2
  | AwaitGathering => Some 2
  | AwaitFetch => Some 4
  | AwaitJson _ => Some 5
  | AwaitSetRemote _ _ => Some 6
  | Fulfilled => Some 6
  | Caught _ => None
  end.

(** The calls of negotiation [k] among some calls. *)
Definition calls_of (k : nat) (cs : list call) : list call :=
  filter (λ c, is_Some (step_of k c)) cs.

(** The six calls of a negotiation that goes through, with the peer
    connections they are made on. *)
Definition trace (k p0 p1 : nat) (offer : description) (p2 : nat)
    (body : description) (p3 : nat) (answer : json) : list call :=
  [CreateOffer k p0; SetLocalDescription k p1 offer; GatheringResolved k p2;
   Fetch k body; ResponseJson k; SetRemoteDescription k p3 answer].

(** Peer connections are numbered as they are made, and [pc] only ever moves
    on to a later one: [cap s] is the connection [pc] refers to, or the
    number of the one to come. *)
Definition cap (s : state) : nat :=
  match pc s with
  | Some r => r
  | None => length (pcs s)
  end.

(** What an observer of one negotiation sees: where [pc] stands, the stage
    of the negotiation, if it exists, and the calls it has made. *)
Definition task := (nat * option stage * list call)%type.

Definition task_of (k : nat) (s : state) : task :=
  (cap s, negs s !! k, calls_of k (calls s)).

(** The moves of negotiation [k]: each call is made on the peer connection
    [pc] refers to when the callback runs. *)
Inductive task_step (k : nat) : task → task → Prop :=
  | ts_cap c c' st l :
      c ≤ c' → task_step k (c, st, l) (c', st, l)
  | ts_create c l :
      task_step k (c, None, l) (c, Some (AwaitOffer c), l ++ [CreateOffer k c])
  | ts_offer c p offer l :
      task_step k (c, Some (AwaitOffer p), l)
                  (c, Some (AwaitSetLocal c offer),
                   l ++ [SetLocalDescription k c offer])
  | ts_wait c p offer l :
      task_step k (c, Some (AwaitSetLocal p offer), l) (c, Some AwaitGathering, l)
  | ts_complete c body l :
      task_step k (c, Some AwaitGathering, l)
                  (c, Some AwaitFetch, l ++ [GatheringResolved k c; Fetch k body])
  | ts_response c r l :
      task_step k (c, Some AwaitFetch, l)
                  (c, Some (AwaitJson r), l ++ [ResponseJson k])
  | ts_answer c r answer l :
      task_step k (c, Some (AwaitJson r), l)
                  (c, Some (AwaitSetRemote c answer),
                   l ++ [SetRemoteDescription k c answer])
  | ts_fulfilled c p answer l :
      task_step k (c, Some (AwaitSetRemote p answer), l) (c, Some Fulfilled, l)
  | ts_caught c st e l :
      settled st = false →
      task_step k (c, Some st, l) (c, Some (Caught e), l)
  | ts_caught_sending c e l :
      task_step k (c, Some AwaitGathering, l)
                  (c, Some (Caught e), l ++ [GatheringResolved k c]).

Abbreviation moves k := (rtc (task_step k)).

(** The calls made so far fit the stage. *)
Definition stage_fits (st : stage) (n p0 p1 : nat) (offer : description)
    (p3 : nat) (answer : json) : Prop :=
  match st with
  | AwaitOffer p => n = 1 ∧ p = p0
  | AwaitSetLocal p o => n = 2 ∧ p = p1 ∧ o = offer
  | AwaitGathering => n = 2
  | AwaitFetch => n = 4
  | AwaitJson _ => n = 5
  | AwaitSetRemote p a => n = 6 ∧ p = p3 ∧ a = answer
  | Fulfilled => n = 6
  | Caught _ => 1 ≤ n
  end.

Definition task_ok (k : nat) (v : task) : Prop :=
  match v with
  | (c, None, l) => l = []
  | (c, Some st, l) =>
      ∃ n p0 p1 offer p2 body p3 answer,
        l = take n (trace k p0 p1 offer p2 body p3 answer)
        ∧ p0 ≤ p1 ∧ p1 ≤ p2 ∧ p2 ≤ p3 ∧ p3 ≤ c
        ∧ stage_fits st n p0 p1 offer p3 answer
  end.

(** The ways a step of negotiation [k], waiting in stage [st], fails with
    [e] on event [ev] and reaches the [catch] callback: one of the five
    operations is rejected, or a callback of the chain throws because
    [pc] is null: at [pc.setLocalDescription] (client.js:28), in the
    executor of the gathering promise (client.js:33), which rejects the
    promise, or at [pc.setRemoteDescription] (client.js:63).  A promise of
    a closed peer connection is never settled. *)
Inductive fails_at (k : nat) (e : string) (s : state) : stage → event → Prop :=
  | fail_create p :
      live_pc p s = true →
      fails_at k e s (AwaitOffer p) (OfferSettled k (inl e))
  | fail_offer_null p offer :
      live_pc p s = true → pc s = None → e = TypeError_null →
      fails_at k e s (AwaitOffer p) (OfferSettled k (inr offer))
  | fail_local p offer :
      live_pc p s = true →
      fails_at k e s (AwaitSetLocal p offer) (LocalSettled k (Some e))
  | fail_wait p offer :
      live_pc p s = true → pc s = None → e = TypeError_null →
      fails_at k e s (AwaitSetLocal p offer) (LocalSettled k None)
  | fail_request :
      fails_at k e s AwaitFetch (FetchSettled k (inl e))
  | fail_response r :
      resp_json r = inl e →
      fails_at k e s (AwaitJson r) (JsonSettled k)
  | fail_answer_null r answer :
      resp_json r = inr answer → pc s = None → e = TypeError_null →
      fails_at k e s (AwaitJson r) (JsonSettled k)
  | fail_remote p answer :
      live_pc p s = true →
      fails_at k e s (AwaitSetRemote p answer) (RemoteSettled k (Some e)).

(** The exceptions of a negotiation: those that reach the [catch]
    callback, and the one thrown by the gathering listener [checkState]
    when it runs with [pc] null (client.js:37). *)
Inductive throws_at (k : nat) (e : string) (s : state) : stage → event → Prop :=
  | throw_fails st ev : fails_at k e s st ev → throws_at k e s st ev
  | throw_listener q o g :
      pcs s !! q = Some o → checkState k ∈ listeners o →
      pc s = None → e = TypeError_null →
      throws_at k e s AwaitGathering (GatheringStateChange q g).

(** The state of the channels after teardown's synchronous part ran from
    [s]: the handle [dcInterval] held is no longer a live timer, the
    channel [dc] referred to is closing or closed. *)
Definition channel_released (s s' : state) : Prop :=
  dcInterval s' = None ∧ dc s' = None
  ∧ (∀ t, dcInterval s = Some t → t ∉ intervals s')
  ∧ (∀ d o, dc s = Some d → dcs s !! d = Some o →
       ∃ o', dcs s' !! d = Some o'
             ∧ (readyState o' = RsClosing ∨ readyState o' = RsClosed)).

(** Negotiation [k] was aborted with [e] from [s], giving [s']. *)
Definition aborted (k : nat) (e : string) (s s' : state) : Prop :=
  negs s' !! k = Some (Caught e)
  ∧ ("Negotiation failed: " +:+ e) ∈ logs s'
  ∧ Alert ("Negotiation failed: " +:+ e) ∈ calls s'
  ∧ channel_released s s'
  ∧ srcObject s' = None
  ∧ (∀ p, pc s = Some p → timeouts s' = timeouts s ++ [next_timer s])
  ∧ (startDisabled s' = false ∧ stopDisabled s' = true
     ∧ requestFrameDisabled s' = true)
  ∧ length (negs s') = length (negs s)
  ∧ (∀ k', steps_of k' (calls s') = steps_of k' (calls s)).

(** ** Control Channel *)

(** The claimed relation between the keepalive handle and the channel. *)
Definition keepalive_iff_open (s : state) : Prop :=
  ∀ d o, cur_dc s = Some (d, o) →
    (is_Some (dcInterval s) ↔ readyState o = RsOpen).

(** What the script maintains. *)
Record channel_inv (s : state) : Prop := {
  inv_start : startDisabled s = false → dc s = None;
  inv_strays : ∀ d o, dcs s !! d = Some o → dc s ≠ Some d →
    readyState o = RsClosing ∨ readyState o = RsClosed;
  inv_keepalive :
    match dcInterval s with
    | Some t =>
        intervals s = [t]
        ∧ ∃ d o, dc s = Some d ∧ dcs s !! d = Some o
                 ∧ (readyState o = RsOpen ∨ readyState o = RsClosing
                    ∨ (readyState o = RsClosed ∧ pc s = None))
    | None => intervals s = []
    end;
  inv_dc : ∀ d, dc s = Some d → d < length (dcs s);
  inv_pc : ∀ p, pc s = Some p → p < length (pcs s);
  inv_fresh : ∀ t, t ∈ timeouts s → t < next_timer s;
  inv_timeouts : NoDup (timeouts s) }.

(** ** Teardown *)

(** What a session holds: everything but the log, the record of calls and
    the timer counter. *)
Definition resources (s : state) :=
  (pc s, dc s, dcInterval s, srcObject s, pcs s, dcs s,
   intervals s, timeouts s,
   (startDisabled s, requestFrameDisabled s, stopDisabled s),
   negs s, errors s).

(** The deferred closes that are pending, in the order they will fire. *)
Definition pending_closes (s : state) : list event :=
  TimeoutFired <$> timeouts s.

(** Peer connection [p] has been closed. *)
Definition closed_in (p : nat) (s : state) : Prop :=
  ∃ o, pcs s !! p = Some o ∧ closed o = true.

(** No session is left: no timer, no channel, no transport, no media. *)
Definition torn_down (s : state) : Prop :=
  intervals s = [] ∧ dcInterval s = None ∧ dc s = None ∧ pc s = None
  ∧ timeouts s = [] ∧ srcObject s = None.

(** ** Sample data for the examples *)

Definition offer0 : description := {| sdp := "v=0 offer"; type := "offer" |}.
Definition answer0 : description := {| sdp := "v=0 answer"; type := "answer" |}.
Definition response200 : response :=
  {| resp_ok := true; resp_status := 200;
     resp_json := inr (JDescription answer0) |}.

(** A session that negotiates without a hitch. *)
Definition good_run : list event :=
  [ClickStart; OfferSettled 0 (inr offer0); LocalSettled 0 None;
   GatheringStateChange 0 GsGathering; GatheringStateChange 0 GsComplete;
   FetchSettled 0 (inr response200); JsonSettled 0; RemoteSettled 0 None].

(** The rendezvous endpoint answers with an error status and a body that
    reads as a session description. *)
Definition response500 : response :=
  {| resp_ok := false; resp_status := 500;
     resp_json := inr (JDescription answer0) |}.

Definition bad_status_run : list event :=
  [ClickStart; OfferSettled 0 (inr offer0); LocalSettled 0 None;
   GatheringStateChange 0 GsComplete;
   FetchSettled 0 (inr response500); JsonSettled 0; RemoteSettled 0 None].

(** The claimed order on a session: when a negotiation applies the remote
    description, the peer connection it applies it to has a local
    description and has finished gathering. *)
Definition remote_after_local_and_gathering : Prop :=
  ∀ s k p d s',
    reachable s →
    negs s !! k = Some (AwaitSetRemote p (JDescription d)) →
    step (RemoteSettled k None) s = Some s' →
    ∃ o, pcs s' !! p = Some o
         ∧ is_Some (localDescription o) ∧ iceGatheringState o = GsComplete.

(** A negotiation under way when the session is replaced: the first
    negotiation has sent its offer, then Disconnect and Start are clicked;
    the second negotiation applies its own offer and waits for gathering,
    and then the answer to the first offer arrives. *)
Definition answer1 : description := {| sdp := "v=0 answer 1"; type := "answer" |}.

Definition crossed_run : list event :=
  [ClickStart; OfferSettled 0 (inr {| sdp := "v=0 offer 1"; type := "offer" |});
   LocalSettled 0 None; GatheringStateChange 0 GsGathering;
   GatheringStateChange 0 GsComplete;
   ClickStop; ClickStart;
   OfferSettled 1 (inr {| sdp := "v=0 offer 2"; type := "offer" |});
   LocalSettled 1 None;
   FetchSettled 0 (inr {| resp_ok := true; resp_status := 200;
                          resp_json := inr (JDescription answer1) |});
   JsonSettled 0].

(** The claimed handling of failures: whatever step of a negotiation
    throws, the negotiation is aborted and the error is shown. *)
Definition every_failure_is_caught : Prop :=
  ∀ s k st ev e s',
    reachable s → negs s !! k = Some st → throws_at k e s st ev →
    step ev s = Some s' →
    negs s' !! k = Some (Caught e)
    ∧ Alert ("Negotiation failed: " +:+ e) ∈ calls s'.

(** A page with no session, and a negotiation still waiting on the peer
    connection of the session before the last: Disconnect, Start, and the
    deferred close of the Disconnect closing the new session. *)
Definition orphaned_page : state :=
  default init
    (run [ClickStart; OfferSettled 0 (inr offer0); LocalSettled 0 None;
          ClickStop; ClickStart; TimeoutFired 1] init).

(** The calls of a teardown, in order: the keepalive is cancelled, the
    channel is closed, the close of the peer connection is scheduled. *)
Definition teardown_calls (s : state) : list call :=
  (ClearInterval <$> option_list (dcInterval s))
  ++ (ChannelClose <$> option_list (dc s))
  ++ (if pc s is Some _ then [SetTimeout (next_timer s)] else []).

(** The peer connections when a failure on event [ev] in stage [st] is
    caught: as they were, but for the exception thrown after the local
    description has been applied (client.js:28 fulfilled, client.js:33
    throwing). *)
Definition connections_at_failure (st : stage) (ev : event) (s : state)
    : list RTCPeerConnection :=
  match st, ev with
  | AwaitSetLocal p offer, LocalSettled _ None =>
      alter (with_localDescription (Some offer)) p (pcs s)
  | _, _ => pcs s
  end.

(** Negotiation [k] was caught with [e] on the page [s], giving [s']: the
    negotiation is over and no other is touched; the error is logged and
    shown, and the teardown runs on what the globals refer to. *)
Record caught (k : nat) (e : string) (s s' : state) : Prop := {
  caught_stage : negs s' = <[k := Caught e]> (negs s);
  caught_logs : ∃ before after,
    logs s' = logs s ++ before
              ++ ["Negotiation failed: " +:+ e;
                  "Stop connection button clicked / Starting stop process"]
              ++ after;
  caught_calls :
    calls s' = calls s ++ Alert ("Negotiation failed: " +:+ e) :: teardown_calls s;
  caught_errors : errors s' = errors s;
  caught_keepalive : dcInterval s' = None ∧ intervals s' = [];
  caught_channel :
    dc s' = None
    ∧ dcs s' = (if dc s is Some d then alter closing d (dcs s) else dcs s);
  caught_session :
    pc s' = pc s
    ∧ timeouts s' = timeouts s ++ (if pc s is Some _ then [next_timer s] else []);
  caught_page :
    srcObject s' = None ∧ startDisabled s' = false
    ∧ stopDisabled s' = true ∧ requestFrameDisabled s' = true;
  caught_close : ∀ p, pc s = Some p →
    ∃ t, run (pending_closes s') s' = Some t
         ∧ closed_in p t ∧ torn_down t }.

(** The claimed handling of the signaling response: a response that is not
    a success fails the negotiation. *)
Definition non_success_fails : Prop :=
  ∀ s k resp s',
    negs s !! k = Some AwaitFetch → resp_ok resp = false →
    run [FetchSettled k (inr resp); JsonSettled k] s = Some s' →
    ∃ e, negs s' !! k = Some (Caught e).

(** The part of the state the channel invariant reads. *)
Definition chan_view (s : state) :=
  (startDisabled s, dc s, dcInterval s, dcs s, intervals s,
   pc s, length (pcs s), timeouts s, next_timer s).

(** A callback that leaves the channels alone, or ends in a teardown. *)
Definition benign (s s' : state) : Prop :=
  chan_view s' = chan_view s
  ∨ ∃ s0, chan_view s0 = chan_view s ∧ s' = stop s0.

(** The claimed effect of a second teardown: none. *)
Definition teardown_again_is_noop : Prop :=
  ∀ s, reachable s → resources (stop (stop s)) = resources (stop s).

(** The page once every pending deferred close has fired. *)
Definition settled_page (s : state) : state :=
  set_timeouts [] (deferred_close s).

(** Code units that begin with a decimal digit. *)
Definition starts_with_digit (us : list N) : Prop :=
  match us with
  | u :: _ => is_Some (digit_of u)
  | [] => False
  end.

(** A text of ASCII characters. *)
Definition ascii_text (str : string) : Prop :=
  Forall (λ b, (b < 128)%N) (bytes str).

(** ** The gathering wait *)

(** Negotiation [k] has left the wait: it sent the signaling request, or it
    was caught on the way to it. *)
Definition proceeded (k : nat) (s : state) : Prop :=
  negs s !! k = Some AwaitFetch ∨ ∃ e, negs s !! k = Some (Caught e).

(** The wait of negotiation [k] is over, resolved on the gathering state of
    peer connection [q], and its listener is gone from [q]. *)
Definition wait_over (k q : nat) (s : state) : Prop :=
  proceeded k s
  ∧ GatheringResolved k q ∈ calls s
  ∧ ∀ o, pcs s !! q = Some o → checkState k ∉ listeners o.

(** The session [q] is current and its gathering state is complete. *)
Definition gathering_complete_on (q : nat) (s : state) : Prop :=
  pc s = Some q
  ∧ ∃ o, pcs s !! q = Some o ∧ iceGatheringState o = GsComplete.

(** Peer connections after callbacks that register nothing: same gathering
    states, no listener more. *)
Definition pcs_shrunk (l l' : list RTCPeerConnection) : Prop :=
  ∀ q o, l !! q = Some o →
    ∃ o', l' !! q = Some o'
          ∧ iceGatheringState o' = iceGatheringState o
          ∧ ∀ x, x ∈ listeners o' → x ∈ listeners o.

(** What the negotiations read of the peer connections. *)
Definition descriptions (s : state) :=
  (λ o, (closed o, iceGatheringState o, localDescription o, remoteDescription o))
    <$> pcs s.

(** What the callbacks of one dispatch do to the page, from [s] to [s']:
    the session stays, the connections keep their descriptions and
    gathering states, the wait of a negotiation is resolved only on a
    current session that has finished gathering, and a negotiation that
    moves goes from the wait to the signaling request. *)
Record quiet (s s' : state) : Prop := {
  quiet_pc : pc s' = pc s;
  quiet_descriptions : descriptions s' = descriptions s;
  quiet_calls : ∃ cs, calls s' = calls s ++ cs
    ∧ ∀ k q, GatheringResolved k q ∈ cs → gathering_complete_on q s;
  quiet_negs : ∀ k, negs s' !! k = negs s !! k
    ∨ (negs s !! k = Some AwaitGathering ∧ negs s' !! k = Some AwaitFetch) }.

(** The calls added from [s] to [s'] resolve no wait. *)
Definition resolves_none (s s' : state) : Prop :=
  ∃ cs, calls s' = calls s ++ cs ∧ ∀ k q, GatheringResolved k q ∉ cs.

(** The local descriptions of the peer connections, and what every event
    keeps: a connection that has a local description has one afterwards. *)
Definition locals (s : state) : list (option description) :=
  localDescription <$> pcs s.

Definition local_kept (s s' : state) : Prop :=
  ∀ p o, pcs s !! p = Some o → is_Some (localDescription o) →
    ∃ o', pcs s' !! p = Some o' ∧ is_Some (localDescription o').

(** The waits that were resolved were resolved on connections that have a
    local description. *)
Definition resolved_have_local (s : state) : Prop :=
  ∀ k q, GatheringResolved k q ∈ calls s →
    ∃ o, pcs s !! q = Some o ∧ is_Some (localDescription o).

(** A page whose negotiation waits for gathering to complete. *)
Definition waiting_page : state :=
  default init
    (run [ClickStart; OfferSettled 0 (inr offer0); LocalSettled 0 None] init).

(** The claimed effect of a notification: a negotiation that waits, its
    listener registered on a peer connection, goes on when that connection
    reports that gathering is complete. *)
Definition notification_resolves_wait : Prop :=
  ∀ s k q o s',
    reachable s → negs s !! k = Some AwaitGathering →
    pcs s !! q = Some o → checkState k ∈ listeners o →
    step (GatheringStateChange q GsComplete) s = Some s' →
    proceeded k s'.

(** A page whose session was replaced, by Disconnect and Start, while its
    first negotiation waited for gathering to complete. *)
Definition replaced_page : state :=
  default init
    (run [ClickStart; OfferSettled 0 (inr offer0); LocalSettled 0 None;
          ClickStop; ClickStart] init).

(** * Further vocabulary: the page as a whole *)

(** The text a keepalive tick sends at time [now] (client.js:121). *)
Definition ping_message (now : Z) : string := "ping " +:+ pretty now.

(** A peer connection as the script leaves it: no event handler attribute
    is ever set, the two callbacks of [start] come first in the listener
    list, and whatever follows is a [checkState] of some negotiation; and
    as the browser keeps it: gathering has begun only with a local
    description. *)
Definition is_checkState (l : listener) : Prop := ∃ k, l = checkState k.

Record pc_wf (o : RTCPeerConnection) : Prop := {
  wf_ontrack : ontrack o = None;
  wf_onicegatheringstatechange : onicegatheringstatechange o = None;
  wf_onconnectionstatechange : onconnectionstatechange o = None;
  wf_listeners : ∃ ws, listeners o = onConnectionStateChange :: onTrack :: ws
                       ∧ Forall is_checkState ws;
  wf_gathering : iceGatheringState o ≠ GsNew → is_Some (localDescription o) }.

(** What every reachable page satisfies besides [channel_inv]. *)
Record page_inv (s : state) : Prop := {
  inv_buttons : stopDisabled s = negb (startDisabled s);
  inv_next : 1 ≤ next_timer s;
  inv_interval_ids : ∀ t, t ∈ intervals s → 1 ≤ t < next_timer s;
  inv_timeout_ids : ∀ t, t ∈ timeouts s → 1 ≤ t < next_timer s;
  inv_disjoint : ∀ t, t ∈ intervals s → t ∉ timeouts s;
  inv_pcs : Forall pc_wf (pcs s);
  inv_labels : Forall (λ o, label o = "chat") (dcs s) }.

(** The part of the state [page_inv] reads besides the peer connections. *)
Definition page_view (s : state) :=
  (startDisabled s, stopDisabled s, next_timer s, intervals s, timeouts s,
   dcs s).

(** A callback that keeps [page_view] and the shape of the connections. *)
Definition tame (s s' : state) : Prop :=
  page_view s' = page_view s
  ∧ (Forall pc_wf (pcs s) → Forall pc_wf (pcs s')).

(** A tame callback, possibly ending in a teardown. *)
Definition tame_or_stop (s s' : state) : Prop :=
  tame s s' ∨ ∃ s0, tame s s0 ∧ s' = stop s0.

(** One list extends another at the end. *)
Definition extends {A} (l l' : list A) : Prop := ∃ more, l' = l ++ more.

(** The record of what happened only grows: log lines, calls and console
    errors are appended, timer handles are never reused, and [n] peer
    connections come into being, each with its channel and its
    negotiation; none is ever dropped. *)
Definition grows_by (n : nat) (s s' : state) : Prop :=
  extends (logs s) (logs s') ∧ extends (calls s) (calls s')
  ∧ extends (errors s) (errors s')
  ∧ length (negs s') = length (negs s) + n
  ∧ length (pcs s') = length (pcs s) + n
  ∧ length (dcs s') = length (dcs s) + n
  ∧ next_timer s ≤ next_timer s'.

(** The sessions an event begins: one for a click on Start, none otherwise. *)
Definition sessions_begun (e : event) : nat :=
  match e with ClickStart => 1 | _ => 0 end.
(** * Properties *)

(** ** Request Frame *)

Lemma sent_app cs1 cs2 : sent (cs1 ++ cs2) = sent cs1 ++ sent cs2.
Proof. apply omap_app. Qed.

(** C9.  [requestFrame] with the Control Channel absent or not open returns
    normally, hands nothing to [send], and warns the user with one alert
    (and a log line); with the channel open it calls [send] exactly once,
    with the literal ['send_frame']. *)
Theorem requestFrame_only_when_open (r : option string) (s : state) :
  (channel_open s = false →
     snd (requestFrame r s) = None
     ∧ calls (fst (requestFrame r s))
       = calls s ++ [Alert "DataChannel is not open. Please check the connection."]
     ∧ sent (calls (fst (requestFrame r s))) = sent (calls s)
     ∧ logs (fst (requestFrame r s))
       = logs s ++ ["Frame request failed: DataChannel is not open"]
     ∧ errors (fst (requestFrame r s)) = errors s
     ∧ dcs (fst (requestFrame r s)) = dcs s)
  ∧ (channel_open s = true →
     ∃ d, dc s = Some d
     ∧ calls (fst (requestFrame r s)) = calls s ++ [ChannelSend d "send_frame" r]
     ∧ sent (calls (fst (requestFrame r s))) = sent (calls s) ++ ["send_frame"]).
Proof.
  unfold channel_open, requestFrame.
  destruct (cur_dc s) as [[d o]|] eqn:Hdc.
  - destruct (decide (readyState o = RsOpen)) as [Ho|Ho].
    + rewrite bool_decide_eq_true_2 by done. split; [done|]. intros _.
      exists d. unfold cur_dc in Hdc.
      destruct (dc s) as [d'|]; [|done]. simpl in Hdc.
      destruct (dcs s !! d'); [|done]. simpl in Hdc.
      injection Hdc as -> ->.
      unfold channel_send. rewrite decide_True by done. simpl.
      by rewrite sent_app.
    + rewrite bool_decide_eq_false_2 by done. split; [|done]. intros _.
      simpl. rewrite sent_app. simpl. by rewrite app_nil_r.
  - split; [|done]. intros _. simpl. rewrite sent_app. simpl.
    by rewrite app_nil_r.
Qed.
Lemma requestFrame_only_when_open_witness :
  snd (requestFrame None init) = None
  ∧ calls (fst (requestFrame None init))
    = calls init ++ [Alert "DataChannel is not open. Please check the connection."]
  ∧ sent (calls (fst (requestFrame None init))) = sent (calls init)
  ∧ logs (fst (requestFrame None init))
    = logs init ++ ["Frame request failed: DataChannel is not open"]
  ∧ errors (fst (requestFrame None init)) = errors init
  ∧ dcs (fst (requestFrame None init)) = dcs init.
Proof. apply (requestFrame_only_when_open None init). reflexivity. Defined.


(** ** Teardown, one call *)

Ltac stop_cases s :=
  let Hi := fresh "Hi" in
  let Hd := fresh "Hd" in
  let Hp := fresh "Hp" in
  destruct (dcInterval s) as [?t|] eqn:Hi;
  destruct (dc s) as [?d|] eqn:Hd;
  destruct (pc s) as [?p|] eqn:Hp;
  unfold stop; cbn; rewrite ?Hi; cbn; rewrite ?Hd; cbn; rewrite ?Hp; cbn.

Lemma steps_of_app k cs1 cs2 :
  steps_of k (cs1 ++ cs2) = steps_of k cs1 ++ steps_of k cs2.
Proof. apply omap_app. Qed.

Lemma stop_negs s : negs (stop s) = negs s.
Proof. by stop_cases s. Qed.

Ltac steps_norm :=
  unfold steps_of; cbn;
  rewrite <- ?app_assoc, ?omap_app; cbn; rewrite ?app_nil_r.

Lemma stop_steps k s : steps_of k (calls (stop s)) = steps_of k (calls s).
Proof. stop_cases s; by steps_norm. Qed.

Lemma stop_pc s : pc (stop s) = pc s.
Proof. by stop_cases s. Qed.

Lemma fmap_alter_same {A B} (f : A → B) (g : A → A) (i : nat) (l : list A) :
  (∀ x, f (g x) = f x) → f <$> alter g i l = f <$> l.
Proof.
  intros Hfg. revert i. induction l as [|x l IH]; intros [|i]; simpl; try done.
  - by rewrite Hfg.
  - f_equal. apply IH.
Qed.

Lemma stop_listeners s : (listeners <$> pcs (stop s)) = (listeners <$> pcs s).
Proof. stop_cases s; try done; by apply fmap_alter_same. Qed.

Lemma stop_calls_exact s : calls (stop s) = calls s ++ teardown_calls s.
Proof. unfold teardown_calls. stop_cases s; by rewrite <- ?app_assoc, ?app_nil_r. Qed.

(** Steps of the browser that depend on a peer connection being open, or
    on its having a local description. *)
Ltac settle_live s :=
  try match goal with
      | H : context [live_pc ?p s] |- _ => destruct (live_pc p s); [|done]
      end.

Ltac with_local s :=
  try match goal with
      | H : context [has_local ?p s] |- _ => destruct (has_local p s); [|done]
      end.
(** ** What one teardown does *)

Lemma stop_logs s : ∃ l, logs (stop s) = logs s ++ l.
Proof. stop_cases s; rewrite <- ?app_assoc; eauto. Qed.

Lemma stop_calls s : ∃ l, calls (stop s) = calls s ++ l.
Proof.
  stop_cases s; rewrite <- ?app_assoc; eauto. exists []. by rewrite app_nil_r.
Qed.

Lemma stop_srcObject s : srcObject (stop s) = None.
Proof. by stop_cases s. Qed.

Lemma stop_buttons s :
  startDisabled (stop s) = false ∧ stopDisabled (stop s) = true
  ∧ requestFrameDisabled (stop s) = true.
Proof. by stop_cases s. Qed.

Lemma stop_timeouts s :
  timeouts (stop s)
  = timeouts s ++ (if pc s is Some _ then [next_timer s] else []).
Proof. stop_cases s; by rewrite ?app_nil_r. Qed.

Lemma stop_dc s : dc (stop s) = None.
Proof. by stop_cases s. Qed.

Lemma stop_dcInterval s : dcInterval (stop s) = None.
Proof. by stop_cases s. Qed.

Lemma stop_intervals s :
  intervals (stop s)
  = if dcInterval s is Some t then filter (λ x, x ≠ t) (intervals s)
    else intervals s.
Proof. by stop_cases s. Qed.

Lemma stop_dcs s :
  dcs (stop s) = if dc s is Some d then alter closing d (dcs s) else dcs s.
Proof. by stop_cases s. Qed.

Lemma closing_closes o :
  readyState (closing o) = RsClosing ∨ readyState (closing o) = RsClosed.
Proof. unfold closing. destruct o as [l []]; simpl; auto. Qed.

Lemma stop_released s : channel_released s (stop s).
Proof.
  unfold channel_released.
  rewrite stop_dc, stop_dcInterval, stop_intervals, stop_dcs.
  split; [done|]. split; [done|]. split.
  - intros t ->. rewrite list_elem_of_filter. by intros [? _].
  - intros d o -> Ho. exists (closing o).
    rewrite list_lookup_alter_eq, Ho. split; [done|apply closing_closes].
Qed.

Lemma negotiation_failed_aborted k e s s1 :
  is_Some (negs s !! k) →
  negs s1 = negs s → calls s1 = calls s → dc s1 = dc s →
  dcInterval s1 = dcInterval s → dcs s1 = dcs s → pc s1 = pc s →
  timeouts s1 = timeouts s → next_timer s1 = next_timer s →
  aborted k e s (negotiation_failed k e s1).
Proof.
  intros Hk Hnegs Hcalls Hdc Hi Hdcs Hpc Hto Hnt.
  unfold aborted, negotiation_failed.
  set (s2 := alert _ (log _ (set_stage k (Caught e) s1))).
  assert (negs s2 = <[k:=Caught e]> (negs s)) as E1 by (by rewrite <- Hnegs).
  assert (logs s2 = logs s1 ++ ["Negotiation failed: " +:+ e]) as E2 by done.
  assert (calls s2 = calls s ++ [Alert ("Negotiation failed: " +:+ e)]) as E3
    by (by rewrite <- Hcalls).
  assert (dcInterval s2 = dcInterval s) as E4 by (by rewrite <- Hi).
  assert (dc s2 = dc s) as E5 by (by rewrite <- Hdc).
  assert (dcs s2 = dcs s) as E6 by (by rewrite <- Hdcs).
  assert (pc s2 = pc s) as E7 by (by rewrite <- Hpc).
  assert (timeouts s2 = timeouts s) as E8 by (by rewrite <- Hto).
  assert (next_timer s2 = next_timer s) as E9 by (by rewrite <- Hnt).
  clearbody s2.
  destruct (stop_released s2) as (_ & _ & Rt & Rd).
  unfold channel_released. split_and!.
  - rewrite stop_negs, E1.
    apply list_lookup_insert_eq. by apply lookup_lt_is_Some.
  - destruct (stop_logs s2) as [l ->]. rewrite E2.
    apply elem_of_app. left. apply elem_of_app. right. apply list_elem_of_here.
  - destruct (stop_calls s2) as [l ->]. rewrite E3.
    apply elem_of_app. left. apply elem_of_app. right. apply list_elem_of_here.
  - apply stop_dcInterval.
  - apply stop_dc.
  - intros t Ht. apply Rt. by rewrite E4.
  - intros d o Hd Ho. apply (Rd d o); by rewrite ?E5, ?E6.
  - apply stop_srcObject.
  - intros p Hp. by rewrite stop_timeouts, E7, Hp, E8, E9.
  - apply stop_buttons.
  - apply stop_buttons.
  - apply stop_buttons.
  - by rewrite stop_negs, E1, length_insert.
  - intros k'. rewrite stop_steps, E3, steps_of_app. cbn. by rewrite app_nil_r.
Qed.

(** ** The signaling response *)

(** C4, as the code has it.  The response of the rendezvous endpoint is read
    as JSON whatever its status.  If the body does not parse, the
    negotiation is aborted with the parser's error; if it parses, the value
    is handed to [setRemoteDescription] on the current session; and the
    remote description is set only when the browser accepts a value that
    is a session description. *)
Theorem signaling_response_handling (s : state) (k : nat) (resp : response) :
  (negs s !! k = Some AwaitFetch →
     ∃ s1, step (FetchSettled k (inr resp)) s = Some s1
           ∧ negs s1 !! k = Some (AwaitJson resp)
           ∧ calls s1 = calls s ++ [ResponseJson k])
  ∧ (negs s !! k = Some (AwaitJson resp) →
     (∀ e, resp_json resp = inl e →
        ∃ s', step (JsonSettled k) s = Some s' ∧ aborted k e s s')
     ∧ (∀ answer p, resp_json resp = inr answer → pc s = Some p →
        ∃ s', step (JsonSettled k) s = Some s'
              ∧ negs s' !! k = Some (AwaitSetRemote p answer)
              ∧ calls s' = calls s ++ [SetRemoteDescription k p answer]))
  ∧ (∀ p answer s',
       negs s !! k = Some (AwaitSetRemote p answer) →
       step (RemoteSettled k None) s = Some s' →
       ∃ d, answer = JDescription d
            ∧ negs s' !! k = Some Fulfilled
            ∧ pcs s' = alter (with_remoteDescription (Some d)) p (pcs s)).
Proof.
  split_and!.
  - intros Hst. simpl. rewrite Hst. eexists. split; [done|]. cbn.
    split; [|done]. apply list_lookup_insert_eq. by eapply lookup_lt_Some.
  - intros Hst. split.
    + intros e He. simpl. rewrite Hst, He. eexists. split; [done|].
      by apply negotiation_failed_aborted.
    + intros answer p Ha Hp. simpl. rewrite Hst, Ha. eexists. split; [done|].
      unfold on_answer. cbn. rewrite Hp. cbn. split; [|done].
      apply list_lookup_insert_eq. by eapply lookup_lt_Some.
  - intros p answer s' Hst. simpl. rewrite Hst.
    destruct (live_pc p s); [|done].
    destruct answer as [d|raw]; [|done]. intros [= <-]. exists d.
    split; [done|]. cbn. split; [|done].
    apply list_lookup_insert_eq. by eapply lookup_lt_Some.
Qed.

Lemma signaling_response_handling_witness :
  ∃ s, run [ClickStart; OfferSettled 0 (inr offer0); LocalSettled 0 None;
            GatheringStateChange 0 GsComplete] init = Some s
       ∧ ∃ s1, step (FetchSettled 0 (inr response500)) s = Some s1
               ∧ negs s1 !! 0 = Some (AwaitJson response500)
               ∧ calls s1 = calls s ++ [ResponseJson 0].
Proof.
  eexists. split; [vm_compute; reflexivity|].
  apply (signaling_response_handling _ 0 response500). reflexivity.
Defined.

(** C4, as the spec has it, fails: a response with status 500 whose body is
    a session description is applied as the remote description, and the
    negotiation is fulfilled. *)
Lemma non_success_response_is_applied : ¬ non_success_fails.
Proof.
  intros Hclaim.
  pose (s := default init
               (run [ClickStart; OfferSettled 0 (inr offer0); LocalSettled 0 None;
                     GatheringStateChange 0 GsComplete] init)).
  pose (s' := default init
                (run [FetchSettled 0 (inr response500); JsonSettled 0] s)).
  destruct (Hclaim s 0 response500 s') as [e He].
  - vm_compute. reflexivity.
  - reflexivity.
  - vm_compute. reflexivity.
  - vm_compute in He. discriminate He.
Qed.

(** Seen from the page: the run ends fulfilled with the answer applied. *)
Lemma bad_status_run_fulfilled :
  ∃ s, run bad_status_run init = Some s
       ∧ negs s !! 0 = Some Fulfilled
       ∧ remoteDescription <$> pcs s !! 0 = Some (Some answer0).
Proof. eexists. split; [vm_compute; reflexivity|]. done. Qed.

(** ** Listeners and teardown *)

(** C3 does not hold of the code.  [stop] clears the three event handler
    attributes of the session (client.js:199-201, under the comment "It's
    safer to remove event listeners"), but the callbacks were registered
    with [addEventListener] (client.js:91, 103 and 42) and stay registered:
    [stop] changes the listener list of no peer connection.  After
    [start(); stop()] a connection state change still runs its callback,
    which logs and tears down a second time, and an arriving video track is
    attached to the media sink that teardown had just detached. *)
Theorem listeners_survive_stop :
  (∀ s, listeners <$> pcs (stop s) = listeners <$> pcs s)
  ∧ (∃ s, run [ClickStart; ClickStop] init = Some s
          ∧ listeners <$> pcs s !! 0 = Some [onConnectionStateChange; onTrack])
  ∧ (∃ s, run [ClickStart; ClickStop; ConnectionStateChange 0 CsFailed] init
          = Some s
          ∧ "Connection state changed: failed" ∈ logs s
          ∧ timeouts s = [1; 2])
  ∧ (∃ s, run [ClickStart; ClickStop; TrackArrived 0 "video" 7] init = Some s
          ∧ srcObject s = Some 7).
Proof.
  split; [apply stop_listeners|]. split_and!.
  - eexists. split; [vm_compute; reflexivity|]. done.
  - eexists. split; [vm_compute; reflexivity|]. split; [|done].
    cbn. repeat first [apply list_elem_of_here | apply list_elem_of_further].
  - eexists. split; [vm_compute; reflexivity|]. done.
Qed.

(** ** A session started before the deferred close fires *)

Lemma step_ClickStop s : stopDisabled s = false → step ClickStop s = Some (stop s).
Proof. intros H. simpl. by rewrite H. Qed.

Lemma step_ClickStart s :
  startDisabled s = false → step ClickStart s = Some (start s).
Proof. intros H. simpl. by rewrite H. Qed.

Lemma step_TimeoutFired t s :
  t ∈ timeouts s →
  step (TimeoutFired t) s
  = Some (deferred_close (set_timeouts (filter (λ x, x ≠ t) (timeouts s)) s)).
Proof. intros H. simpl. by rewrite decide_True. Qed.

Lemma stop_pcs s :
  pcs (stop s)
  = if pc s is Some p then alter clear_handler_attributes p (pcs s) else pcs s.
Proof. by stop_cases s. Qed.

Lemma stop_length_pcs s : length (pcs (stop s)) = length (pcs s).
Proof. rewrite stop_pcs. destruct (pc s); by rewrite ?length_alter. Qed.

Lemma stop_closed s p : closed <$> pcs (stop s) !! p = closed <$> pcs s !! p.
Proof.
  rewrite <- !list_lookup_fmap. f_equal. rewrite stop_pcs.
  destruct (pc s); [|done]. by apply fmap_alter_same.
Qed.

Lemma start_pc s : pc (start s) = Some (length (pcs s)).
Proof. done. Qed.

Lemma start_pcs s : pcs (start s) = pcs s ++ [started_connection].
Proof.
  unfold start, negotiate, addEventListener. cbn.
  rewrite (alter_app_r_alt _ (pcs s)) by done. rewrite Nat.sub_diag. cbn.
  rewrite (alter_app_r_alt _ (pcs s)) by done. by rewrite Nat.sub_diag.
Qed.

Lemma start_timeouts s : timeouts (start s) = timeouts s.
Proof. done. Qed.

Lemma start_calls s :
  calls (start s)
  = calls s ++ [AddTransceiver (length (pcs s));
                AddEventListener (length (pcs s)) onConnectionStateChange;
                AddEventListener (length (pcs s)) onTrack;
                CreateOffer (length (negs s)) (length (pcs s))].
Proof. unfold start, negotiate, addEventListener. cbn. by rewrite <- !app_assoc. Qed.
(** What the deferred close does when it fires. *)
Lemma step_TimeoutFired_Some t q s :
  t ∈ timeouts s → pc s = Some q →
  ∃ s', step (TimeoutFired t) s = Some s'
        ∧ pc s' = None
        ∧ pcs s' = alter close_connection q (pcs s)
        ∧ calls s' = calls s ++ [ConnectionClose q]
        ∧ timeouts s' = filter (λ x, x ≠ t) (timeouts s).
Proof.
  intros Ht Hq. simpl. rewrite decide_True by done.
  unfold deferred_close. cbn. rewrite Hq. cbn. by eexists.
Qed.

Lemma step_TimeoutFired_None t s :
  t ∈ timeouts s → pc s = None →
  step (TimeoutFired t) s
  = Some (set_timeouts (filter (λ x, x ≠ t) (timeouts s)) s).
Proof.
  intros Ht Hq. simpl. rewrite decide_True by done.
  unfold deferred_close. cbn. by rewrite Hq.
Qed.

(** A deferred close that fires after [start] closes the session [start]
    made. *)
Lemma deferred_close_after_start (s1 : state) (p t : nat) :
  startDisabled s1 = false → t ∈ timeouts s1 →
  closed <$> pcs s1 !! p = Some false →
  ∃ s2 s3,
    step ClickStart s1 = Some s2
    ∧ step (TimeoutFired t) s2 = Some s3
    ∧ pc s2 = Some (length (pcs s1))
    ∧ pc s3 = None
    ∧ closed <$> pcs s3 !! length (pcs s1) = Some true
    ∧ closed <$> pcs s3 !! p = Some false
    ∧ calls s3 = calls s2 ++ [ConnectionClose (length (pcs s1))].
Proof.
  intros Hstart Ht Hcl.
  assert (p < length (pcs s1)) as Hlt.
  { destruct (pcs s1 !! p) eqn:E; [by eapply lookup_lt_Some|done]. }
  destruct (step_TimeoutFired_Some t (length (pcs s1)) (start s1))
    as (s3 & E3 & H1 & H2 & H3 & _).
  { by rewrite start_timeouts. }
  { apply start_pc. }
  exists (start s1), s3. split; [by apply step_ClickStart|].
  split; [exact E3|]. split; [apply start_pc|]. split; [exact H1|].
  rewrite H2, H3.
  rewrite start_pcs, (alter_app_r_alt _ (pcs s1)) by done.
  rewrite Nat.sub_diag.
  change (alter close_connection 0 [started_connection])
    with [close_connection started_connection].
  split_and!.
  - by rewrite list_lookup_middle.
  - by rewrite lookup_app_l.
  - done.
Qed.

(** C10.  When [stop] is followed by [start] before the deferred close of
    that [stop] fires, the callback finds the global referring to the new
    session and closes and releases that one; the session it was scheduled
    for stays open, and no session is referred to any more. *)
Theorem deferred_close_hits_new_session
    (s : state) (p : nat) (o : RTCPeerConnection) :
  pc s = Some p → pcs s !! p = Some o → closed o = false →
  stopDisabled s = false →
  ∃ s1 s2 s3,
    step ClickStop s = Some s1
    ∧ step ClickStart s1 = Some s2
    ∧ step (TimeoutFired (next_timer s)) s2 = Some s3
    ∧ last (timeouts s1) = Some (next_timer s)
    ∧ pc s1 = Some p
    ∧ pc s2 = Some (length (pcs s)) ∧ length (pcs s) ≠ p
    ∧ pc s3 = None
    ∧ closed <$> pcs s3 !! length (pcs s) = Some true
    ∧ closed <$> pcs s3 !! p = Some false
    ∧ calls s3 = calls s2 ++ [ConnectionClose (length (pcs s))].
Proof.
  intros Hp Ho Hclosed Hstop.
  assert (p < length (pcs s)) as Hlt by (by eapply lookup_lt_Some).
  assert (timeouts (stop s) = timeouts s ++ [next_timer s]) as Hto.
  { by rewrite stop_timeouts, Hp. }
  destruct (deferred_close_after_start (stop s) p (next_timer s))
    as (s2 & s3 & E2 & E3 & A & B & C & D & E).
  - apply stop_buttons.
  - rewrite Hto. apply elem_of_app. right. apply list_elem_of_here.
  - by rewrite stop_closed, Ho, <- Hclosed.
  - rewrite stop_length_pcs in A, C, E.
    exists (stop s), s2, s3. split_and!; try assumption.
    + by apply step_ClickStop.
    + rewrite Hto. apply last_snoc.
    + by rewrite stop_pc.
    + lia.
Qed.

Lemma deferred_close_hits_new_session_witness :
  ∃ s1 s2 s3,
    step ClickStop (start init) = Some s1
    ∧ step ClickStart s1 = Some s2
    ∧ step (TimeoutFired 1) s2 = Some s3
    ∧ last (timeouts s1) = Some 1
    ∧ pc s1 = Some 0
    ∧ pc s2 = Some 1 ∧ 1 ≠ 0
    ∧ pc s3 = None
    ∧ closed <$> pcs s3 !! 1 = Some true
    ∧ closed <$> pcs s3 !! 0 = Some false
    ∧ calls s3 = calls s2 ++ [ConnectionClose 1].
Proof.
  apply (deferred_close_hits_new_session (start init) 0 started_connection);
    reflexivity.
Defined.

(** ** The channel invariant *)

Lemma channel_inv_view s s' :
  chan_view s' = chan_view s → channel_inv s → channel_inv s'.
Proof.
  unfold chan_view. intros [= E1 E2 E3 E4 E5 E6 E7 E8 E9] [H1 H2 H3 H4 H5 H6 H7].
  split; rewrite ?E1, ?E2, ?E3, ?E4, ?E5, ?E6, ?E7, ?E8, ?E9; done.
Qed.

Lemma stop_next_timer s :
  next_timer (stop s) = if pc s is Some _ then S (next_timer s) else next_timer s.
Proof. by stop_cases s. Qed.

Lemma stop_startDisabled s : startDisabled (stop s) = false.
Proof. apply stop_buttons. Qed.

Lemma filter_ne_singleton (t : nat) : filter (λ x, x ≠ t) [t] = [].
Proof. rewrite filter_cons, decide_False by (by intros ?). done. Qed.

Lemma keepalive_needs_channel s :
  channel_inv s → dc s = None → dcInterval s = None ∧ intervals s = [].
Proof.
  intros [_ _ H _ _ _ _] Hdc. destruct (dcInterval s) as [t|]; [|done].
  destruct H as (_ & d & o & Hd & _). congruence.
Qed.

Lemma channel_inv_stop s : channel_inv s → channel_inv (stop s).
Proof.
  intros [H1 H2 H3 H4 H5 H6 H7]. split.
  - intros _. apply stop_dc.
  - rewrite stop_dcs. intros d' o' Ho' _.
    destruct (dc s) as [d|] eqn:Hd.
    + rewrite list_lookup_alter in Ho'. case_decide as Hdd.
      * subst d'. destruct (dcs s !! d) as [o|]; [|done].
        injection Ho' as <-. apply closing_closes.
      * eapply H2; [done|]. congruence.
    + eapply H2; [done|]. congruence.
  - rewrite stop_dcInterval, stop_intervals.
    destruct (dcInterval s) as [t|]; [|done].
    destruct H3 as [-> _]. apply filter_ne_singleton.
  - rewrite stop_dc. by intros d.
  - rewrite stop_pc, stop_length_pcs. exact H5.
  - rewrite stop_timeouts, stop_next_timer. intros t.
    destruct (pc s); rewrite ?app_nil_r; [|by apply H6].
    rewrite elem_of_app, list_elem_of_singleton.
    intros [Ht%H6| ->]; lia.
  - rewrite stop_timeouts. destruct (pc s); rewrite ?app_nil_r; [|done].
    apply NoDup_app. split; [done|]. split; [|apply NoDup_singleton].
    intros t Ht%H6 ->%list_elem_of_singleton. lia.
Qed.

Lemma channel_inv_benign s s' : channel_inv s → benign s s' → channel_inv s'.
Proof.
  intros Hs [Hv|(s0 & Hv & ->)]; [by eapply channel_inv_view|].
  apply channel_inv_stop. by eapply channel_inv_view.
Qed.

Ltac view_solve := unfold chan_view; cbn; rewrite ?length_alter; reflexivity.

Ltac benign_solve :=
  first [ left; view_solve
        | right; eexists; split; [|reflexivity]; view_solve ].

Lemma negotiation_failed_benign k e s : benign s (negotiation_failed k e s).
Proof. unfold negotiation_failed. benign_solve. Qed.

Lemma on_offer_benign k offer s : benign s (on_offer k offer s).
Proof. unfold on_offer, negotiation_failed. cbn. destruct (pc s); benign_solve. Qed.

Lemma on_gathering_complete_benign k s : benign s (on_gathering_complete k s).
Proof.
  unfold on_gathering_complete, negotiation_failed, cur_pc. cbn.
  destruct (pc s) as [p|]; cbn; [|benign_solve].
  destruct (pcs s !! p) as [o|]; cbn; [|benign_solve].
  destruct (localDescription o); benign_solve.
Qed.

Lemma benign_after s0 s s' :
  chan_view s = chan_view s0 → benign s s' → benign s0 s'.
Proof.
  intros Hv [Hv'|(s1 & Hv1 & ->)]; [left|right; exists s1; split; [|done]];
    congruence.
Qed.

Lemma on_local_applied_benign k s : benign s (on_local_applied k s).
Proof.
  unfold on_local_applied, cur_pc. cbn.
  destruct (pc s) as [p|]; cbn;
    [|unfold negotiation_failed; benign_solve].
  destruct (pcs s !! p) as [o|]; cbn;
    [|unfold negotiation_failed; benign_solve].
  case_decide.
  - eapply benign_after; [|apply on_gathering_complete_benign]. view_solve.
  - unfold addEventListener. benign_solve.
Qed.

Lemma on_response_benign k r s : benign s (on_response k r s).
Proof. unfold on_response. benign_solve. Qed.

Lemma on_answer_benign k answer s : benign s (on_answer k answer s).
Proof. unfold on_answer, negotiation_failed. cbn. destruct (pc s); benign_solve. Qed.

Lemma on_remote_applied_benign k s : benign s (on_remote_applied k s).
Proof. unfold on_remote_applied. benign_solve. Qed.

Lemma run_checkState_benign k s : benign s (run_checkState k s).
Proof.
  unfold run_checkState. destruct (cur_pc s) as [[p o]|]; [|benign_solve].
  case_decide; [|benign_solve].
  unfold resolve_gathering. cbn.
  destruct (negs s !! k) as [[]|];
    try (unfold removeEventListener; benign_solve).
  eapply benign_after; [|apply on_gathering_complete_benign].
  unfold removeEventListener. view_solve.
Qed.

Lemma run_listener_benign ev s l : benign s (run_listener ev s l).
Proof.
  destruct l as [| |k]; simpl.
  - unfold run_onConnectionStateChange.
    destruct (cur_pc s) as [[p o]|]; [|benign_solve].
    destruct (connectionState o); benign_solve.
  - destruct ev; [benign_solve|]. unfold run_onTrack.
    case_decide; benign_solve.
  - apply run_checkState_benign.
Qed.

Lemma channel_inv_dispatch ty ev p s :
  channel_inv s → channel_inv (dispatch ty ev p s).
Proof.
  unfold dispatch. destruct (pcs s !! p) as [o|]; [|done].
  generalize (handlers ty o). intros ls. revert s.
  induction ls as [|l ls IH]; intros s Hs; simpl; [done|].
  apply IH. eapply channel_inv_benign; [done|apply run_listener_benign].
Qed.

Lemma start_startDisabled s : startDisabled (start s) = true.
Proof. done. Qed.
Lemma start_dc s : dc (start s) = Some (length (dcs s)).
Proof. done. Qed.
Lemma start_dcs s :
  dcs (start s) = dcs s ++ [{| label := "chat"; readyState := RsConnecting |}].
Proof. done. Qed.
Lemma start_dcInterval s : dcInterval (start s) = dcInterval s.
Proof. done. Qed.
Lemma start_intervals s : intervals (start s) = intervals s.
Proof. done. Qed.
Lemma start_next_timer s : next_timer (start s) = next_timer s.
Proof. done. Qed.

Lemma channel_inv_start s :
  channel_inv s → startDisabled s = false → channel_inv (start s).
Proof.
  intros Hs Hstart. pose proof (inv_start s Hs Hstart) as Hdc.
  destruct (keepalive_needs_channel s Hs Hdc) as [Hi Hint].
  destruct Hs as [H1 H2 H3 H4 H5 H6 H7].
  split; rewrite ?start_startDisabled, ?start_dc, ?start_dcs,
    ?start_dcInterval, ?start_intervals, ?start_next_timer, ?start_pc,
    ?start_pcs, ?start_timeouts; try done.
  - intros d o Ho Hne. apply lookup_snoc_Some in Ho as [[_ Ho]|[-> _]];
      [|done].
    eapply H2; [done|]. by rewrite Hdc.
  - by rewrite Hi, Hint.
  - intros d [= <-]. rewrite length_app. simpl. lia.
  - intros p [= <-]. rewrite length_app. simpl. lia.
Qed.

(** A channel that is connecting or open is the one [dc] refers to. *)
Lemma live_channel_is_current s d o :
  channel_inv s → dcs s !! d = Some o →
  readyState o = RsConnecting ∨ readyState o = RsOpen → dc s = Some d.
Proof.
  intros Hs Ho Hr. destruct (decide (dc s = Some d)) as [|Hne]; [done|].
  destruct (inv_strays s Hs d o Ho Hne); destruct Hr; congruence.
Qed.

Lemma channel_inv_open s d o :
  channel_inv s → dcs s !! d = Some o → readyState o = RsConnecting →
  channel_inv (dc_onopen (upd_dc d (with_readyState RsOpen) s)).
Proof.
  intros Hs Ho Hr.
  pose proof (live_channel_is_current s d o Hs Ho (or_introl Hr)) as Hd.
  assert (dcInterval s = None ∧ intervals s = []) as [Hi Hint].
  { pose proof (inv_keepalive s Hs) as H3.
    destruct (dcInterval s) as [t|]; [|done].
    destruct H3 as (_ & d' & o' & Hd' & Ho' & Hr').
    assert (d' = d) as -> by congruence.
    assert (o' = o) as -> by congruence.
    destruct Hr' as [|[|[]]]; congruence. }
  destruct Hs as [H1 H2 H3 H4 H5 H6 H7].
  unfold dc_onopen, cur_dc. cbn. rewrite Hd. cbn.
  rewrite list_lookup_alter_eq, Ho. cbn.
  split; cbn.
  - intros Hst. rewrite H1 in Hd; done.
  - intros d' o' Ho' Hne. rewrite Hd in Hne.
    rewrite list_lookup_alter_ne in Ho' by congruence.
    eapply H2; [done|congruence].
  - rewrite Hint. split; [done|]. exists d, (with_readyState RsOpen o).
    rewrite list_lookup_alter_eq, Ho. auto.
  - intros d0 Hd0. rewrite length_alter. by apply H4.
  - exact H5.
  - intros t Ht%H6. lia.
  - exact H7.
Qed.

Lemma channel_inv_closing s d o :
  channel_inv s → dcs s !! d = Some o → readyState o = RsOpen →
  channel_inv (upd_dc d (with_readyState RsClosing) s).
Proof.
  intros Hs Ho Hr.
  pose proof (live_channel_is_current s d o Hs Ho (or_intror Hr)) as Hd.
  destruct Hs as [H1 H2 H3 H4 H5 H6 H7]. split; cbn; try done.
  - intros d' o' Ho' Hne. rewrite Hd in Hne.
    rewrite list_lookup_alter_ne in Ho' by congruence.
    eapply H2; [done|congruence].
  - destruct (dcInterval s) as [t|]; [|done].
    destruct H3 as (Hint & d' & o' & Hd' & Ho' & Hr').
    assert (d' = d) as -> by congruence.
    split; [done|]. exists d, (with_readyState RsClosing o).
    rewrite list_lookup_alter_eq, Ho. auto.
  - by rewrite length_alter.
Qed.


Lemma channel_inv_closed s d o :
  channel_inv s → dcs s !! d = Some o →
  channel_inv (dc_onclose (upd_dc d (with_readyState RsClosed) s)).
Proof.
  intros Hs Ho.
  assert (∀ g, dc s = g → ∀ d' o',
            alter (with_readyState RsClosed) d (dcs s) !! d' = Some o' →
            g ≠ Some d' →
            readyState o' = RsClosing ∨ readyState o' = RsClosed) as Hstray.
  { intros g <- d' o' Ho' Hne. rewrite list_lookup_alter in Ho'. case_decide.
    - subst d'. rewrite Ho in Ho'. injection Ho' as <-. by right.
    - by eapply (inv_strays s Hs). }
  unfold dc_onclose, cur_dc. cbn.
  destruct (dc s) as [d0|] eqn:Hd; cbn.
  - pose proof (inv_dc s Hs d0 Hd) as Hlt.
    destruct (alter (with_readyState RsClosed) d (dcs s) !! d0) as [o0|] eqn:Ho0.
    2: { apply lookup_ge_None in Ho0. rewrite length_alter in Ho0. lia. }
    cbn. destruct Hs as [H1 H2 H3 H4 H5 H6 H7].
    assert (startDisabled s = false → Some d0 = None) as H1'.
    { intros Hst. rewrite <- Hd. by apply H1. }
    assert (∀ d1, Some d0 = Some d1 →
              d1 < length (alter (with_readyState RsClosed) d (dcs s))) as H4'.
    { intros d1 [= <-]. by rewrite length_alter. }
    specialize (Hstray _ eq_refl).
    destruct (dcInterval s) as [t|] eqn:Hi; cbn.
    + destruct H3 as [Hint _]. split; cbn; rewrite ?Hd.
      * exact H1'.
      * exact Hstray.
      * rewrite Hint. apply filter_ne_singleton.
      * exact H4'.
      * exact H5.
      * exact H6.
      * exact H7.
    + split; cbn; rewrite ?Hd, ?Hi.
      * exact H1'.
      * exact Hstray.
      * exact H3.
      * exact H4'.
      * exact H5.
      * exact H6.
      * exact H7.
  - destruct (keepalive_needs_channel s Hs Hd) as [Hi Hint].
    destruct Hs as [H1 H2 H3 H4 H5 H6 H7]. specialize (Hstray _ eq_refl).
    split; cbn; rewrite ?Hd, ?Hi.
    + done.
    + exact Hstray.
    + done.
    + done.
    + exact H5.
    + exact H6.
    + exact H7.
Qed.

Lemma channel_inv_ping now r s : channel_inv s → channel_inv (ping now r s).
Proof.
  intros Hs. unfold ping, dc_send, channel_send.
  assert (channel_inv
            match dcInterval s with
            | Some t => set_dcInterval None (clearInterval t s)
            | None => s
            end) as Hclear.
  { destruct Hs as [H1 H2 H3 H4 H5 H6 H7].
    destruct (dcInterval s) as [t|] eqn:Hi; [|by split; rewrite ?Hi].
    destruct H3 as [Hint _]. split; cbn; try done.
    rewrite Hint. apply filter_ne_singleton. }
  destruct (cur_dc s) as [[d o]|]; cbn.
  - case_decide; [destruct r as [e|]|]; cbn.
    + eapply channel_inv_view; [|exact Hclear]. destruct (dcInterval s); view_solve.
    + eapply channel_inv_view; [|exact Hs]. view_solve.
    + eapply channel_inv_view; [|exact Hclear]. destruct (dcInterval s); view_solve.
  - eapply channel_inv_view; [|exact Hclear]. destruct (dcInterval s); view_solve.
Qed.

Lemma closed_with_readyState p ts d o :
  readyState (closed_with p ts d o) = readyState o
  ∨ readyState (closed_with p ts d o) = RsClosed.
Proof. unfold closed_with. case_decide; [by right|by left]. Qed.

Lemma lookup_closed_with p ts l d o' :
  imap (closed_with p ts) l !! d = Some o' →
  ∃ o, l !! d = Some o
       ∧ (readyState o' = readyState o ∨ readyState o' = RsClosed).
Proof.
  rewrite list_lookup_imap. destruct (l !! d) as [o|]; [|done].
  intros [= <-]. exists o. split; [done|apply closed_with_readyState].
Qed.

Lemma channel_inv_timeout t s :
  channel_inv s →
  channel_inv (deferred_close (set_timeouts (filter (λ x, x ≠ t) (timeouts s)) s)).
Proof.
  intros [H1 H2 H3 H4 H5 H6 H7]. unfold deferred_close. cbn.
  assert (∀ t', t' ∈ filter (λ x, x ≠ t) (timeouts s) → t' < next_timer s)
    as H6'.
  { intros t' [_ Ht']%list_elem_of_filter. by apply H6. }
  assert (NoDup (filter (λ x, x ≠ t) (timeouts s))) as H7'
    by (by apply NoDup_filter).
  destruct (pc s) as [p|] eqn:Hp; [|split; cbn; rewrite ?Hp; assumption].
  split; cbn.
  - exact H1.
  - intros d o' (o & Ho & Hr)%lookup_closed_with Hne.
    destruct Hr as [->| ->]; [by eapply H2|by right].
  - destruct (dcInterval s) as [ti|]; [|exact H3].
    destruct H3 as (Hint & d & o & Hd & Ho & Hr). split; [exact Hint|].
    exists d, (closed_with p (transports s) d o).
    split; [exact Hd|]. split; [by rewrite list_lookup_imap, Ho|].
    destruct (closed_with_readyState p (transports s) d o) as [-> | ->].
    + destruct Hr as [|[|[_ ?]]]; [by left|by right; left|congruence].
    + right; right. done.
  - intros d Hd. rewrite length_imap. by apply H4.
  - done.
  - exact H6'.
  - exact H7'.
Qed.

Lemma channel_inv_requestFrame r s :
  channel_inv s → channel_inv (requestFrame r s).1.
Proof.
  intros Hs. eapply channel_inv_view; [|exact Hs].
  unfold requestFrame, channel_send.
  destruct (cur_dc s) as [[d o]|]; [case_decide|]; view_solve.
Qed.

Lemma init_channel_inv : channel_inv init.
Proof.
  split; cbn; try done.
  - intros t Ht. by apply not_elem_of_nil in Ht.
  - apply NoDup_nil_2.
Qed.

(** Every event keeps the channel invariant. *)
Lemma step_channel_inv e s s' :
  channel_inv s → step e s = Some s' → channel_inv s'.
Proof.
  intros Hs. destruct e; simpl; intros Hstep.
  - destruct (startDisabled s) eqn:Hst; [done|]. injection Hstep as <-.
    by apply channel_inv_start.
  - destruct (requestFrameDisabled s); [done|].
    pose proof (channel_inv_requestFrame r s Hs) as Hr.
    destruct (requestFrame r s) as [s1 [e|]]; cbn [fst] in Hr;
      injection Hstep as <-; [|done].
    eapply channel_inv_view; [|exact Hr]. view_solve.
  - destruct (stopDisabled s); [done|]. injection Hstep as <-.
    by apply channel_inv_stop.
  - destruct (negs s !! k) as [[]|]; try done. settle_live s. injection Hstep as <-.
    eapply channel_inv_benign; [exact Hs|].
    destruct r; [apply negotiation_failed_benign|apply on_offer_benign].
  - destruct (negs s !! k) as [[]|]; try done. settle_live s. injection Hstep as <-.
    destruct r; [eapply channel_inv_benign;
                   [exact Hs|apply negotiation_failed_benign]|].
    eapply channel_inv_benign; [|apply on_local_applied_benign].
    eapply channel_inv_view; [|exact Hs]. view_solve.
  - destruct (negs s !! k) as [[]|]; try done. settle_live s. injection Hstep as <-.
    eapply channel_inv_benign; [exact Hs|].
    destruct r; [apply negotiation_failed_benign|apply on_response_benign].
  - destruct (negs s !! k) as [[]|]; try done. settle_live s. injection Hstep as <-.
    eapply channel_inv_benign; [exact Hs|].
    destruct (resp_json r);
      [apply negotiation_failed_benign|apply on_answer_benign].
  - destruct (negs s !! k) as [[]|]; try done. settle_live s.
    destruct r; [injection Hstep as <-;
                 eapply channel_inv_benign;
                   [exact Hs|apply negotiation_failed_benign]|].
    destruct answer; [|done]. injection Hstep as <-.
    eapply channel_inv_benign; [|apply on_remote_applied_benign].
    eapply channel_inv_view; [|exact Hs]. view_solve.
  - destruct (live_pc p s); [|done]. with_local s. injection Hstep as <-.
    apply channel_inv_dispatch. eapply channel_inv_view; [|exact Hs]. view_solve.
  - destruct (live_pc p s); [|done]. with_local s. injection Hstep as <-.
    apply channel_inv_dispatch. eapply channel_inv_view; [|exact Hs]. view_solve.
  - destruct (live_pc p s); [|done]. with_local s. injection Hstep as <-.
    by apply channel_inv_dispatch.
  - destruct (dcs s !! d) as [o|] eqn:Ho; [|done]. case_decide; [|done].
    injection Hstep as <-. by eapply channel_inv_open.
  - destruct (dcs s !! d) as [o|] eqn:Ho; [|done]. case_decide; [|done].
    injection Hstep as <-. by eapply channel_inv_closing.
  - destruct (dcs s !! d) as [o|] eqn:Ho; [|done]. case_decide; [done|].
    injection Hstep as <-. by eapply channel_inv_closed.
  - destruct (dcs s !! d) as [o|] eqn:Ho; [|done]. case_decide; [done|].
    injection Hstep as <-. eapply channel_inv_view; [|exact Hs].
    unfold dc_onerror. destruct (cur_dc s) as [[]|]; view_solve.
  - destruct (dcs s !! d) as [o|] eqn:Ho; [|done]. case_decide; [|done].
    injection Hstep as <-. eapply channel_inv_view; [|exact Hs].
    unfold dc_onmessage. destruct (is_pong data); [done|].
    destruct (cur_dc s) as [[]|]; view_solve.
  - case_decide; [|done]. injection Hstep as <-. by apply channel_inv_ping.
  - case_decide; [|done]. injection Hstep as <-. by apply channel_inv_timeout.
Qed.

Lemma run_channel_inv es s s' :
  channel_inv s → run es s = Some s' → channel_inv s'.
Proof.
  revert s. induction es as [|e es IH]; intros s Hs; simpl.
  - by intros [= <-].
  - destruct (step e s) as [s1|] eqn:He; [|done]. simpl.
    apply IH. by eapply step_channel_inv.
Qed.

Lemma reachable_channel_inv s : reachable s → channel_inv s.
Proof. intros [es Hes]. eapply run_channel_inv; [apply init_channel_inv|done]. Qed.

(** ** The keepalive handle *)

Lemma open_needs_no_handle s d o :
  channel_inv s → dcs s !! d = Some o → readyState o = RsConnecting →
  dc s = Some d ∧ dcInterval s = None ∧ intervals s = [].
Proof.
  intros Hs Ho Hr.
  pose proof (live_channel_is_current s d o Hs Ho (or_introl Hr)) as Hd.
  split; [done|].
  pose proof (inv_keepalive s Hs) as H3.
  destruct (dcInterval s) as [t|]; [|done].
  destruct H3 as (_ & d' & o' & Hd' & Ho' & Hr').
  assert (d' = d) as -> by congruence.
  assert (o' = o) as -> by congruence.
  destruct Hr' as [|[|[]]]; congruence.
Qed.

Lemma stop_cancels_before_closing s t d :
  dcInterval s = Some t → dc s = Some d →
  ∃ post, calls (stop s) = calls s ++ ClearInterval t :: ChannelClose d :: post.
Proof.
  intros Hi Hd. unfold stop. cbn. rewrite Hi. cbn. rewrite Hd. cbn.
  destruct (pc s); cbn; rewrite <- ?app_assoc; eauto.
Qed.




(** and after a tick whose send failed the channel is open without one. *)
Lemma open_channel_without_handle :
  ∃ s, run [ClickStart; ChannelOpen 0;
            IntervalTick 1 1700000000000 (Some "OperationError")] init = Some s
       ∧ channel_open s = true ∧ dcInterval s = None.
Proof. eexists. split; [vm_compute; reflexivity|]. done. Qed.

(** A handle can outlive its channel: the deferred close of an earlier
    teardown closes the connection of the session started since, and with
    it the open channel, without a notification; the handle stays until
    the next tick, whose send throws. *)
Lemma handle_outlives_closed_channel :
  ∃ s s', run [ClickStart; ClickStop; ClickStart; ChannelOpen 1;
               TimeoutFired 1] init = Some s
          ∧ dcInterval s = Some 2 ∧ intervals s = [2]
          ∧ cur_dc s = Some (1, {| label := "chat"; readyState := RsClosed |})
          ∧ pc s = None ∧ closed_in 1 s
          ∧ step (IntervalTick 2 1700000000000 None) s = Some s'
          ∧ dcInterval s' = None ∧ intervals s' = []
          ∧ last (calls s')
            = Some (ClearInterval 2).
Proof.
  eexists; eexists. split; [vm_compute; reflexivity|].
  split_and!; try (vm_compute; reflexivity).
  eexists. split; vm_compute; reflexivity.
Qed.
(** ** Teardown, repeated *)

Lemma stop_errors s : errors (stop s) = errors s.
Proof. by stop_cases s. Qed.

Lemma set_timeouts_same s : timeouts s = [] → set_timeouts [] s = s.
Proof. destruct s; simpl. by intros ->. Qed.

Lemma filter_ne_absent (t : nat) (l : list nat) :
  t ∉ l → filter (λ x, x ≠ t) l = l.
Proof.
  induction l as [|x l IH]; [done|]. intros Hne.
  apply not_elem_of_cons in Hne as [Hx Hl].
  rewrite filter_cons, decide_True by done. by rewrite IH.
Qed.

(** With no session referred to, the pending closes fire and do nothing. *)
Lemma run_pending_none ts s :
  timeouts s = ts → NoDup ts → pc s = None →
  run (TimeoutFired <$> ts) s = Some (set_timeouts [] s).
Proof.
  revert s. induction ts as [|t ts IH]; intros s Hts Hnd Hpc; simpl.
  - by rewrite set_timeouts_same.
  - apply NoDup_cons in Hnd as [Ht Hnd].
    rewrite decide_True by (rewrite Hts; apply list_elem_of_here).
    cbn. unfold deferred_close. cbn. rewrite Hpc, Hts.
    rewrite filter_cons, decide_False by (by intros ?).
    rewrite filter_ne_absent by done.
    by apply (IH (set_timeouts ts s)).
Qed.

(** The pending closes of a page: the first one closes the session [pc]
    refers to, the others find nothing to close. *)
Lemma run_pending s :
  NoDup (timeouts s) → pc s = None ∨ timeouts s ≠ [] →
  run (pending_closes s) s = Some (settled_page s).
Proof.
  intros Hnd Hpend. unfold pending_closes, settled_page.
  destruct (pc s) as [p|] eqn:Hp.
  - destruct Hpend as [|Hne]; [done|].
    destruct (timeouts s) as [|t ts] eqn:Hts; [done|].
    apply NoDup_cons in Hnd as [Ht Hnd]. simpl.
    rewrite decide_True by (rewrite Hts; apply list_elem_of_here).
    cbn. rewrite Hts.
    rewrite filter_cons, decide_False by (by intros ?).
    rewrite filter_ne_absent by done.
    unfold deferred_close. cbn. rewrite Hp.
    etrans; [by apply (run_pending_none ts)|]. reflexivity.
  - rewrite (run_pending_none (timeouts s)) by done.
    unfold deferred_close. by rewrite Hp.
Qed.

Lemma stop_transports s : transports (stop s) = transports s.
Proof. by stop_cases s. Qed.

Lemma settled_page_resources s :
  resources (settled_page s)
  = (None, dc s, dcInterval s, srcObject s,
     (if pc s is Some p then alter close_connection p (pcs s) else pcs s),
     (if pc s is Some p then imap (closed_with p (transports s)) (dcs s)
      else dcs s),
     intervals s, [],
     (startDisabled s, requestFrameDisabled s, stopDisabled s),
     negs s, errors s).
Proof.
  unfold resources, settled_page, deferred_close.
  destruct (pc s) as [p|] eqn:Hp; cbn; by rewrite ?Hp.
Qed.

(** What is left once a teardown and its deferred close are over. *)
Lemma settled_stop_resources z :
  resources (settled_page (stop z))
  = (None, None, None, None,
     (if pc z is Some p
      then alter close_connection p (alter clear_handler_attributes p (pcs z))
      else pcs z),
     (if pc z is Some p
      then imap (closed_with p (transports z))
             (if dc z is Some d then alter closing d (dcs z) else dcs z)
      else if dc z is Some d then alter closing d (dcs z) else dcs z),
     (if dcInterval z is Some t then filter (λ x, x ≠ t) (intervals z)
      else intervals z),
     [], (false, true, true), negs z, errors z).
Proof.
  rewrite settled_page_resources.
  rewrite stop_pc, stop_dc, stop_dcInterval, stop_srcObject, stop_pcs, stop_dcs,
    stop_intervals, stop_negs, stop_errors, stop_transports.
  destruct (stop_buttons z) as (-> & -> & ->). by destruct (pc z).
Qed.

Lemma clear_handler_attributes_twice (p : nat) (l : list RTCPeerConnection) :
  alter clear_handler_attributes p (alter clear_handler_attributes p l)
  = alter clear_handler_attributes p l.
Proof.
  revert p. induction l as [|x l IH]; intros [|p]; try done.
  change (x :: alter clear_handler_attributes p
                 (alter clear_handler_attributes p l)
          = x :: alter clear_handler_attributes p l).
  by rewrite IH.
Qed.

Lemma settled_stop_again y :
  resources (settled_page (stop (stop y))) = resources (settled_page (stop y)).
Proof.
  rewrite !settled_stop_resources.
  rewrite stop_pc, stop_dc, stop_dcInterval, stop_negs, stop_errors,
    stop_transports.
  rewrite (stop_pcs y), (stop_intervals y), (stop_dcs y).
  destruct (pc y) as [p|]; [by rewrite clear_handler_attributes_twice|done].
Qed.

Lemma iter_stop_S n s : Nat.iter (S n) stop s = stop (Nat.iter n stop s).
Proof. reflexivity. Qed.

Lemma iter_stop_inv n s : channel_inv s → channel_inv (Nat.iter n stop s).
Proof.
  intros Hs. induction n; [done|]. rewrite iter_stop_S.
  by apply channel_inv_stop.
Qed.

Lemma stop_pending s : pc (stop s) = None ∨ timeouts (stop s) ≠ [].
Proof.
  rewrite stop_pc, stop_timeouts. destruct (pc s); [right|by left].
  intros Habs. by apply app_eq_nil in Habs as [_ ?].
Qed.

Lemma settled_iter_stop n s :
  resources (settled_page (Nat.iter (S n) stop s))
  = resources (settled_page (stop s)).
Proof.
  induction n as [|n IH]; [done|].
  rewrite iter_stop_S, iter_stop_S, settled_stop_again, <- iter_stop_S.
  exact IH.
Qed.

(** C6, as the code has it.  From any reachable state, one teardown or
    several, each followed by the firing of the deferred closes it left
    pending, end in the same resources: no interval timer, no keepalive
    handle, no channel reference, no session reference, no pending close,
    no media stream; the session that was referred to is closed and its
    channel is closing or closed. *)
Theorem teardown_idempotent (s : state) (n : nat) :
  reachable s →
  ∃ t1 tn,
    run (pending_closes (stop s)) (stop s) = Some t1
    ∧ run (pending_closes (Nat.iter (S n) stop s)) (Nat.iter (S n) stop s)
      = Some tn
    ∧ resources tn = resources t1
    ∧ torn_down tn
    ∧ (∀ p, pc s = Some p → closed_in p tn)
    ∧ (∀ d o, dc s = Some d → dcs s !! d = Some o →
         ∃ o', dcs tn !! d = Some o'
               ∧ (readyState o' = RsClosing ∨ readyState o' = RsClosed)).
Proof.
  intros Hs%reachable_channel_inv.
  exists (settled_page (stop s)), (settled_page (Nat.iter (S n) stop s)).
  pose proof (settled_iter_stop n s) as E.
  split; [|split; [|split; [exact E|]]].
  - apply run_pending; [|apply stop_pending].
    apply inv_timeouts. by apply channel_inv_stop.
  - rewrite iter_stop_S. apply run_pending; [|apply stop_pending].
    apply inv_timeouts. apply channel_inv_stop. by apply iter_stop_inv.
  - rewrite settled_stop_resources in E. unfold resources in E.
    revert E. generalize (settled_page (Nat.iter (S n) stop s)). intros tn.
    intros [= E1 E2 E3 E4 E5 E6 E7 E8 _ _ _ _ _].
    split_and!.
    + unfold torn_down. split_and!; try done.
      rewrite E7. pose proof (inv_keepalive s Hs) as H3.
      destruct (dcInterval s) as [t|]; [|done].
      destruct H3 as [-> _]. apply filter_ne_singleton.
    + intros p Hp. rewrite Hp in E5.
      destruct (lookup_lt_is_Some_2 (pcs s) p (inv_pc s Hs p Hp)) as [o Ho].
      exists (close_connection (clear_handler_attributes o)). split; [|done].
      by rewrite E5, !list_lookup_alter_eq, Ho.
    + intros d o Hd Ho. rewrite Hd in E6.
      assert (alter closing d (dcs s) !! d = Some (closing o)) as Hc
        by (by rewrite list_lookup_alter_eq, Ho).
      destruct (pc s) as [p|]; rewrite E6.
      * exists (closed_with p (transports s) d (closing o)).
        split; [by rewrite list_lookup_imap, Hc|].
        destruct (closed_with_readyState p (transports s) d (closing o))
          as [-> | ->]; [apply closing_closes|by right].
      * exists (closing o). split; [done|apply closing_closes].
Qed.

Lemma teardown_idempotent_witness :
  ∃ t1 tn,
    run (pending_closes (stop (start init))) (stop (start init)) = Some t1
    ∧ run (pending_closes (Nat.iter 3 stop (start init)))
          (Nat.iter 3 stop (start init)) = Some tn
    ∧ resources tn = resources t1
    ∧ torn_down tn
    ∧ (∀ p, pc (start init) = Some p → closed_in p tn)
    ∧ (∀ d o, dc (start init) = Some d → dcs (start init) !! d = Some o →
         ∃ o', dcs tn !! d = Some o'
               ∧ (readyState o' = RsClosing ∨ readyState o' = RsClosed)).
Proof.
  apply (teardown_idempotent (start init) 2).
  exists [ClickStart]. reflexivity.
Defined.

Lemma resources_timeouts a b : resources a = resources b → timeouts a = timeouts b.
Proof. unfold resources. by intros [= _ _ _ _ _ _ _ ? _ _ _ _ _]. Qed.

(** C6, as the spec has it, fails: a second teardown while the deferred
    close is pending is not a no-op, it leaves a second deferred close
    pending. *)
Lemma second_teardown_schedules_again : ¬ teardown_again_is_noop.
Proof.
  intros Hclaim.
  assert (reachable (start init)) as Hr by (exists [ClickStart]; reflexivity).
  specialize (Hclaim _ Hr). apply resources_timeouts in Hclaim.
  rewrite !stop_timeouts, !stop_pc, start_pc in Hclaim.
  apply (f_equal length) in Hclaim. rewrite !length_app in Hclaim.
  cbn [length] in Hclaim. lia.
Qed.

(** That second deferred close is not harmless: it closes the session of a
    [start] that comes before it fires, where after a single teardown the
    new session lives on. *)
Lemma second_teardown_closes_next_session :
  (∃ s, run [ClickStart; ClickStop; ConnectionStateChange 0 CsFailed;
             TimeoutFired 1; ClickStart; TimeoutFired 2] init = Some s
        ∧ pc s = None ∧ closed <$> pcs s !! 1 = Some true)
  ∧ (∃ s, run [ClickStart; ClickStop; TimeoutFired 1; ClickStart] init = Some s
          ∧ pc s = Some 1 ∧ timeouts s = []
          ∧ closed <$> pcs s !! 1 = Some false).
Proof.
  split; eexists; (split; [vm_compute; reflexivity|done]).
Qed.

(** ** Inbound messages *)

Lemma bytes_app (s1 s2 : string) : bytes (s1 +:+ s2) = bytes s1 ++ bytes s2.
Proof. induction s1 as [|c s1 IH]; [done|]. simpl. by rewrite IH. Qed.

Lemma utf16_encode_small (u : N) : (u < 65536)%N → utf16_encode u = [u].
Proof. intros Hu. unfold utf16_encode. by rewrite (proj2 (N.ltb_lt _ _)). Qed.

(** An ASCII character is one byte and one code unit, *)
Lemma code_units_ascii_cons (c : ascii) (rest : string) :
  (N_of_ascii c < 128)%N →
  code_units (String c rest) = N_of_ascii c :: code_units rest.
Proof.
  intros Hc. unfold code_units. simpl.
  rewrite (proj2 (N.ltb_lt _ _) Hc). simpl.
  rewrite utf16_encode_small by lia. done.
Qed.

Ltac bool_facts :=
  repeat match goal with
         | H : (_ && _) = true |- _ => apply andb_true_iff in H as [? ?]
         | H : (_ <=? _)%N = true |- _ => apply N.leb_le in H
         | H : (_ <? _)%N = false |- _ => apply N.ltb_ge in H
         | H : (_ <? _)%N = true |- _ => apply N.ltb_lt in H
         | H : (_ =? _)%N = true |- _ => apply N.eqb_eq in H
         | H : (_ =? _)%N = false |- _ => apply N.eqb_neq in H
         end.

Lemma utf16_encode_head (cp : N) (us : list N) :
  (128 ≤ cp)%N → ∃ u us', utf16_encode cp ++ us = u :: us' ∧ (128 ≤ u)%N.
Proof.
  intros Hcp. unfold utf16_encode. destruct (cp <? 65536)%N; simpl.
  - by eexists _, _.
  - eexists _, _. split; [reflexivity|].
    etrans; [|apply N.le_add_r]. lia.
Qed.

(** and no other character begins with a code unit below 128. *)
Lemma code_units_head (c : ascii) (rest : string) :
  (128 ≤ N_of_ascii c)%N →
  ∃ u us, code_units (String c rest) = u :: us ∧ (128 ≤ u)%N.
Proof.
  intros Hc. unfold code_units. simpl bytes.
  generalize (bytes rest). generalize (N_of_ascii c) Hc. clear.
  intros b Hb bs. cbn [utf8_decode].
  assert (∀ l, ∃ u us, flat_map utf16_encode (replacement :: l) = u :: us
                       ∧ (128 ≤ u)%N) as Hrep.
  { intros l. cbn. eexists _, _. split; [reflexivity|]. unfold replacement. lia. }
  assert (∀ cp l, (128 ≤ cp)%N →
            ∃ u us, flat_map utf16_encode (cp :: l) = u :: us ∧ (128 ≤ u)%N)
    as Hcp.
  { intros cp l Hle. cbn [flat_map]. by apply utf16_encode_head. }
  destruct (b <? 128)%N eqn:E0; [bool_facts; lia|].
  destruct ((194 <=? b) && (b <=? 223))%N eqn:E2.
  { destruct bs as [|b1 bs2]; [apply (Hrep [])|].
    unfold continuation. destruct ((128 <=? b1) && (b1 <=? 191))%N eqn:C1;
      [|apply Hrep].
    apply Hcp. bool_facts. lia. }
  destruct ((224 <=? b) && (b <=? 239))%N eqn:E3.
  { destruct bs as [|b1 bs2]; [apply (Hrep [])|].
    unfold continuation.
    destruct ((_ <=? b1) && (b1 <=? _))%N eqn:C1; [|apply Hrep].
    destruct bs2 as [|b2 bs3]; [apply (Hrep [])|].
    destruct ((128 <=? b2) && (b2 <=? 191))%N eqn:C2; [|apply Hrep].
    apply Hcp. destruct (b =? 224)%N eqn:B; bool_facts; lia. }
  destruct ((240 <=? b) && (b <=? 244))%N eqn:E4; [|apply Hrep].
  destruct bs as [|b1 bs2]; [apply (Hrep [])|].
  unfold continuation.
  destruct ((_ <=? b1) && (b1 <=? _))%N eqn:C1; [|apply Hrep].
  destruct bs2 as [|b2 bs3]; [apply (Hrep [])|].
  destruct ((128 <=? b2) && (b2 <=? 191))%N eqn:C2; [|apply Hrep].
  destruct bs3 as [|b3 bs4]; [apply (Hrep [])|].
  destruct ((128 <=? b3) && (b3 <=? 191))%N eqn:C3; [|apply Hrep].
  apply Hcp. destruct (b =? 240)%N eqn:B; bool_facts; lia.
Qed.

Lemma code_units_ascii (str : string) :
  ascii_text str → code_units str = bytes str.
Proof.
  unfold ascii_text. induction str as [|c str IH]; [done|]. simpl.
  intros [Hc Hall]%Forall_cons.
  rewrite code_units_ascii_cons by done. by rewrite IH.
Qed.

Lemma ascii_text_app (s1 s2 : string) :
  ascii_text s1 → ascii_text s2 → ascii_text (s1 +:+ s2).
Proof. unfold ascii_text. rewrite bytes_app. apply Forall_app_2. Qed.

(** The first code unit of a text is a given ASCII character exactly when
    its first byte is. *)
Lemma code_units_cons_inv (c : ascii) (str : string) (us : list N) :
  (N_of_ascii c < 128)%N →
  code_units str = N_of_ascii c :: us →
  ∃ rest, str = String c rest ∧ code_units rest = us.
Proof.
  intros Hc. destruct str as [|c' rest]; [done|].
  destruct (decide (N_of_ascii c' < 128)%N) as [Hc'|Hc'].
  - rewrite code_units_ascii_cons by done. intros [= E1 E2].
    exists rest. split; [|done]. f_equal.
    by rewrite <- (ascii_N_embedding c'), E1, ascii_N_embedding.
  - destruct (code_units_head c' rest) as (u & us' & -> & Hu); [lia|].
    intros [= -> _]. lia.
Qed.

Lemma is_pong_prefix data :
  is_pong data = true ↔ ∃ rest, data = "pong" +:+ rest.
Proof.
  unfold is_pong. rewrite bool_decide_eq_true.
  change (code_units "pong") with [112; 111; 110; 103]%N. split.
  - intros Ht.
    destruct (code_units data) as [|u1 [|u2 [|u3 [|u4 us]]]] eqn:E;
      try discriminate Ht.
    injection Ht as -> -> -> ->.
    apply (code_units_cons_inv "p") in E as (r1 & -> & E); [|done].
    apply (code_units_cons_inv "o") in E as (r2 & -> & E); [|done].
    apply (code_units_cons_inv "n") in E as (r3 & -> & E); [|done].
    apply (code_units_cons_inv "g") in E as (r4 & -> & E); [|done].
    by exists r4.
  - intros [rest ->].
    change ("pong" +:+ rest) with (String "p" (String "o" (String "n" (String "g" rest)))).
    by rewrite !code_units_ascii_cons.
Qed.

(** What follows the fifth code unit of a text that begins with [pong] and
    one more ASCII character. *)
Lemma drop_5_pong (c : ascii) (rest : string) :
  (N_of_ascii c < 128)%N →
  drop 5 (code_units ("pong" +:+ String c rest)) = code_units rest.
Proof.
  intros Hc.
  change ("pong" +:+ String c rest)
    with (String "p" (String "o" (String "n" (String "g" (String c rest))))).
  by rewrite !code_units_ascii_cons.
Qed.

(** *** Decimal numerals *)

Lemma pretty_N_char_byte (d : N) :
  (d < 10)%N → N_of_ascii (pretty_N_char d) = (48 + d)%N.
Proof.
  intros Hd.
  assert (d = 0 ∨ d = 1 ∨ d = 2 ∨ d = 3 ∨ d = 4 ∨ d = 5 ∨ d = 6 ∨ d = 7
          ∨ d = 8 ∨ d = 9)%N as Hcases by lia.
  repeat (destruct Hcases as [->|Hcases]; [reflexivity|]). by subst d.
Qed.

Lemma digit_of_pretty_N_char (d : N) :
  (d < 10)%N → digit_of (N_of_ascii (pretty_N_char d)) = Some (Z.of_N d).
Proof.
  intros Hd. rewrite pretty_N_char_byte by done. unfold digit_of.
  rewrite (proj2 (andb_true_iff _ _)).
  - do 2 f_equal. lia.
  - split; apply N.leb_le; lia.
Qed.

Lemma parse_digits_pretty_N_go (x : N) :
  ∃ m, ∀ acc str,
    parse_digits acc (bytes (pretty_N_go x str))
    = parse_digits (acc * m + Z.of_N x) (bytes str).
Proof.
  induction (N.lt_wf_0 x) as [x _ IH].
  destruct (decide (x = 0)%N) as [->|Hx].
  - exists 1%Z. intros acc str. rewrite pretty_N_go_0. f_equal. lia.
  - destruct (IH (x `div` 10)%N) as [m Hm];
      [apply N.div_lt; [by apply N.neq_0_lt_0|done]|].
    exists (m * 10)%Z. intros acc str.
    rewrite pretty_N_go_step by lia. rewrite Hm. simpl.
    rewrite digit_of_pretty_N_char by (apply N.mod_lt; lia).
    f_equal. rewrite N2Z.inj_div, N2Z.inj_mod.
    change (Z.of_N 10) with 10%Z.
    pose proof (Z.div_mod (Z.of_N x) 10 ltac:(lia)) as E.
    set (q := (Z.of_N x `div` 10)%Z) in *.
    set (r := (Z.of_N x `mod` 10)%Z) in *. nia.
Qed.

Lemma pretty_N_go_digit (x : N) (str : string) :
  (0 < x)%N → starts_with_digit (bytes (pretty_N_go x str)).
Proof.
  revert str. induction (N.lt_wf_0 x) as [x _ IH]. intros str Hx.
  rewrite pretty_N_go_step by done.
  destruct (decide (x `div` 10 = 0)%N) as [->|Hdiv].
  - rewrite pretty_N_go_0. simpl.
    rewrite digit_of_pretty_N_char by (apply N.mod_lt; lia). done.
  - apply IH; [by apply N.div_lt|by apply N.neq_0_lt_0].
Qed.

Lemma pretty_N_go_ascii (x : N) (str : string) :
  ascii_text str → ascii_text (pretty_N_go x str).
Proof.
  revert str. induction (N.lt_wf_0 x) as [x _ IH]. intros str Hstr.
  destruct (decide (x = 0)%N) as [->|Hx]; [by rewrite pretty_N_go_0|].
  rewrite pretty_N_go_step by lia.
  apply IH; [apply N.div_lt; [by apply N.neq_0_lt_0|done]|].
  apply Forall_cons. split; [|done].
  rewrite pretty_N_char_byte by (apply N.mod_lt; lia).
  pose proof (N.mod_lt x 10 ltac:(lia)). lia.
Qed.

Lemma pretty_Z_ascii (t : Z) : ascii_text (pretty t).
Proof.
  destruct t as [|p|p].
  - by repeat constructor.
  - apply (pretty_N_go_ascii (N.pos p) ""). constructor.
  - apply Forall_cons. split; [done|].
    apply (pretty_N_go_ascii (N.pos p) ""). constructor.
Qed.

Lemma parse_unsigned_digits us :
  starts_with_digit us → parse_unsigned us = Some (parse_digits 0 us).
Proof. destruct us as [|u r]; [done|]. simpl. by intros [d ->]. Qed.

Lemma digit_cases (u : N) :
  is_Some (digit_of u) →
  (u = 48 ∨ u = 49 ∨ u = 50 ∨ u = 51 ∨ u = 52 ∨ u = 53 ∨ u = 54
   ∨ u = 55 ∨ u = 56 ∨ u = 57)%N.
Proof.
  unfold digit_of. intros [d Hd].
  destruct ((48 <=? u) && (u <=? 57))%N eqn:E; [|done]. bool_facts. lia.
Qed.

Lemma parseInt_digits us :
  starts_with_digit us → parseInt us = to_number (parse_digits 0 us).
Proof.
  intros Hd. unfold parseInt.
  destruct us as [|u r]; [done|]. simpl in Hd.
  assert (match skip_white_space (u :: r) with
          | 45%N :: rest => ((-1)%Z, rest)
          | 43%N :: rest => (1%Z, rest)
          | body => (1%Z, body)
          end = (1%Z, u :: r)) as ->.
  { pose proof (digit_cases u Hd) as Hcases.
    repeat (destruct Hcases as [->|Hcases]; [reflexivity|]). by subst u. }
  rewrite parse_unsigned_digits by done.
  f_equal. lia.
Qed.

Lemma parse_digits_pretty_N (x : N) :
  parse_digits 0 (bytes (pretty_N_go x "")) = Z.of_N x.
Proof.
  destruct (parse_digits_pretty_N_go x) as [m Hm]. rewrite Hm. simpl. lia.
Qed.

(** [parseInt] reads the decimal form of an integer as the Number for
    it. *)
Lemma parseInt_pretty (t : Z) : parseInt (code_units (pretty t)) = to_number t.
Proof.
  rewrite code_units_ascii by apply pretty_Z_ascii.
  destruct t as [|p|p]; [reflexivity| |].
  - change (pretty (Z.pos p)) with (pretty_N_go (N.pos p) "").
    rewrite parseInt_digits by (by apply pretty_N_go_digit).
    by rewrite parse_digits_pretty_N.
  - change (pretty (Z.neg p)) with (String "-" (pretty_N_go (N.pos p) "")).
    unfold parseInt. cbn [bytes]. change (N_of_ascii "-") with 45%N.
    cbn [skip_white_space]. change (is_white_space 45) with false. cbv iota.
    rewrite (parse_unsigned_digits (bytes (pretty_N_go (N.pos p) "")))
      by (by apply pretty_N_go_digit).
    rewrite parse_digits_pretty_N. f_equal.
Qed.

Lemma to_number_safe (z : Z) : (Z.abs z < 2 ^ 53)%Z → to_number z = Int z.
Proof.
  intros Hz. unfold to_number. by rewrite (proj2 (Z.ltb_lt _ _) Hz).
Qed.

(** The round trip time of a reply that carries a decimal time stamp. *)
Lemma roundtrip_pong_pretty (now t : Z) :
  roundtrip now ("pong " +:+ pretty t)
  = number_sub (to_number now) (to_number t).
Proof.
  unfold roundtrip.
  change ("pong " +:+ pretty t) with ("pong" +:+ String " " (pretty t)).
  rewrite drop_5_pong by done. by rewrite parseInt_pretty.
Qed.
(** ** The gathering wait *)

Lemma pcs_shrunk_refl l : pcs_shrunk l l.
Proof. intros q o Ho. eauto. Qed.

Lemma pcs_shrunk_trans l1 l2 l3 :
  pcs_shrunk l1 l2 → pcs_shrunk l2 l3 → pcs_shrunk l1 l3.
Proof.
  intros H12 H23 q o Ho.
  destruct (H12 q o Ho) as (o2 & Ho2 & Hg2 & Hl2).
  destruct (H23 q o2 Ho2) as (o3 & Ho3 & Hg3 & Hl3).
  exists o3. split; [done|]. split; [congruence|]. auto.
Qed.

Lemma pcs_shrunk_alter f p l :
  (∀ o, iceGatheringState (f o) = iceGatheringState o
        ∧ ∀ x, x ∈ listeners (f o) → x ∈ listeners o) →
  pcs_shrunk l (alter f p l).
Proof.
  intros Hf q o Ho. rewrite list_lookup_alter. case_decide.
  - subst q. rewrite Ho. exists (f o). split; [done|]. apply Hf.
  - eauto.
Qed.

Lemma stop_shrinks s : pcs_shrunk (pcs s) (pcs (stop s)).
Proof.
  rewrite stop_pcs. destruct (pc s); [|apply pcs_shrunk_refl].
  apply pcs_shrunk_alter. by intros o.
Qed.

Lemma removeEventListener_shrinks p l s :
  pcs_shrunk (pcs s) (pcs (removeEventListener p l s)).
Proof.
  unfold removeEventListener. cbn. apply pcs_shrunk_alter.
  intros o. split; [done|]. cbn. by intros x [_ Hx]%list_elem_of_filter.
Qed.

(** What the callback after the wait does. *)
Lemma on_gathering_complete_effect k s :
  is_Some (negs s !! k) →
  proceeded k (on_gathering_complete k s)
  ∧ (∃ cs, calls (on_gathering_complete k s) = calls s ++ cs)
  ∧ pc (on_gathering_complete k s) = pc s
  ∧ pcs_shrunk (pcs s) (pcs (on_gathering_complete k s))
  ∧ ∀ k', k' ≠ k → negs (on_gathering_complete k s) !! k' = negs s !! k'.
Proof.
  intros Hk%lookup_lt_is_Some.
  assert (∀ e s0, negs s0 = negs s → calls s0 = calls s → pc s0 = pc s →
            pcs s0 = pcs s →
            proceeded k (negotiation_failed k e s0)
            ∧ (∃ cs, calls (negotiation_failed k e s0) = calls s ++ cs)
            ∧ pc (negotiation_failed k e s0) = pc s
            ∧ pcs_shrunk (pcs s) (pcs (negotiation_failed k e s0))
            ∧ ∀ k', k' ≠ k →
                negs (negotiation_failed k e s0) !! k' = negs s !! k') as Hfail.
  { intros e s0 E1 E2 E3 E4. unfold negotiation_failed.
    set (s2 := alert _ (log _ (set_stage k (Caught e) s0))).
    assert (negs s2 = <[k:=Caught e]> (negs s)) as F1 by (by rewrite <- E1).
    assert (calls s2 = calls s ++ [Alert ("Negotiation failed: " +:+ e)]) as F2
      by (by rewrite <- E2).
    assert (pc s2 = pc s) as F3 by (by rewrite <- E3).
    assert (pcs s2 = pcs s) as F4 by (by rewrite <- E4).
    clearbody s2. split_and!.
    - right. exists e. rewrite stop_negs, F1. by apply list_lookup_insert_eq.
    - destruct (stop_calls s2) as [cs ->]. rewrite F2, <- app_assoc. eauto.
    - by rewrite stop_pc.
    - rewrite <- F4. apply stop_shrinks.
    - intros k' Hk'. rewrite stop_negs, F1. by apply list_lookup_insert_ne. }
  unfold on_gathering_complete. cbv zeta.
  change (cur_pc (log ?m s)) with (cur_pc s).
  destruct (cur_pc s) as [[p o]|]; [|by apply Hfail].
  destruct (localDescription o); [|by apply Hfail].
  split; [|split; [|split; [|split]]].
  - left. by apply list_lookup_insert_eq.
  - cbn. eauto.
  - done.
  - apply pcs_shrunk_refl.
  - intros k' Hk'. by apply list_lookup_insert_ne.
Qed.

Lemma elem_of_app_l_calls (c : call) (cs cs' : list call) :
  c ∈ cs → c ∈ cs ++ cs'.
Proof. intros. apply elem_of_app. by left. Qed.

(** What running [checkState] of negotiation [k'] leaves alone. *)
Lemma run_checkState_frame k' s :
  pc (run_checkState k' s) = pc s
  ∧ pcs_shrunk (pcs s) (pcs (run_checkState k' s))
  ∧ (∃ cs, calls (run_checkState k' s) = calls s ++ cs)
  ∧ ∀ k, negs s !! k ≠ Some AwaitGathering ∨ k ≠ k' →
      negs (run_checkState k' s) !! k = negs s !! k.
Proof.
  assert (∃ cs : list call, calls s = calls s ++ cs) as Hnil
    by (exists []; by rewrite app_nil_r).
  unfold run_checkState.
  destruct (cur_pc s) as [[p o]|];
    [|split_and!; [done|apply pcs_shrunk_refl|done|done]].
  case_decide; [|split_and!; [done|apply pcs_shrunk_refl|done|done]].
  unfold resolve_gathering.
  change (negs (removeEventListener p (checkState k') s)) with (negs s).
  destruct (negs s !! k') as [st|] eqn:Hst.
  2: { split_and!; [done|apply removeEventListener_shrinks|cbn; eauto|done]. }
  destruct st;
    try (split_and!; [done|apply removeEventListener_shrinks|cbn; eauto|done]).
  destruct (on_gathering_complete_effect k'
              (record (GatheringResolved k' p)
                 (removeEventListener p (checkState k') s)))
    as (_ & [cs Hcs] & Hpc & Hpcs & Hnegs).
  { cbn. by rewrite Hst. }
  split; [exact Hpc|]. split; [|split].
  - eapply pcs_shrunk_trans; [|exact Hpcs].
    apply removeEventListener_shrinks.
  - rewrite Hcs. cbn. rewrite <- !app_assoc. eauto.
  - intros k [Hk|Hk]; [|by apply Hnegs].
    destruct (decide (k = k')) as [->|]; [|by apply Hnegs]. congruence.
Qed.

(** What any listener leaves alone. *)
Lemma run_listener_frame ev s l :
  pc (run_listener ev s l) = pc s
  ∧ pcs_shrunk (pcs s) (pcs (run_listener ev s l))
  ∧ (∃ cs, calls (run_listener ev s l) = calls s ++ cs)
  ∧ ∀ k, negs s !! k ≠ Some AwaitGathering ∨ l ≠ checkState k →
      negs (run_listener ev s l) !! k = negs s !! k.
Proof.
  assert (∃ cs : list call, calls s = calls s ++ cs) as Hnil
    by (exists []; by rewrite app_nil_r).
  destruct l as [| |k']; simpl.
  - unfold run_onConnectionStateChange.
    destruct (cur_pc s) as [[p o]|];
      [|split_and!; [done|apply pcs_shrunk_refl|done|done]].
    destruct (connectionState o);
      try (split_and!; [done|apply pcs_shrunk_refl|done|done]).
    all: rewrite stop_pc, stop_negs; split; [done|]; split;
      [apply (stop_shrinks (log _ (log _ s)))|]; split; [|done];
      match goal with
      | |- ∃ cs, calls (stop ?x) = _ =>
          destruct (stop_calls x) as [cs ->]; by exists cs
      end.
  - destruct ev as [|kind stream];
      [split_and!; [done|apply pcs_shrunk_refl|done|done]|].
    unfold run_onTrack.
    case_decide; split_and!; done || apply pcs_shrunk_refl.
  - destruct (run_checkState_frame k' s) as (H1 & H2 & H3 & H4).
    split_and!; try done. intros k [Hk|Hk]; apply H4; [by left|right].
    congruence.
Qed.

Lemma gathering_complete_on_listener ev s l q :
  gathering_complete_on q s → gathering_complete_on q (run_listener ev s l).
Proof.
  intros [Hpc (o & Ho & Hg)].
  destruct (run_listener_frame ev s l) as (H1 & H2 & _).
  split; [by rewrite H1|].
  destruct (H2 q o Ho) as (o' & Ho' & Hg' & _). exists o'.
  split; [done|congruence].
Qed.

Lemma wait_over_listener ev s l k q :
  gathering_complete_on q s → wait_over k q s →
  wait_over k q (run_listener ev s l).
Proof.
  intros [Hpc (o & Ho & Hg)] (Hp & Hc & Hl).
  destruct (run_listener_frame ev s l) as (H1 & H2 & [cs H3] & H4).
  assert (negs (run_listener ev s l) !! k = negs s !! k) as Hk.
  { apply H4. left. destruct Hp as [->|[e ->]]; done. }
  split; [|split].
  - unfold proceeded. by rewrite Hk.
  - rewrite H3. by apply elem_of_app_l_calls.
  - intros o1 Ho1. destruct (H2 q o Ho) as (o' & Ho' & _ & Hsub).
    assert (o1 = o') as -> by congruence.
    intros Hin%Hsub. by apply (Hl o).
Qed.

(** [checkState] of a waiting negotiation, run when the current session has
    finished gathering, ends the wait. *)
Lemma run_checkState_resolves k q s :
  gathering_complete_on q s → negs s !! k = Some AwaitGathering →
  wait_over k q (run_checkState k s).
Proof.
  intros [Hpc (o & Ho & Hg)] Hst. unfold run_checkState, cur_pc.
  rewrite Hpc. cbn. rewrite Ho. cbn. rewrite decide_True by done.
  unfold resolve_gathering.
  change (negs (removeEventListener q (checkState k) s)) with (negs s).
  rewrite Hst.
  destruct (on_gathering_complete_effect k
              (record (GatheringResolved k q)
                 (removeEventListener q (checkState k) s)))
    as (Hp & [cs Hcs] & _ & Hpcs & _).
  { cbn. by rewrite Hst. }
  split; [exact Hp|]. split.
  - rewrite Hcs. apply elem_of_app_l_calls. cbn.
    apply elem_of_app. right. apply list_elem_of_here.
  - intros o1 Ho1.
    destruct (Hpcs q (with_listeners (filter (λ x, x ≠ checkState k) (listeners o)) o))
      as (o' & Ho' & _ & Hsub).
    { cbn. by rewrite list_lookup_alter_eq, Ho. }
    assert (o1 = o') as -> by congruence.
    intros Hin%Hsub. cbn in Hin. by apply list_elem_of_filter in Hin as [? _].
Qed.

(** A dispatch that reaches [checkState] of a waiting negotiation ends its
    wait, whatever other callbacks run before and after. *)
Lemma foldl_run_listener_resolves ev ls k q s :
  gathering_complete_on q s →
  (negs s !! k = Some AwaitGathering ∧ checkState k ∈ ls) ∨ wait_over k q s →
  wait_over k q (foldl (run_listener ev) s ls).
Proof.
  revert s. induction ls as [|l ls IH]; intros s Hq Hcase; simpl.
  - destruct Hcase as [[_ Hin]|Hw]; [|done]. by apply not_elem_of_nil in Hin.
  - apply IH; [by apply gathering_complete_on_listener|].
    destruct Hcase as [[Hst Hin]|Hw]; [|right; by apply wait_over_listener].
    destruct (decide (l = checkState k)) as [->|Hne].
    + right. by apply run_checkState_resolves.
    + left. split.
      * destruct (run_listener_frame ev s l) as (_ & _ & _ & H4).
        rewrite H4; [done|by right].
      * apply elem_of_cons in Hin as [Heq|Hin]; [congruence|done].
Qed.
(** * The page as a whole *)

(** ** Shape of the peer connections, buttons and timer handles *)

Lemma pc_wf_started : pc_wf started_connection.
Proof. split; try done. exists []. split; [done|]. apply Forall_nil_2. Qed.

Lemma pc_wf_same o o' :
  ontrack o' = ontrack o →
  onicegatheringstatechange o' = onicegatheringstatechange o →
  onconnectionstatechange o' = onconnectionstatechange o →
  listeners o' = listeners o →
  iceGatheringState o' = iceGatheringState o →
  localDescription o' = localDescription o →
  pc_wf o → pc_wf o'.
Proof.
  intros E1 E2 E3 E4 E5 E6 [H1 H2 H3 H4 H5].
  split; [congruence..| |]; by rewrite ?E4, ?E5, ?E6.
Qed.

Lemma pc_wf_clear o : pc_wf o → pc_wf (clear_handler_attributes o).
Proof. intros [H1 H2 H3 H4 H5]. by split. Qed.

Lemma pc_wf_local offer o :
  pc_wf o → pc_wf (with_localDescription (Some offer) o).
Proof. intros [H1 H2 H3 H4 H5]. by split. Qed.

Lemma pc_wf_gathering g o :
  is_Some (localDescription o) → pc_wf o → pc_wf (with_iceGatheringState g o).
Proof. intros Hl [H1 H2 H3 H4 H5]. by split. Qed.

Lemma pc_wf_add k o :
  pc_wf o →
  pc_wf (if decide (checkState k ∈ listeners o) then o
         else with_listeners (listeners o ++ [checkState k]) o).
Proof.
  intros Ho. case_decide; [done|].
  destruct Ho as [H1 H2 H3 (ws & Hws & Hall) H5].
  split; try done. exists (ws ++ [checkState k]). cbn. rewrite Hws.
  split; [done|]. apply Forall_app. split; [done|].
  apply Forall_singleton. by exists k.
Qed.

Lemma pc_wf_remove k o :
  pc_wf o →
  pc_wf (with_listeners (filter (λ x, x ≠ checkState k) (listeners o)) o).
Proof.
  intros [H1 H2 H3 (ws & Hws & Hall) H5]. split; try done.
  exists (filter (λ x, x ≠ checkState k) ws). cbn. rewrite Hws.
  rewrite !filter_cons, !decide_True by done.
  split; [done|]. apply Forall_forall. intros x [_ Hx]%list_elem_of_filter.
  by apply (proj1 (Forall_forall _ _) Hall).
Qed.

Lemma Forall_alter_wf (f : RTCPeerConnection → RTCPeerConnection) p l :
  (∀ o, pc_wf o → pc_wf (f o)) → Forall pc_wf l → Forall pc_wf (alter f p l).
Proof.
  intros Hf Hl. apply Forall_lookup. intros q o.
  rewrite list_lookup_alter. case_decide.
  - subst q. destruct (l !! p) as [o0|] eqn:Ho0; [|done]. intros [= <-].
    apply Hf. by eapply (Forall_lookup_1 _ l).
  - intros Ho. by eapply (Forall_lookup_1 _ l).
Qed.

Lemma tame_refl s : tame s s.
Proof. by split. Qed.

Lemma tame_trans s1 s2 s3 : tame s1 s2 → tame s2 s3 → tame s1 s3.
Proof. intros [E1 H1] [E2 H2]. split; [congruence|auto]. Qed.

Lemma page_inv_tame s s' : page_inv s → tame s s' → page_inv s'.
Proof.
  intros [H1 H2 H3 H4 H5 H6 H7] [Hv Hwf]. unfold page_view in Hv. revert Hv.
  intros [= E1 E2 E3 E4 E5 E6].
  split; rewrite ?E1, ?E2, ?E3, ?E4, ?E5, ?E6; auto.
Qed.

Lemma page_inv_stop s : page_inv s → page_inv (stop s).
Proof.
  intros [H1 H2 H3 H4 H5 H6 H7].
  destruct (stop_buttons s) as (B1 & B2 & _).
  split.
  - by rewrite B1, B2.
  - rewrite stop_next_timer. destruct (pc s); lia.
  - rewrite stop_intervals, stop_next_timer. intros t Ht.
    assert (t ∈ intervals s) as Hin.
    { destruct (dcInterval s); [|done].
      by apply list_elem_of_filter in Ht as [_ ?]. }
    apply H3 in Hin. destruct (pc s); lia.
  - rewrite stop_timeouts, stop_next_timer. intros t.
    destruct (pc s); rewrite ?app_nil_r; [|by apply H4].
    rewrite elem_of_app, list_elem_of_singleton.
    intros [Ht%H4| ->]; lia.
  - rewrite stop_intervals, stop_timeouts. intros t Ht.
    assert (t ∈ intervals s) as Hin.
    { destruct (dcInterval s); [|done].
      by apply list_elem_of_filter in Ht as [_ ?]. }
    destruct (pc s); rewrite ?app_nil_r; [|by apply H5].
    rewrite elem_of_app, list_elem_of_singleton.
    intros [Hto| ->]; [by apply (H5 t)|]. apply H3 in Hin. lia.
  - rewrite stop_pcs. destruct (pc s); [|done].
    apply Forall_alter_wf; [apply pc_wf_clear|done].
  - rewrite stop_dcs. destruct (dc s); [|done].
    apply Forall_lookup. intros q o. rewrite list_lookup_alter.
    case_decide.
    + subst q. destruct (dcs s !! n) as [o0|] eqn:Ho0; [|done].
      intros [= <-]. unfold closing.
      pose proof (Forall_lookup_1 _ _ _ _ H7 Ho0) as Hl.
      by destruct (readyState o0).
    + intros Ho. exact (Forall_lookup_1 _ _ _ _ H7 Ho).
Qed.

Lemma page_inv_tame_or_stop s s' : page_inv s → tame_or_stop s s' → page_inv s'.
Proof.
  intros Hs [Ht|(s0 & Ht & ->)]; [by eapply page_inv_tame|].
  apply page_inv_stop. by eapply page_inv_tame.
Qed.

Ltac tame_same := split; [reflexivity|cbn; intros ?; assumption].

Ltac tos_solve :=
  first [ left; tame_same
        | right; eexists; split; [|reflexivity]; tame_same ].

Lemma tame_then s0 s s' : tame s0 s → tame_or_stop s s' → tame_or_stop s0 s'.
Proof.
  intros H0 [H|(s1 & H1 & ->)].
  - left. by eapply tame_trans.
  - right. exists s1. split; [by eapply tame_trans|done].
Qed.

Lemma tame_upd_pc p f s :
  (∀ o, pc_wf o → pc_wf (f o)) → tame s (upd_pc p f s).
Proof. intros Hf. split; [done|]. cbn. by apply Forall_alter_wf. Qed.

Lemma tame_gathering p g s :
  has_local p s = true → tame s (upd_pc p (with_iceGatheringState g) s).
Proof.
  unfold has_local. intros Hl. split; [done|]. cbn. intros Hall.
  apply Forall_lookup. intros q o. rewrite list_lookup_alter. case_decide.
  - subst q. destruct (pcs s !! p) as [o0|] eqn:Ho0; [|done]. intros [= <-].
    apply bool_decide_eq_true in Hl.
    apply pc_wf_gathering; [done|]. by eapply (Forall_lookup_1 _ (pcs s)).
  - intros Ho. by eapply (Forall_lookup_1 _ (pcs s)).
Qed.

Lemma tame_addEventListener p k s : tame s (addEventListener p (checkState k) s).
Proof.
  split; [done|]. cbn. apply Forall_alter_wf. intros o. apply pc_wf_add.
Qed.

Lemma tame_removeEventListener p k s :
  tame s (removeEventListener p (checkState k) s).
Proof.
  split; [done|]. cbn. apply Forall_alter_wf. intros o. apply pc_wf_remove.
Qed.

Lemma negotiation_failed_tos k e s : tame_or_stop s (negotiation_failed k e s).
Proof. unfold negotiation_failed. tos_solve. Qed.

Lemma on_offer_tos k offer s : tame_or_stop s (on_offer k offer s).
Proof. unfold on_offer, negotiation_failed. cbn. destruct (pc s); tos_solve. Qed.

Lemma on_gathering_complete_tos k s : tame_or_stop s (on_gathering_complete k s).
Proof.
  unfold on_gathering_complete, negotiation_failed. cbv zeta.
  change (cur_pc (log ?m s)) with (cur_pc s).
  destruct (cur_pc s) as [[p o]|]; [|tos_solve].
  destruct (localDescription o); tos_solve.
Qed.

Lemma on_local_applied_tos k s : tame_or_stop s (on_local_applied k s).
Proof.
  unfold on_local_applied. cbv zeta.
  change (cur_pc (log ?m s)) with (cur_pc s).
  destruct (cur_pc s) as [[p o]|];
    [|unfold negotiation_failed; tos_solve].
  case_decide.
  - eapply tame_then; [|apply on_gathering_complete_tos]. tame_same.
  - left. eapply tame_trans; [|apply (tame_trans _ (addEventListener p (checkState k) s))].
    + apply tame_refl.
    + apply tame_addEventListener.
    + tame_same.
Qed.

Lemma on_response_tos k r s : tame_or_stop s (on_response k r s).
Proof. unfold on_response. tos_solve. Qed.

Lemma on_answer_tos k answer s : tame_or_stop s (on_answer k answer s).
Proof. unfold on_answer, negotiation_failed. cbn. destruct (pc s); tos_solve. Qed.

Lemma on_remote_applied_tos k s : tame_or_stop s (on_remote_applied k s).
Proof. unfold on_remote_applied. tos_solve. Qed.

Lemma run_checkState_tos k s : tame_or_stop s (run_checkState k s).
Proof.
  unfold run_checkState. destruct (cur_pc s) as [[p o]|]; [|tos_solve].
  case_decide; [|tos_solve].
  eapply tame_then; [apply (tame_removeEventListener p k)|].
  unfold resolve_gathering.
  destruct (negs (removeEventListener p (checkState k) s) !! k) as [[]|];
    try (left; apply tame_refl).
  eapply tame_then; [|apply on_gathering_complete_tos]. tame_same.
Qed.

Lemma run_listener_tos ev s l : tame_or_stop s (run_listener ev s l).
Proof.
  destruct l as [| |k]; simpl.
  - unfold run_onConnectionStateChange.
    destruct (cur_pc s) as [[p o]|]; [|tos_solve].
    destruct (connectionState o); tos_solve.
  - destruct ev; [tos_solve|]. unfold run_onTrack. case_decide; tos_solve.
  - apply run_checkState_tos.
Qed.

Lemma page_inv_dispatch ty ev p s : page_inv s → page_inv (dispatch ty ev p s).
Proof.
  unfold dispatch. destruct (pcs s !! p) as [o|]; [|done].
  generalize (handlers ty o). intros ls. revert s.
  induction ls as [|l ls IH]; intros s Hs; simpl; [done|].
  apply IH. eapply page_inv_tame_or_stop; [done|apply run_listener_tos].
Qed.

Lemma page_inv_start s : page_inv s → page_inv (start s).
Proof.
  intros [H1 H2 H3 H4 H5 H6 H7].
  split; rewrite ?start_startDisabled, ?start_next_timer, ?start_intervals,
    ?start_timeouts, ?start_pcs, ?start_dcs; try done.
  - apply Forall_app. split; [done|]. apply Forall_singleton, pc_wf_started.
  - apply Forall_app. split; [done|]. by apply Forall_singleton.
Qed.

Lemma page_inv_setInterval s :
  page_inv s → page_inv (set_dcInterval (Some (next_timer s)) (setInterval s).2).
Proof.
  intros [H1 H2 H3 H4 H5 H6 H7]. split; cbn; try done.
  - lia.
  - intros t [Ht%H3| ->%list_elem_of_singleton]%elem_of_app; lia.
  - intros t Ht%H4. lia.
  - intros t [Ht| ->%list_elem_of_singleton]%elem_of_app; [by apply H5|].
    intros Hin%H4. lia.
Qed.

Lemma page_inv_clear s :
  page_inv s →
  page_inv match dcInterval s with
           | Some t => set_dcInterval None (clearInterval t s)
           | None => s
           end.
Proof.
  intros Hs. destruct (dcInterval s) as [t|]; [|done].
  destruct Hs as [H1 H2 H3 H4 H5 H6 H7]. split; cbn; try done.
  - intros t' [_ Ht']%list_elem_of_filter. by apply H3.
  - intros t' [_ Ht']%list_elem_of_filter. by apply H5.
Qed.

Lemma page_inv_dcs_readyState d r s :
  page_inv s → page_inv (upd_dc d (with_readyState r) s).
Proof.
  intros [H1 H2 H3 H4 H5 H6 H7]. split; cbn; try done.
  apply Forall_lookup. intros q o. rewrite list_lookup_alter. case_decide.
  - subst q. destruct (dcs s !! d) as [o0|] eqn:Ho0; [|done]. intros [= <-].
    exact (Forall_lookup_1 _ _ _ _ H7 Ho0).
  - intros Ho. exact (Forall_lookup_1 _ _ _ _ H7 Ho).
Qed.

Lemma page_inv_open s : page_inv s → page_inv (dc_onopen s).
Proof.
  intros Hs. unfold dc_onopen. destruct (cur_dc s) as [[d o]|].
  - apply (page_inv_setInterval (log ("DataChannel '" +:+ label o +:+ "' open") s)).
    eapply page_inv_tame; [exact Hs|tame_same].
  - eapply page_inv_tame; [exact Hs|tame_same].
Qed.

Lemma page_inv_close s : page_inv s → page_inv (dc_onclose s).
Proof.
  intros Hs. unfold dc_onclose. destruct (cur_dc s) as [[d o]|].
  - eapply page_inv_tame;
      [apply (page_inv_clear (log ("DataChannel '" +:+ label o +:+ "' closed") s))|].
    + eapply page_inv_tame; [exact Hs|tame_same].
    + tame_same.
  - eapply page_inv_tame; [exact Hs|tame_same].
Qed.

Lemma page_inv_ping now r s : page_inv s → page_inv (ping now r s).
Proof.
  intros Hs. unfold ping, dc_send, channel_send.
  assert (∀ m c, page_inv
            match dcInterval s with
            | Some t => set_dcInterval None (clearInterval t (log m (record c s)))
            | None => log m (record c s)
            end) as Hclear.
  { intros m c. apply (page_inv_clear (log m (record c s))).
    eapply page_inv_tame; [exact Hs|tame_same]. }
  destruct (cur_dc s) as [[d o]|]; cbn.
  - case_decide; [destruct r as [e|]|]; cbn.
    + apply Hclear.
    + eapply page_inv_tame; [exact Hs|tame_same].
    + apply Hclear.
  - apply (page_inv_clear (log ("Ping send error: " +:+ TypeError_dc_null) s)).
    eapply page_inv_tame; [exact Hs|tame_same].
Qed.

Lemma page_inv_timeout t s :
  page_inv s →
  page_inv (deferred_close (set_timeouts (filter (λ x, x ≠ t) (timeouts s)) s)).
Proof.
  intros [H1 H2 H3 H4 H5 H6 H7]. unfold deferred_close. cbn.
  assert (∀ t', t' ∈ filter (λ x, x ≠ t) (timeouts s) → 1 ≤ t' < next_timer s)
    as H4'.
  { intros t' [_ Ht']%list_elem_of_filter. by apply H4. }
  assert (∀ t', t' ∈ intervals s → t' ∉ filter (λ x, x ≠ t) (timeouts s))
    as H5'.
  { intros t' Ht' [_ Hin]%list_elem_of_filter. by apply (H5 t'). }
  destruct (pc s) as [p|]; split; cbn; try assumption.
  - apply Forall_alter_wf; [|done]. intros o. by apply pc_wf_same.
  - apply Forall_lookup. intros d o'. rewrite list_lookup_imap.
    destruct (dcs s !! d) as [o|] eqn:Ho; [|done]. intros [= <-].
    pose proof (Forall_lookup_1 _ _ _ _ H7 Ho) as Hl.
    unfold closed_with. by case_decide.
Qed.

Lemma init_page_inv : page_inv init.
Proof.
  split; cbn; try done.
  - intros t Ht. by apply not_elem_of_nil in Ht.
  - intros t Ht. by apply not_elem_of_nil in Ht.
  - intros t Ht. by apply not_elem_of_nil in Ht.
Qed.

Lemma step_page_inv e s s' : page_inv s → step e s = Some s' → page_inv s'.
Proof.
  intros Hs. destruct e; simpl; intros Hstep.
  - destruct (startDisabled s); [done|]. injection Hstep as <-.
    by apply page_inv_start.
  - destruct (requestFrameDisabled s); [done|].
    assert (tame s (requestFrame r s).1) as Hr.
    { unfold requestFrame, channel_send.
      destruct (cur_dc s) as [[d o]|]; [case_decide|]; tame_same. }
    destruct (requestFrame r s) as [s1 [e|]]; cbn [fst] in Hr;
      injection Hstep as <-; [|by eapply page_inv_tame].
    eapply page_inv_tame; [by eapply page_inv_tame|tame_same].
  - destruct (stopDisabled s); [done|]. injection Hstep as <-.
    by apply page_inv_stop.
  - destruct (negs s !! k) as [[]|]; try done. settle_live s. injection Hstep as <-.
    eapply page_inv_tame_or_stop; [exact Hs|].
    destruct r; [apply negotiation_failed_tos|apply on_offer_tos].
  - destruct (negs s !! k) as [[]|]; try done. settle_live s. injection Hstep as <-.
    destruct r; [eapply page_inv_tame_or_stop;
                   [exact Hs|apply negotiation_failed_tos]|].
    eapply page_inv_tame_or_stop; [|apply on_local_applied_tos].
    eapply page_inv_tame; [exact Hs|]. apply tame_upd_pc.
    intros o. apply pc_wf_local.
  - destruct (negs s !! k) as [[]|]; try done. settle_live s. injection Hstep as <-.
    eapply page_inv_tame_or_stop; [exact Hs|].
    destruct r; [apply negotiation_failed_tos|apply on_response_tos].
  - destruct (negs s !! k) as [[]|]; try done. settle_live s. injection Hstep as <-.
    eapply page_inv_tame_or_stop; [exact Hs|].
    destruct (resp_json r);
      [apply negotiation_failed_tos|apply on_answer_tos].
  - destruct (negs s !! k) as [[]|]; try done. settle_live s.
    destruct r; [injection Hstep as <-;
                 eapply page_inv_tame_or_stop;
                   [exact Hs|apply negotiation_failed_tos]|].
    destruct answer; [|done]. injection Hstep as <-.
    eapply page_inv_tame_or_stop; [|apply on_remote_applied_tos].
    eapply page_inv_tame; [exact Hs|]. apply tame_upd_pc.
    intros o. by apply pc_wf_same.
  - destruct (live_pc p s); [|done].
    destruct (has_local p s) eqn:Hl; [|done]. injection Hstep as <-.
    apply page_inv_dispatch. eapply page_inv_tame; [exact Hs|].
    by apply tame_gathering.
  - destruct (live_pc p s); [|done]. with_local s. injection Hstep as <-.
    apply page_inv_dispatch. eapply page_inv_tame; [exact Hs|].
    apply tame_upd_pc. intros o. by apply pc_wf_same.
  - destruct (live_pc p s); [|done]. with_local s. injection Hstep as <-.
    by apply page_inv_dispatch.
  - destruct (dcs s !! d) as [o|]; [|done]. case_decide; [|done].
    injection Hstep as <-. by apply page_inv_open, page_inv_dcs_readyState.
  - destruct (dcs s !! d) as [o|]; [|done]. case_decide; [|done].
    injection Hstep as <-. by apply page_inv_dcs_readyState.
  - destruct (dcs s !! d) as [o|]; [|done]. case_decide; [done|].
    injection Hstep as <-. by apply page_inv_close, page_inv_dcs_readyState.
  - destruct (dcs s !! d) as [o|]; [|done]. case_decide; [done|].
    injection Hstep as <-. eapply page_inv_tame; [exact Hs|].
    unfold dc_onerror. destruct (cur_dc s) as [[]|]; tame_same.
  - destruct (dcs s !! d) as [o|]; [|done]. case_decide; [|done].
    injection Hstep as <-. eapply page_inv_tame; [exact Hs|].
    unfold dc_onmessage. destruct (is_pong data); [apply tame_refl|].
    destruct (cur_dc s) as [[]|]; tame_same.
  - case_decide; [|done]. injection Hstep as <-. by apply page_inv_ping.
  - case_decide; [|done]. injection Hstep as <-. by apply page_inv_timeout.
Qed.

Lemma reachable_page_inv s : reachable s → page_inv s.
Proof.
  intros [es Hes]. revert Hes. generalize init_page_inv. generalize init.
  induction es as [|e es IH]; intros s0 Hs0; simpl.
  - by intros [= <-].
  - destruct (step e s0) as [s1|] eqn:He; [|done]. simpl.
    apply IH. by eapply step_page_inv.
Qed.

(** ** Buttons and timer handles *)

(** X1.  On every reachable page exactly one of the Start and Disconnect
    buttons is enabled (client.js:76-77, 177-178, 224). *)
Theorem buttons_exclusive (s : state) :
  reachable s →
  stopDisabled s = negb (startDisabled s)
  ∧ (is_Some (step ClickStart s) ↔ step ClickStop s = None).
Proof.
  intros Hs%reachable_page_inv. pose proof (inv_buttons s Hs) as Hb.
  split; [done|]. simpl. rewrite Hb.
  destruct (startDisabled s); simpl; split; intros H;
    first [done | by destruct H | by eexists].
Qed.

Lemma buttons_exclusive_witness :
  stopDisabled (start init) = negb (startDisabled (start init))
  ∧ (is_Some (step ClickStart (start init))
     ↔ step ClickStop (start init) = None).
Proof. apply buttons_exclusive. exists [ClickStart]. reflexivity. Defined.

(** X2.  Timer handles on a reachable page are positive and below the next
    handle to be given out, so that [if (dcInterval)] tests presence; the
    keepalive handle is a live interval timer and never the handle of a
    pending deferred close; pending deferred closes are pairwise
    distinct. *)
Theorem timer_handles (s : state) :
  reachable s →
  (∀ t, t ∈ intervals s ∨ t ∈ timeouts s → 1 ≤ t < next_timer s)
  ∧ (∀ t, dcInterval s = Some t →
       1 ≤ t ∧ intervals s = [t] ∧ t ∉ timeouts s)
  ∧ NoDup (timeouts s).
Proof.
  intros Hs. pose proof (reachable_page_inv s Hs) as Hp.
  pose proof (reachable_channel_inv s Hs) as Hc. split_and!.
  - intros t [Ht|Ht]; [by apply (inv_interval_ids s Hp)|
                       by apply (inv_timeout_ids s Hp)].
  - intros t Ht. pose proof (inv_keepalive s Hc) as Hk. rewrite Ht in Hk.
    destruct Hk as [Hint _].
    assert (t ∈ intervals s) as Hin by (rewrite Hint; apply list_elem_of_here).
    split; [by apply (inv_interval_ids s Hp)|]. split; [done|].
    by apply (inv_disjoint s Hp).
  - apply (inv_timeouts s Hc).
Qed.

Lemma timer_handles_witness :
  ∃ s, run [ClickStart; ChannelOpen 0; ClickStop; ClickStart; ChannelOpen 1]
         init = Some s
       ∧ ∀ t, dcInterval s = Some t →
           1 ≤ t ∧ intervals s = [t] ∧ t ∉ timeouts s.
Proof.
  eexists. split; [vm_compute; reflexivity|].
  apply timer_handles.
  exists [ClickStart; ChannelOpen 0; ClickStop; ClickStart; ChannelOpen 1].
  vm_compute. reflexivity.
Defined.

(** ** The handler attributes *)

Lemma clear_handler_attributes_wf o : pc_wf o → clear_handler_attributes o = o.
Proof. intros [H1 H2 H3 _]. destruct o. simpl in *. by subst. Qed.

Lemma checkStates_other_type ty ws :
  Forall is_checkState ws → ty ≠ icegatheringstatechange →
  filter (λ l, listener_type l = ty) ws = [].
Proof.
  intros Hall Hty. induction Hall as [|l ws [k ->] _ IH]; [done|].
  rewrite filter_cons, decide_False by (cbn; congruence). exact IH.
Qed.

(** The callbacks an event reaches on a connection of a reachable page. *)
Lemma reachable_handlers s p o :
  page_inv s → pcs s !! p = Some o →
  ontrack o = None ∧ onicegatheringstatechange o = None
  ∧ onconnectionstatechange o = None
  ∧ handlers connectionstatechange o = [onConnectionStateChange]
  ∧ handlers track o = [onTrack].
Proof.
  intros Hs Ho. pose proof (Forall_lookup_1 _ _ _ _ (inv_pcs s Hs) Ho) as Hwo.
  destruct Hwo as [H1 H2 H3 (ws & Hws & Hall)].
  split; [done|]. split; [done|]. split; [done|].
  pose proof (λ ty, checkStates_other_type ty ws Hall) as Hnone.
  unfold handlers. cbn. rewrite H1, H3, Hws. cbn.
  rewrite !decide_True by done. rewrite !decide_False by done.
  by rewrite !Hnone by done.
Qed.

(** X3.  On every reachable page each peer connection still has the two
    callbacks [start] registered, at the head of its listener list, and no
    event handler attribute set; so the three assignments of [stop]
    (client.js:199-201) change nothing: [stop] leaves every peer
    connection exactly as it was. *)
Theorem stop_changes_no_connection (s : state) :
  reachable s →
  pcs (stop s) = pcs s
  ∧ ∀ p o, pcs s !! p = Some o →
      ontrack o = None ∧ onicegatheringstatechange o = None
      ∧ onconnectionstatechange o = None
      ∧ handlers connectionstatechange o = [onConnectionStateChange]
      ∧ handlers track o = [onTrack].
Proof.
  intros Hs%reachable_page_inv. pose proof (inv_pcs s Hs) as Hwf. split.
  - rewrite stop_pcs. destruct (pc s) as [p|]; [|done].
    apply list_eq. intros q. rewrite list_lookup_alter. case_decide; [|done].
    subst q. destruct (pcs s !! p) as [o|] eqn:Ho; [|done]. cbn.
    by rewrite clear_handler_attributes_wf by (by eapply Forall_lookup_1).
  - intros p o. by apply reachable_handlers.
Qed.

Lemma stop_changes_no_connection_witness :
  pcs (stop (start init)) = pcs (start init)
  ∧ ∀ p o, pcs (start init) !! p = Some o →
      ontrack o = None ∧ onicegatheringstatechange o = None
      ∧ onconnectionstatechange o = None
      ∧ handlers connectionstatechange o = [onConnectionStateChange]
      ∧ handlers track o = [onTrack].
Proof. apply stop_changes_no_connection. exists [ClickStart]. reflexivity. Defined.

(** ** Connection state changes and tracks *)

Lemma handlers_with_connectionState ty c o :
  handlers ty (with_connectionState c o) = handlers ty o.
Proof. by destruct ty. Qed.

Lemma step_ConnectionStateChange s s' p c :
  page_inv s → step (ConnectionStateChange p c) s = Some s' →
  s' = run_onConnectionStateChange (upd_pc p (with_connectionState c) s).
Proof.
  intros Hs. simpl. unfold live_pc.
  destruct (pcs s !! p) as [o|] eqn:Ho; [|done].
  destruct (closed o); [done|]. intros [= <-].
  unfold dispatch. cbn. rewrite list_lookup_alter_eq, Ho. cbn.
  rewrite handlers_with_connectionState.
  by destruct (reachable_handlers s p o Hs Ho) as (_ & _ & _ & -> & _).
Qed.

(** X4.  A connection state change on a live connection of a reachable page
    runs the callback of client.js:91-100 once, and nothing else.  When it
    reports [connected] for the current session, the request button is
    enabled and session, channel, keepalive and pending closes stay as they
    are.  When it reports [failed], [disconnected] or [closed] for the
    current session, the page is torn down: keepalive cancelled, channel
    reference dropped, media sink detached, a deferred close scheduled,
    buttons reset. *)
Theorem connection_state_change
    (s s' : state) (p : nat) (c : RTCPeerConnectionState) :
  reachable s → step (ConnectionStateChange p c) s = Some s' →
  s' = run_onConnectionStateChange (upd_pc p (with_connectionState c) s)
  ∧ (pc s = Some p → c = CsConnected →
       requestFrameDisabled s' = false
       ∧ pc s' = pc s ∧ dc s' = dc s ∧ dcInterval s' = dcInterval s
       ∧ intervals s' = intervals s ∧ timeouts s' = timeouts s
       ∧ srcObject s' = srcObject s)
  ∧ (pc s = Some p → c = CsFailed ∨ c = CsDisconnected ∨ c = CsClosed →
       dc s' = None ∧ dcInterval s' = None ∧ intervals s' = []
       ∧ srcObject s' = None
       ∧ timeouts s' = timeouts s ++ [next_timer s]
       ∧ startDisabled s' = false ∧ stopDisabled s' = true
       ∧ requestFrameDisabled s' = true).
Proof.
  intros Hs Hstep.
  pose proof (step_channel_inv _ _ _ (reachable_channel_inv s Hs) Hstep) as Hc'.
  pose proof (step_ConnectionStateChange s s' p c (reachable_page_inv s Hs) Hstep)
    as Heq.
  split; [done|].
  assert (∃ o, pcs s !! p = Some o) as [o Ho].
  { revert Hstep. simpl. unfold live_pc. destruct (pcs s !! p); [eauto|done]. }
  assert (pc s = Some p →
          cur_pc (upd_pc p (with_connectionState c) s)
          = Some (p, with_connectionState c o)) as Hcur.
  { intros Hp. unfold cur_pc. cbn. rewrite Hp. cbn.
    by rewrite list_lookup_alter_eq, Ho. }
  split.
  - intros Hp ->. rewrite Heq. unfold run_onConnectionStateChange.
    by rewrite (Hcur Hp).
  - intros Hp Hadverse.
    set (s0 := log "Connection has been disconnected."
                 (log ("Connection state changed: "
                       +:+ string_of_connectionState c)
                    (upd_pc p (with_connectionState c) s))).
    assert (s' = stop s0) as Hs'.
    { rewrite Heq. unfold run_onConnectionStateChange. rewrite (Hcur Hp).
      by destruct Hadverse as [->|[->| ->]]. }
    assert (pc s0 = Some p) as E1 by done.
    assert (timeouts s0 = timeouts s) as E2 by done.
    assert (next_timer s0 = next_timer s) as E3 by done.
    clearbody s0. clear Heq. subst s'.
    destruct (stop_buttons s0) as (B1 & B2 & B3).
    rewrite stop_dc, stop_dcInterval, stop_srcObject, stop_timeouts, E1, E2, E3.
    split_and!; try done.
    pose proof (inv_keepalive _ Hc') as Hk. by rewrite stop_dcInterval in Hk.
Qed.

Lemma connection_state_change_witness :
  ∃ s', step (ConnectionStateChange 0 CsFailed) (start init) = Some s'
        ∧ dc s' = None ∧ dcInterval s' = None ∧ intervals s' = []
        ∧ srcObject s' = None
        ∧ timeouts s' = timeouts (start init) ++ [next_timer (start init)]
        ∧ startDisabled s' = false ∧ stopDisabled s' = true
        ∧ requestFrameDisabled s' = true.
Proof.
  eexists. split; [vm_compute; reflexivity|].
  eapply (connection_state_change (start init) _ 0 CsFailed).
  - exists [ClickStart]. reflexivity.
  - vm_compute. reflexivity.
  - reflexivity.
  - by left.
Defined.

(** X5.  A track arriving on a live connection of a reachable page runs the
    callback of client.js:103-109 once: a track of kind [video] becomes the
    stream of the video element, a track of any other kind only leaves a
    log line.  Session, channel and calls are untouched, and the callback
    runs whether or not the connection is the current session. *)
Theorem track_arrival
    (s s' : state) (p : nat) (kind : string) (stream : nat) :
  reachable s → step (TrackArrived p kind stream) s = Some s' →
  s' = run_onTrack kind stream s
  ∧ (kind = "video" →
       srcObject s' = Some stream
       ∧ logs s' = logs s ++ ["Remote track received: video";
                              "Adding video track to <video> element"])
  ∧ (kind ≠ "video" →
       srcObject s' = srcObject s
       ∧ logs s' = logs s ++ ["Remote track received: " +:+ kind])
  ∧ pc s' = pc s ∧ dc s' = dc s ∧ calls s' = calls s ∧ pcs s' = pcs s.
Proof.
  intros Hs%reachable_page_inv. simpl. unfold live_pc.
  destruct (pcs s !! p) as [o|] eqn:Ho; [|done].
  destruct (closed o); [done|]. intros [= <-].
  unfold dispatch. rewrite Ho.
  destruct (reachable_handlers s p o Hs Ho) as (_ & _ & _ & _ & ->).
  cbn [foldl run_listener]. split; [done|]. unfold run_onTrack.
  split; [|split].
  - intros ->. rewrite decide_True by done. cbn.
    by rewrite <- app_assoc.
  - intros Hk. by rewrite decide_False.
  - by case_decide.
Qed.

Lemma track_arrival_witness :
  ∃ s s', run [ClickStart; ClickStop] init = Some s
          ∧ step (TrackArrived 0 "video" 7) s = Some s'
          ∧ srcObject s = None ∧ srcObject s' = Some 7.
Proof.
  eexists _, _. split; [vm_compute; reflexivity|].
  split; [vm_compute; reflexivity|]. split; [reflexivity|].
  eapply (track_arrival _ _ 0 "video" 7).
  - exists [ClickStart; ClickStop]. vm_compute. reflexivity.
  - vm_compute. reflexivity.
  - reflexivity.
Defined.

(** ** The keepalive tick *)

(** X6.  A keepalive tick on a reachable page belongs to the handle in
    [dcInterval] and finds the session's channel.  If the channel is open
    and the send goes through, the tick hands ["ping <now>"] to [send] once
    and changes nothing else.  If the send throws (the channel is closing,
    or the browser refuses the message) the error is logged, the handle is
    cancelled and no interval timer remains; the failure is not escalated:
    no alert, and session, channel reference, pending closes and buttons
    stay as they are (client.js:119-132). *)
Theorem ping_tick
    (s s' : state) (t : nat) (now : Z) (r : option string) :
  reachable s → step (IntervalTick t now r) s = Some s' →
  dcInterval s = Some t
  ∧ ∃ d o, cur_dc s = Some (d, o)
    ∧ (readyState o = RsOpen → r = None →
         s' = record (ChannelSend d (ping_message now) None) s)
    ∧ (∀ e, (readyState o = RsOpen ∧ r = Some e)
            ∨ (readyState o ≠ RsOpen ∧ e = InvalidStateError) →
         calls s' = calls s ++ [ChannelSend d (ping_message now) (Some e);
                                ClearInterval t]
         ∧ logs s' = logs s ++ ["Ping send error: " +:+ e]
         ∧ dcInterval s' = None ∧ intervals s' = []
         ∧ pc s' = pc s ∧ dc s' = dc s ∧ timeouts s' = timeouts s
         ∧ startDisabled s' = startDisabled s
         ∧ stopDisabled s' = stopDisabled s
         ∧ requestFrameDisabled s' = requestFrameDisabled s
         ∧ errors s' = errors s).
Proof.
  intros Hs%reachable_channel_inv. simpl. case_decide as Ht; [|done].
  intros [= <-]. pose proof (inv_keepalive s Hs) as Hk.
  destruct (dcInterval s) as [t'|] eqn:Hi.
  2: { rewrite Hk in Ht. by apply not_elem_of_nil in Ht. }
  destruct Hk as (Hint & d & o & Hd & Ho & Hr).
  rewrite Hint in Ht. apply list_elem_of_singleton in Ht as ->.
  split; [done|]. exists d, o.
  assert (cur_dc s = Some (d, o)) as Hcur.
  { unfold cur_dc. rewrite Hd. cbn. by rewrite Ho. }
  split; [done|]. unfold ping, dc_send, channel_send. rewrite Hcur.
  fold (ping_message now). split.
  - intros Hopen ->. by rewrite decide_True.
  - intros e [[Hopen ->]|[Hne ->]];
      [rewrite decide_True by done|rewrite decide_False by done];
      cbn; rewrite Hi; cbn; rewrite Hint, filter_ne_singleton;
      by rewrite <- app_assoc.
Qed.

Lemma ping_tick_witness :
  dcInterval (dc_onopen (upd_dc 0 (with_readyState RsOpen) (start init)))
  = Some 1.
Proof.
  refine (proj1 (ping_tick
                   (dc_onopen (upd_dc 0 (with_readyState RsOpen) (start init)))
                   (ping 1700000000000 None
                      (dc_onopen (upd_dc 0 (with_readyState RsOpen) (start init))))
                   1 1700000000000 None _ _)).
  - exists [ClickStart; ChannelOpen 0]. vm_compute. reflexivity.
  - vm_compute. reflexivity.
Defined.

(** X7.  The text of a ping is not taken for a liveness reply, and the reply
    that echoes it, with [pong] in the place of [ping], gives as round
    trip time the time of arrival minus the time the ping was sent, as
    Numbers: for time values, which are far below 2^53, exactly that
    difference (client.js:121 and 151-152). *)
Theorem ping_echo_roundtrip (sent_at now : Z) :
  is_pong (ping_message sent_at) = false
  ∧ is_pong ("pong" +:+ substring_from 4 (ping_message sent_at)) = true
  ∧ roundtrip now ("pong" +:+ substring_from 4 (ping_message sent_at))
    = number_sub (to_number now) (to_number sent_at)
  ∧ ((Z.abs sent_at < 2 ^ 53)%Z → (Z.abs now < 2 ^ 53)%Z →
     (Z.abs (now - sent_at) < 2 ^ 53)%Z →
     roundtrip now ("pong" +:+ substring_from 4 (ping_message sent_at))
     = Int (now - sent_at)).
Proof.
  change ("pong" +:+ substring_from 4 (ping_message sent_at))
    with ("pong " +:+ pretty sent_at).
  split_and!.
  - destruct (is_pong (ping_message sent_at)) eqn:E; [|done].
    apply is_pong_prefix in E as [rest E]. discriminate E.
  - apply is_pong_prefix. by eexists.
  - apply roundtrip_pong_pretty.
  - intros H1 H2 H3. rewrite roundtrip_pong_pretty.
    rewrite !to_number_safe by done. cbn. by apply to_number_safe.
Qed.

Lemma ping_echo_roundtrip_witness :
  roundtrip 1700000000250
    ("pong" +:+ substring_from 4 (ping_message 1700000000000))
  = Int 250.
Proof.
  apply (ping_echo_roundtrip 1700000000000 1700000000250); by vm_compute.
Defined.
(** ** Starting a session *)

Lemma start_negs s : negs (start s) = negs s ++ [AwaitOffer (length (pcs s))].
Proof. done. Qed.

Lemma start_buttons s :
  startDisabled (start s) = true ∧ stopDisabled (start s) = false
  ∧ requestFrameDisabled (start s) = requestFrameDisabled s.
Proof. done. Qed.

(** X8.  The Start button can be clicked on a reachable page only when no
    channel is referred to and no keepalive runs.  [start] then makes a new
    peer connection and a new channel, both distinct from every earlier
    object, registers its two callbacks, and begins a negotiation on the new
    connection; the channel exists before the offer is asked for.  Deferred
    closes still pending from an earlier teardown are left pending
    (client.js:74-161). *)
Theorem start_fresh_session (s s' : state) :
  reachable s → step ClickStart s = Some s' →
  (dc s = None ∧ dcInterval s = None ∧ intervals s = [])
  ∧ pc s' = Some (length (pcs s)) ∧ dc s' = Some (length (dcs s))
  ∧ pcs s' = pcs s ++ [started_connection]
  ∧ dcs s' = dcs s ++ [{| label := "chat"; readyState := RsConnecting |}]
  ∧ negs s' = negs s ++ [AwaitOffer (length (pcs s))]
  ∧ calls s' = calls s ++ [AddTransceiver (length (pcs s));
                           AddEventListener (length (pcs s)) onConnectionStateChange;
                           AddEventListener (length (pcs s)) onTrack;
                           CreateOffer (length (negs s)) (length (pcs s))]
  ∧ dcInterval s' = None ∧ intervals s' = [] ∧ timeouts s' = timeouts s
  ∧ startDisabled s' = true ∧ stopDisabled s' = false.
Proof.
  intros Hs%reachable_channel_inv. simpl.
  destruct (startDisabled s) eqn:Hst; [done|]. intros [= <-].
  pose proof (inv_start s Hs Hst) as Hdc.
  destruct (keepalive_needs_channel s Hs Hdc) as [Hi Hint].
  rewrite start_pc, start_dc, start_pcs, start_dcs, start_negs, start_calls,
    start_dcInterval, start_intervals, start_timeouts.
  destruct (start_buttons s) as (-> & -> & _). by rewrite Hi, Hint.
Qed.

Lemma start_fresh_session_witness :
  ∃ s s', run [ClickStart; ChannelOpen 0; ClickStop] init = Some s
          ∧ step ClickStart s = Some s'
          ∧ pc s = Some 0 ∧ timeouts s = [2]
          ∧ pc s' = Some 1 ∧ dc s' = Some 1 ∧ timeouts s' = [2].
Proof.
  eexists _, _. split; [vm_compute; reflexivity|].
  split; [vm_compute; reflexivity|]. split; [reflexivity|].
  split; [reflexivity|].
  edestruct (start_fresh_session
               (default init (run [ClickStart; ChannelOpen 0; ClickStop] init)))
    as (_ & Hpc & Hdc & _ & _ & _ & _ & _ & _ & Hto & _).
  - exists [ClickStart; ChannelOpen 0; ClickStop]. vm_compute. reflexivity.
  - vm_compute. reflexivity.
  - split; [exact Hpc|]. split; [exact Hdc|]. exact Hto.
Defined.

(** ** The close notification after teardown *)

Lemma step_ChannelClosed_null s d o :
  dc s = None → dcs s !! d = Some o → readyState o ≠ RsClosed →
  ∃ s', step (ChannelClosed d) s = Some s'
        ∧ errors s' = errors s ++ [TypeError_dc_null]
        ∧ logs s' = logs s ∧ calls s' = calls s
        ∧ requestFrameDisabled s' = requestFrameDisabled s
        ∧ dcInterval s' = dcInterval s
        ∧ dcs s' = alter (with_readyState RsClosed) d (dcs s).
Proof.
  intros Hdc Ho Hr. simpl. rewrite Ho, decide_False by done.
  unfold dc_onclose, cur_dc. cbn. rewrite Hdc. cbn. by eexists.
Qed.

(** X9.  Teardown closes the channel and sets [dc] to null at once
    (client.js:189-193), so the close notification that follows finds
    [dc] null: [dc.onclose] throws a TypeError at its first statement
    (client.js:136).  Nothing is logged for the closed channel and the
    handler does nothing else; the keepalive was already cancelled and the
    request button already disabled by [stop]. *)
Theorem close_after_teardown (s : state) (d : nat) (o : RTCDataChannel) :
  reachable s → stopDisabled s = false →
  dc s = Some d → dcs s !! d = Some o → readyState o ≠ RsClosed →
  ∃ s1 s2,
    step ClickStop s = Some s1 ∧ step (ChannelClosed d) s1 = Some s2
    ∧ errors s2 = errors s1 ++ [TypeError_dc_null]
    ∧ logs s2 = logs s1 ∧ calls s2 = calls s1
    ∧ requestFrameDisabled s2 = true ∧ dcInterval s2 = None
    ∧ readyState <$> dcs s2 !! d = Some RsClosed.
Proof.
  intros _ Hstop Hd Ho Hr.
  destruct (step_ChannelClosed_null (stop s) d (closing o))
    as (s2 & Hs2 & E1 & E2 & E3 & E4 & E5 & E6).
  - apply stop_dc.
  - by rewrite stop_dcs, Hd, list_lookup_alter_eq, Ho.
  - unfold closing. by destruct o as [l []].
  - exists (stop s), s2. rewrite step_ClickStop by done.
    destruct (stop_buttons s) as (_ & _ & B3).
    rewrite E4, E5, stop_dcInterval, E6, stop_dcs, Hd.
    rewrite !list_lookup_alter_eq, Ho. done.
Qed.

Lemma close_after_teardown_witness :
  ∃ s1 s2,
    step ClickStop (start init) = Some s1
    ∧ step (ChannelClosed 0) s1 = Some s2
    ∧ errors s2 = errors s1 ++ [TypeError_dc_null]
    ∧ logs s2 = logs s1 ∧ calls s2 = calls s1
    ∧ requestFrameDisabled s2 = true ∧ dcInterval s2 = None
    ∧ readyState <$> dcs s2 !! 0 = Some RsClosed.
Proof.
  apply (close_after_teardown (start init) 0
           {| label := "chat"; readyState := RsConnecting |}).
  - exists [ClickStart]. reflexivity.
  - reflexivity.
  - reflexivity.
  - reflexivity.
  - discriminate.
Defined.

(** X10.  The callbacks of a channel act on the globals, not on the channel
    that fired.  When the close notification of a channel of an earlier
    session arrives while a later session is current, [dc.onclose] logs the
    current channel as closed, cancels the current session's keepalive and
    disables the request button, although the current channel keeps its
    state (client.js:135-143). *)
Theorem stale_close_hits_current_session
    (s s' : state) (d d' : nat) (o : RTCDataChannel) :
  reachable s → dc s = Some d → dcs s !! d = Some o → d' ≠ d →
  step (ChannelClosed d') s = Some s' →
  logs s' = logs s ++ ["DataChannel 'chat' closed"]
  ∧ dcInterval s' = None ∧ intervals s' = []
  ∧ requestFrameDisabled s' = true
  ∧ dc s' = Some d ∧ dcs s' !! d = Some o.
Proof.
  intros Hs Hd Ho Hne Hstep.
  pose proof (step_channel_inv _ _ _ (reachable_channel_inv s Hs) Hstep) as Hc'.
  pose proof (Forall_lookup_1 _ _ _ _
                (inv_labels s (reachable_page_inv s Hs)) Ho) as Hl.
  revert Hstep Hc'. simpl. destruct (dcs s !! d') as [o'|]; [|done].
  case_decide; [done|]. intros [= <-]. unfold dc_onclose, cur_dc. cbn.
  rewrite Hd. cbn. rewrite list_lookup_alter_ne, Ho by done. cbn.
  rewrite Hl. intros Hc'.
  pose proof (inv_keepalive _ Hc') as Hk. revert Hk.
  destruct (dcInterval s) as [t|] eqn:Hi; cbn; rewrite ?Hi; cbn; intros Hk;
    rewrite ?list_lookup_alter_ne by done; rewrite ?Hd; by split_and!.
Qed.

Lemma stale_close_hits_current_session_witness :
  ∃ s s', run [ClickStart; ClickStop; ClickStart; ChannelOpen 1] init = Some s
          ∧ step (ChannelClosed 0) s = Some s'
          ∧ dcInterval s = Some 2 ∧ channel_open s = true
          ∧ dcInterval s' = None ∧ channel_open s' = true.
Proof.
  eexists _, _. split; [vm_compute; reflexivity|].
  split; [vm_compute; reflexivity|]. split; [reflexivity|].
  split; [reflexivity|]. split; [|reflexivity].
  eapply (stale_close_hits_current_session
            (default init (run [ClickStart; ClickStop; ClickStart; ChannelOpen 1] init))
            _ 1 0).
  - exists [ClickStart; ClickStop; ClickStart; ChannelOpen 1].
    vm_compute. reflexivity.
  - reflexivity.
  - vm_compute. reflexivity.
  - discriminate.
  - vm_compute. reflexivity.
Defined.

(** ** Nothing is forgotten *)

Lemma extends_refl {A} (l : list A) : extends l l.
Proof. exists []. by rewrite app_nil_r. Qed.

Lemma extends_trans {A} (l1 l2 l3 : list A) :
  extends l1 l2 → extends l2 l3 → extends l1 l3.
Proof. intros [m1 ->] [m2 ->]. exists (m1 ++ m2). by rewrite app_assoc. Qed.

Lemma extends_app {A} (l m : list A) : extends l (l ++ m).
Proof. by exists m. Qed.

Lemma grows_refl s : grows_by 0 s s.
Proof. unfold grows_by. split_and!; try apply extends_refl; lia. Qed.

Lemma grows_trans n m s1 s2 s3 :
  grows_by n s1 s2 → grows_by m s2 s3 → grows_by (n + m) s1 s3.
Proof.
  intros (A1 & A2 & A3 & A4 & A5 & A6 & A7) (B1 & B2 & B3 & B4 & B5 & B6 & B7).
  unfold grows_by. split_and!; try (by eapply extends_trans); lia.
Qed.

Lemma grows_same s1 s2 s3 :
  grows_by 0 s1 s2 → grows_by 0 s2 s3 → grows_by 0 s1 s3.
Proof. apply (grows_trans 0 0). Qed.

Ltac grows_solve :=
  unfold grows_by; cbn;
  rewrite ?length_alter, ?length_insert, ?length_app, ?length_imap;
  split_and!;
  first [ apply extends_refl
        | apply extends_app
        | unfold extends; eexists; rewrite <- ?app_assoc; reflexivity
        | cbn; lia ].

Lemma grows_stop s : grows_by 0 s (stop s).
Proof.
  unfold grows_by. rewrite stop_negs, stop_errors, stop_length_pcs, stop_dcs,
    stop_next_timer.
  split_and!.
  - apply stop_logs.
  - apply stop_calls.
  - apply extends_refl.
  - lia.
  - lia.
  - destruct (dc s); rewrite ?length_alter; lia.
  - destruct (pc s); lia.
Qed.

Lemma grows_negotiation_failed k e s : grows_by 0 s (negotiation_failed k e s).
Proof.
  unfold negotiation_failed. eapply grows_same; [|apply grows_stop].
  grows_solve.
Qed.

Lemma grows_on_offer k offer s : grows_by 0 s (on_offer k offer s).
Proof.
  unfold on_offer. cbn. destruct (pc s); [grows_solve|].
  eapply grows_same; [|apply grows_negotiation_failed]. grows_solve.
Qed.

Lemma grows_on_gathering_complete k s : grows_by 0 s (on_gathering_complete k s).
Proof.
  unfold on_gathering_complete. cbv zeta.
  change (cur_pc (log ?m s)) with (cur_pc s).
  destruct (cur_pc s) as [[p o]|];
    [destruct (localDescription o); [grows_solve|]|];
    (eapply grows_same; [|apply grows_negotiation_failed]); grows_solve.
Qed.

Lemma grows_on_local_applied k s : grows_by 0 s (on_local_applied k s).
Proof.
  unfold on_local_applied. cbv zeta.
  change (cur_pc (log ?m s)) with (cur_pc s).
  destruct (cur_pc s) as [[p o]|].
  - case_decide.
    + eapply grows_same; [|apply grows_on_gathering_complete]. grows_solve.
    + unfold addEventListener. grows_solve.
  - eapply grows_same; [|apply grows_negotiation_failed]. grows_solve.
Qed.

Lemma grows_on_answer k answer s : grows_by 0 s (on_answer k answer s).
Proof.
  unfold on_answer. cbn. destruct (pc s); [grows_solve|].
  eapply grows_same; [|apply grows_negotiation_failed]. grows_solve.
Qed.

Lemma grows_run_checkState k s : grows_by 0 s (run_checkState k s).
Proof.
  unfold run_checkState. destruct (cur_pc s) as [[p o]|]; [|grows_solve].
  case_decide; [|apply grows_refl].
  eapply (grows_same _ (removeEventListener p (checkState k) s)).
  { unfold removeEventListener. grows_solve. }
  unfold resolve_gathering.
  destruct (negs (removeEventListener p (checkState k) s) !! k) as [[]|];
    try apply grows_refl.
  eapply grows_same; [|apply grows_on_gathering_complete]. grows_solve.
Qed.

Lemma grows_run_listener ev s l : grows_by 0 s (run_listener ev s l).
Proof.
  destruct l as [| |k]; simpl.
  - unfold run_onConnectionStateChange.
    destruct (cur_pc s) as [[p o]|]; [|grows_solve].
    destruct (connectionState o).
    + grows_solve.
    + grows_solve.
    + grows_solve.
    + eapply grows_same; [|apply grows_stop]. grows_solve.
    + eapply grows_same; [|apply grows_stop]. grows_solve.
    + eapply grows_same; [|apply grows_stop]. grows_solve.
  - destruct ev; [apply grows_refl|]. unfold run_onTrack.
    case_decide; grows_solve.
  - apply grows_run_checkState.
Qed.

Lemma grows_dispatch ty ev p s : grows_by 0 s (dispatch ty ev p s).
Proof.
  unfold dispatch. destruct (pcs s !! p) as [o|]; [|apply grows_refl].
  generalize (handlers ty o). intros ls. revert s.
  induction ls as [|l ls IH]; intros s; simpl; [apply grows_refl|].
  eapply grows_same; [apply grows_run_listener|apply IH].
Qed.

Lemma start_logs s :
  logs (start s)
  = logs s ++ ["Start connection button clicked";
               "DataChannel 'chat' creation attempt"; "Starting negotiation..."].
Proof. unfold start, negotiate, addEventListener. cbn. by rewrite <- !app_assoc. Qed.

Lemma start_errors s : errors (start s) = errors s.
Proof. done. Qed.

Lemma grows_start s : grows_by 1 s (start s).
Proof.
  unfold grows_by. rewrite start_negs, start_pcs, start_dcs, start_calls,
    start_next_timer, start_logs, start_errors, !length_app.
  split_and!.
  - apply extends_app.
  - apply extends_app.
  - apply extends_refl.
  - done.
  - done.
  - done.
  - lia.
Qed.

Lemma grows_step e s s' :
  step e s = Some s' → grows_by (sessions_begun e) s s'.
Proof.
  destruct e; simpl; intros Hstep.
  - destruct (startDisabled s); [done|]. injection Hstep as <-.
    apply grows_start.
  - destruct (requestFrameDisabled s); [done|].
    assert (grows_by 0 s (requestFrame r s).1) as Hr.
    { unfold requestFrame, channel_send.
      destruct (cur_dc s) as [[d o]|]; [case_decide|]; grows_solve. }
    destruct (requestFrame r s) as [s1 [e|]]; cbn [fst] in Hr;
      injection Hstep as <-; [|done].
    eapply grows_same; [exact Hr|]. grows_solve.
  - destruct (stopDisabled s); [done|]. injection Hstep as <-.
    apply grows_stop.
  - destruct (negs s !! k) as [[]|]; try done. settle_live s. injection Hstep as <-.
    destruct r; [apply grows_negotiation_failed|apply grows_on_offer].
  - destruct (negs s !! k) as [[]|]; try done. settle_live s. injection Hstep as <-.
    destruct r; [apply grows_negotiation_failed|].
    eapply grows_same; [|apply grows_on_local_applied]. grows_solve.
  - destruct (negs s !! k) as [[]|]; try done. settle_live s. injection Hstep as <-.
    destruct r; [apply grows_negotiation_failed|].
    unfold on_response. grows_solve.
  - destruct (negs s !! k) as [[]|]; try done. settle_live s. injection Hstep as <-.
    destruct (resp_json r); [apply grows_negotiation_failed|apply grows_on_answer].
  - destruct (negs s !! k) as [[]|]; try done. settle_live s.
    destruct r; [injection Hstep as <-; apply grows_negotiation_failed|].
    destruct answer; [|done]. injection Hstep as <-.
    unfold on_remote_applied. grows_solve.
  - destruct (live_pc p s); [|done]. with_local s. injection Hstep as <-.
    eapply grows_same; [|apply grows_dispatch]. grows_solve.
  - destruct (live_pc p s); [|done]. with_local s. injection Hstep as <-.
    eapply grows_same; [|apply grows_dispatch]. grows_solve.
  - destruct (live_pc p s); [|done]. with_local s. injection Hstep as <-.
    apply grows_dispatch.
  - destruct (dcs s !! d) as [o|]; [|done]. case_decide; [|done].
    injection Hstep as <-. unfold dc_onopen, cur_dc. cbn.
    destruct (dc s) as [d0|]; cbn; [|grows_solve].
    destruct (alter _ d (dcs s) !! d0); cbn; grows_solve.
  - destruct (dcs s !! d) as [o|]; [|done]. case_decide; [|done].
    injection Hstep as <-. grows_solve.
  - destruct (dcs s !! d) as [o|]; [|done]. case_decide; [done|].
    injection Hstep as <-. unfold dc_onclose, cur_dc. cbn.
    destruct (dc s) as [d0|]; cbn; [|grows_solve].
    destruct (alter _ d (dcs s) !! d0); cbn; [|grows_solve].
    destruct (dcInterval s); grows_solve.
  - destruct (dcs s !! d) as [o|]; [|done]. case_decide; [done|].
    injection Hstep as <-. unfold dc_onerror.
    destruct (cur_dc s) as [[]|]; grows_solve.
  - destruct (dcs s !! d) as [o|]; [|done]. case_decide; [|done].
    injection Hstep as <-. unfold dc_onmessage.
    destruct (is_pong data); [apply grows_refl|].
    destruct (cur_dc s) as [[]|]; grows_solve.
  - case_decide; [|done]. injection Hstep as <-.
    unfold ping, dc_send, channel_send.
    destruct (cur_dc s) as [[d o]|]; cbn;
      [case_decide; [destruct r|]|]; cbn; destruct (dcInterval s); grows_solve.
  - case_decide; [|done]. injection Hstep as <-. unfold deferred_close. cbn.
    destruct (pc s); grows_solve.
Qed.

Lemma grows_run es s s' : run es s = Some s' → ∃ n, grows_by n s s'.
Proof.
  revert s. induction es as [|e es IH]; intros s; simpl.
  - intros [= <-]. exists 0. apply grows_refl.
  - destruct (step e s) as [s1|] eqn:He; [|done]. simpl. intros Hr.
    destruct (IH _ Hr) as [m Hm]. eexists.
    eapply grows_trans; [by eapply grows_step|exact Hm].
Qed.

(** X11.  Nothing a run of the page does is ever undone in its record: the
    log is only appended to (it is never cleared), and so are the calls
    into the browser and the uncaught errors; peer connections, channels
    and negotiations are never dropped from the page, and timer handles
    are never given out twice. *)
Theorem history_only_grows (es : list event) (s s' : state) :
  run es s = Some s' →
  extends (logs s) (logs s') ∧ extends (calls s) (calls s')
  ∧ extends (errors s) (errors s')
  ∧ length (negs s) ≤ length (negs s')
  ∧ length (pcs s) ≤ length (pcs s')
  ∧ length (dcs s) ≤ length (dcs s')
  ∧ next_timer s ≤ next_timer s'.
Proof.
  intros [n (A1 & A2 & A3 & A4 & A5 & A6 & A7)]%grows_run.
  split_and!; try done; lia.
Qed.

Lemma history_only_grows_witness :
  ∃ s', run good_run init = Some s'
        ∧ extends (logs init) (logs s') ∧ extends (calls init) (calls s')
        ∧ extends (errors init) (errors s')
        ∧ length (negs init) ≤ length (negs s')
        ∧ length (pcs init) ≤ length (pcs s')
        ∧ length (dcs init) ≤ length (dcs s')
        ∧ next_timer init ≤ next_timer s'.
Proof.
  eexists. split; [vm_compute; reflexivity|].
  apply (history_only_grows good_run). vm_compute. reflexivity.
Defined.
(** ** The channel opening, and its errors *)

(** X13.  Only the current channel can open, and when it does the page logs
    it and starts the keepalive: the one interval timer of the page, under
    a handle never used before, kept in [dcInterval].  Opening the channel
    does not enable the Request Frame button (client.js:116-133). *)
Theorem channel_open_starts_keepalive (s s' : state) (d : nat) :
  reachable s → step (ChannelOpen d) s = Some s' →
  dc s = Some d ∧ dcInterval s = None
  ∧ logs s' = logs s ++ ["DataChannel 'chat' open"]
  ∧ calls s' = calls s ++ [SetInterval (next_timer s)]
  ∧ dcInterval s' = Some (next_timer s) ∧ intervals s' = [next_timer s]
  ∧ channel_open s' = true
  ∧ requestFrameDisabled s' = requestFrameDisabled s.
Proof.
  intros Hs. simpl. destruct (dcs s !! d) as [o|] eqn:Ho; [|done].
  case_decide as Hr; [|done]. intros [= <-].
  destruct (open_needs_no_handle s d o (reachable_channel_inv s Hs) Ho Hr)
    as (Hd & Hi & Hn).
  pose proof (inv_labels s (reachable_page_inv s Hs)) as Hl.
  rewrite Forall_lookup in Hl. specialize (Hl d o Ho).
  assert (cur_dc (upd_dc d (with_readyState RsOpen) s)
          = Some (d, with_readyState RsOpen o)) as Hcur.
  { unfold cur_dc, upd_dc. cbn. rewrite Hd. cbn.
    by rewrite list_lookup_alter_eq, Ho. }
  unfold dc_onopen. rewrite Hcur. unfold channel_open, cur_dc. cbn.
  rewrite Hd, Hn, Hl. cbn. rewrite list_lookup_alter_eq, Ho. cbn.
  by rewrite bool_decide_eq_true_2.
Qed.

Lemma channel_open_starts_keepalive_witness :
  ∃ s', step (ChannelOpen 0) (start init) = Some s'
        ∧ dc (start init) = Some 0 ∧ dcInterval (start init) = None
        ∧ logs s' = logs (start init) ++ ["DataChannel 'chat' open"]
        ∧ calls s' = calls (start init) ++ [SetInterval (next_timer (start init))]
        ∧ dcInterval s' = Some (next_timer (start init))
        ∧ intervals s' = [next_timer (start init)]
        ∧ channel_open s' = true
        ∧ requestFrameDisabled s' = requestFrameDisabled (start init).
Proof.
  eexists. split; [vm_compute; reflexivity|].
  apply (channel_open_starts_keepalive (start init) _ 0).
  - exists [ClickStart]. vm_compute. reflexivity.
  - vm_compute. reflexivity.
Defined.

(** X14.  An error event of a data channel only writes a log line, under the
    label of the current channel, whichever channel raised it; with no
    current channel (after a teardown) the handler itself throws on
    [dc.label] and nothing is logged (client.js:145-147). *)
Theorem channel_error_is_logged (s s' : state) (d : nat) (error : string) :
  reachable s → step (ChannelError d error) s = Some s' →
  match dc s with
  | Some _ => s' = log ("DataChannel 'chat' error: " +:+ error) s
  | None => s' = uncaught TypeError_dc_null s
  end.
Proof.
  intros Hs. simpl. destruct (dcs s !! d) as [o|] eqn:Ho; [|done].
  case_decide as Hr; [done|]. intros [= <-].
  unfold dc_onerror, cur_dc. destruct (dc s) as [d0|] eqn:Hd; [|done].
  pose proof (inv_dc s (reachable_channel_inv s Hs) d0 Hd) as Hlt.
  apply lookup_lt_is_Some_2 in Hlt as [o0 Ho0].
  pose proof (inv_labels s (reachable_page_inv s Hs)) as Hl.
  rewrite Forall_lookup in Hl. specialize (Hl d0 o0 Ho0).
  cbn. rewrite Ho0. cbn. by rewrite Hl.
Qed.

Lemma channel_error_is_logged_witness :
  ∃ s', step (ChannelError 0 "boom") (start init) = Some s'
        ∧ s' = log ("DataChannel 'chat' error: " +:+ "boom") (start init).
Proof.
  eexists. split; [vm_compute; reflexivity|].
  apply (channel_error_is_logged (start init) _ 0 "boom").
  - exists [ClickStart]. vm_compute. reflexivity.
  - vm_compute. reflexivity.
Defined.

(** ** Inbound messages, classified *)

(** C8.  A message delivered on a channel of a reachable page arrives on
    the channel [dc] refers to and is classified by its first four code
    units.  One that begins with [pong] changes nothing at all: no log
    line, no error, no connection state, whatever follows the prefix.  Its
    round trip time is the Number [now - parseInt(rest)]: for a decimal
    time stamp the difference of the two Numbers, exact for time values
    (below 2^53), rounded like any double beyond, and NaN when no digit
    follows.  Any other message adds one line to the log, the message
    under the label of the channel, and nothing else changes. *)
Theorem message_classification
    (s s' : state) (d : nat) (now : Z) (data : string) :
  reachable s → step (ChannelMessage d now data) s = Some s' →
  (is_pong data = true ↔ ∃ rest, data = "pong" +:+ rest)
  ∧ (is_pong data = true → s' = s)
  ∧ (is_pong data = false →
       dc s = Some d
       ∧ s' = set_logs (logs s ++ ["Message from DataChannel 'chat': " +:+ data]) s)
  ∧ (∀ t : Z,
       roundtrip now ("pong " +:+ pretty t)
       = number_sub (to_number now) (to_number t)
       ∧ ((0 ≤ t < 2 ^ 53)%Z → (0 ≤ now < 2 ^ 53)%Z →
          roundtrip now ("pong " +:+ pretty t) = Int (now - t)))
  ∧ roundtrip 0 "pong 9007199254740993" = Int (-9007199254740992)
  ∧ roundtrip now "pong soon" = NaN.
Proof.
  intros Hs. pose proof (reachable_channel_inv s Hs) as Hc.
  pose proof (inv_labels s (reachable_page_inv s Hs)) as Hl.
  simpl. destruct (dcs s !! d) as [o|] eqn:Ho; [|done].
  case_decide as Hr; [|done]. intros [= <-].
  pose proof (live_channel_is_current s d o Hc Ho (or_intror Hr)) as Hd.
  rewrite Forall_lookup in Hl. specialize (Hl d o Ho).
  split; [apply is_pong_prefix|]. unfold dc_onmessage. split_and!.
  - by intros ->.
  - intros ->. split; [done|]. unfold cur_dc. rewrite Hd. cbn. rewrite Ho. cbn.
    by rewrite Hl.
  - intros t. split; [apply roundtrip_pong_pretty|].
    intros Ht Hnow. rewrite roundtrip_pong_pretty.
    rewrite !to_number_safe by lia. cbn. apply to_number_safe. lia.
  - by vm_compute.
  - unfold roundtrip. change (parseInt (drop 5 (code_units "pong soon"))) with NaN.
    by destruct (to_number now).
Qed.

Lemma message_classification_witness :
  ∃ s s', run [ClickStart; ChannelOpen 0] init = Some s
          ∧ step (ChannelMessage 0 1700000000123 "frame 42 sent") s = Some s'
          ∧ dc s = Some 0
          ∧ s' = set_logs (logs s ++ ["Message from DataChannel 'chat': "
                                      +:+ "frame 42 sent"]) s.
Proof.
  eexists; eexists. split; [vm_compute; reflexivity|].
  split; [vm_compute; reflexivity|].
  apply (message_classification
           (default init (run [ClickStart; ChannelOpen 0] init))
           _ 0 1700000000123 "frame 42 sent").
  - exists [ClickStart; ChannelOpen 0]. vm_compute. reflexivity.
  - vm_compute. reflexivity.
  - vm_compute. reflexivity.
Defined.

(** ** The gathering wait, and the session it reads *)

Lemma run_checkState_waits k s q o :
  cur_pc s = Some (q, o) → iceGatheringState o ≠ GsComplete →
  run_checkState k s = s.
Proof. intros Hc Hg. unfold run_checkState. rewrite Hc. by rewrite decide_False. Qed.

Lemma foldl_checkStates_wait (ls : list listener) s q o :
  Forall is_checkState ls →
  cur_pc s = Some (q, o) → iceGatheringState o ≠ GsComplete →
  foldl (run_listener NoPayload) s ls = s.
Proof.
  intros Hall Hc Hg. induction Hall as [|l ls [k ->] _ IH]; [done|].
  simpl. by rewrite (run_checkState_waits k s q o).
Qed.

Lemma gathering_handlers o :
  pc_wf o → Forall is_checkState (handlers icegatheringstatechange o).
Proof.
  intros [H1 H2 H3 (ws & Hws & Hall) H5]. unfold handlers. cbn.
  rewrite H2, Hws. cbn. rewrite !decide_False by done.
  apply Forall_forall. intros x [_ Hx]%list_elem_of_filter.
  by apply (proj1 (Forall_forall _ _) Hall).
Qed.



(** C7, as the spec has it, fails: once the session has been replaced, the
    notification that the old connection has finished gathering runs the
    listener against the new session, which has not, and the negotiation
    keeps waiting. *)
Lemma notification_misses_replaced_session : ¬ notification_resolves_wait.
Proof.
  intros Hclaim.
  pose (s' := default init
                (step (GatheringStateChange 0 GsComplete) replaced_page)).
  assert (proceeded 0 s') as [Hp|[e Hp]].
  { apply (Hclaim replaced_page 0 0
             (default new_connection (pcs replaced_page !! 0))).
    - exists [ClickStart; OfferSettled 0 (inr offer0); LocalSettled 0 None;
              ClickStop; ClickStart]. vm_compute. reflexivity.
    - vm_compute. reflexivity.
    - vm_compute. reflexivity.
    - vm_compute. apply list_elem_of_further, list_elem_of_further,
        list_elem_of_here.
    - vm_compute. reflexivity. }
  - vm_compute in Hp. discriminate Hp.
  - vm_compute in Hp. discriminate Hp.
Qed.

(** Seen from the page: the old connection is complete, the negotiation
    still waits, its listener still registered, and nothing was logged. *)
Lemma replaced_session_keeps_waiting :
  ∃ s', step (GatheringStateChange 0 GsComplete) replaced_page = Some s'
        ∧ pc s' = Some 1
        ∧ iceGatheringState <$> pcs s' !! 0 = Some GsComplete
        ∧ iceGatheringState <$> pcs s' !! 1 = Some GsNew
        ∧ negs s' !! 0 = Some AwaitGathering
        ∧ listeners <$> pcs s' !! 0
          = Some [onConnectionStateChange; onTrack; checkState 0]
        ∧ logs s' = logs replaced_page ∧ calls s' = calls replaced_page.
Proof. eexists. split; [vm_compute; reflexivity|]. by vm_compute. Qed.

(** ** The moves of one negotiation

    Every callback of chain [k0] moves that chain along [task_step] and
    leaves the other chains alone; its calls go to the peer connection
    [pc] refers to. *)

Lemma calls_of_app k cs1 cs2 :
  calls_of k (cs1 ++ cs2) = calls_of k cs1 ++ calls_of k cs2.
Proof. apply filter_app. Qed.

Lemma calls_of_cons k c cs :
  calls_of k (c :: cs)
  = (if step_of k c is Some _ then [c] else []) ++ calls_of k cs.
Proof.
  unfold calls_of. rewrite filter_cons.
  destruct (step_of k c); [by rewrite decide_True|].
  rewrite decide_False; [done|]. by intros [? ?].
Qed.

Lemma calls_of_nil k : calls_of k [] = [].
Proof. done. Qed.

#[global] Arguments calls_of : simpl never.

Lemma calls_of_teardown k s : calls_of k (teardown_calls s) = [].
Proof.
  unfold teardown_calls.
  destruct (dcInterval s), (dc s), (pc s); cbn;
    by rewrite ?calls_of_cons, ?calls_of_nil.
Qed.

Lemma stop_calls_of k s : calls_of k (calls (stop s)) = calls_of k (calls s).
Proof.
  by rewrite stop_calls_exact, calls_of_app, calls_of_teardown, app_nil_r.
Qed.

Lemma stop_cap s : cap (stop s) = cap s.
Proof. unfold cap. by rewrite stop_pc, stop_length_pcs. Qed.

Lemma stop_task k s : task_of k (stop s) = task_of k s.
Proof. unfold task_of. by rewrite stop_negs, stop_calls_of, stop_cap. Qed.

Lemma steps_of_calls_of k cs : steps_of k cs = omap (step_of k) (calls_of k cs).
Proof.
  unfold steps_of, calls_of. induction cs as [|c cs IH]; [done|].
  rewrite filter_cons. case_decide as Hc.
  - destruct Hc as [x Hx]. simpl. rewrite Hx. by f_equal.
  - simpl. destruct (step_of k c) eqn:E; [|exact IH].
    exfalso. apply Hc. by eexists.
Qed.

Ltac calls_norm :=
  cbn; rewrite ?calls_of_app, ?calls_of_cons, ?calls_of_nil; cbn;
  rewrite ?decide_True by done; rewrite ?decide_False by done; cbn;
  rewrite ?app_nil_r, <- ?app_assoc; cbn.

(** Settles a goal [moves k (task_of k s) (task_of k s')] once [s'] has been
    unfolded to setters: [k] is the chain [k0] that moved, or another one. *)
Ltac task_move k k0 H :=
  unfold task_of, cap;
  rewrite ?stop_negs, ?stop_calls_of, ?stop_pc, ?stop_length_pcs; cbn;
  rewrite ?length_alter;
  repeat match goal with Hq : pc _ = _ |- _ => rewrite !Hq end;
  destruct (decide (k0 = k)) as [->|?];
  [ rewrite list_lookup_insert_eq by (by eapply lookup_lt_Some);
    rewrite H; calls_norm;
    first [ reflexivity | apply rtc_once; by econstructor ]
  | rewrite list_lookup_insert_ne by done;
    calls_norm; reflexivity ].

Lemma negotiation_failed_move k0 e st s k :
  negs s !! k0 = Some st → settled st = false →
  moves k (task_of k s) (task_of k (negotiation_failed k0 e s)).
Proof. intros H Hst. unfold negotiation_failed. task_move k k0 H. Qed.

Lemma on_offer_move k0 offer p s k :
  negs s !! k0 = Some (AwaitOffer p) →
  moves k (task_of k s) (task_of k (on_offer k0 offer s)).
Proof.
  intros H. unfold on_offer. cbn. destruct (pc s) as [q|] eqn:Hq.
  - task_move k k0 H.
  - unfold negotiation_failed. task_move k k0 H.
Qed.

Lemma on_gathering_complete_move k0 p s k :
  negs s !! k0 = Some AwaitGathering → pc s = Some p →
  moves k (task_of k s)
        (task_of k (on_gathering_complete k0 (record (GatheringResolved k0 p) s))).
Proof.
  intros H Hq. unfold on_gathering_complete, cur_pc. cbn. rewrite Hq. cbn.
  destruct (pcs s !! p) as [o|]; cbn.
  - destruct (localDescription o); cbn.
    + task_move k k0 H.
    + unfold negotiation_failed. task_move k k0 H.
  - unfold negotiation_failed. task_move k k0 H.
Qed.

Lemma resolve_gathering_move k0 p s k :
  pc s = Some p →
  moves k (task_of k s) (task_of k (resolve_gathering k0 p s)).
Proof.
  intros Hq. unfold resolve_gathering.
  destruct (negs s !! k0) as [[]|] eqn:H; try reflexivity.
  by apply on_gathering_complete_move.
Qed.

Lemma removeEventListener_task k p l s :
  task_of k (removeEventListener p l s) = task_of k s.
Proof.
  unfold removeEventListener, task_of, cap. cbn. rewrite length_alter.
  by calls_norm.
Qed.

Lemma addEventListener_task k p l s :
  task_of k (addEventListener p l s) = task_of k s.
Proof.
  unfold addEventListener, task_of, cap. cbn. rewrite length_alter.
  by calls_norm.
Qed.

Lemma run_checkState_move k0 s k :
  moves k (task_of k s) (task_of k (run_checkState k0 s)).
Proof.
  unfold run_checkState, cur_pc. destruct (pc s) as [p|] eqn:Hq; [|reflexivity].
  cbn. destruct (pcs s !! p) as [o|]; [|reflexivity]. cbn.
  case_decide; [|reflexivity].
  rewrite <- (removeEventListener_task k p (checkState k0) s) at 1.
  by apply resolve_gathering_move.
Qed.

Lemma on_local_applied_move k0 p offer s k :
  negs s !! k0 = Some (AwaitSetLocal p offer) →
  moves k (task_of k s) (task_of k (on_local_applied k0 s)).
Proof.
  intros H. unfold on_local_applied, cur_pc. cbn.
  destruct (pc s) as [q|] eqn:Hq; cbn.
  - destruct (pcs s !! q) as [o|]; cbn.
    + case_decide.
      * etrans; [|apply on_gathering_complete_move].
        -- task_move k k0 H.
        -- cbn. apply list_lookup_insert_eq. by eapply lookup_lt_Some.
        -- done.
      * unfold addEventListener. task_move k k0 H.
    + unfold negotiation_failed. task_move k k0 H.
  - unfold negotiation_failed. task_move k k0 H.
Qed.

Lemma on_response_move k0 r s k :
  negs s !! k0 = Some AwaitFetch →
  moves k (task_of k s) (task_of k (on_response k0 r s)).
Proof. intros H. unfold on_response. task_move k k0 H. Qed.

Lemma on_answer_move k0 r answer s k :
  negs s !! k0 = Some (AwaitJson r) →
  moves k (task_of k s) (task_of k (on_answer k0 answer s)).
Proof.
  intros H. unfold on_answer. cbn. destruct (pc s) as [q|] eqn:Hq.
  - task_move k k0 H.
  - unfold negotiation_failed. task_move k k0 H.
Qed.

Lemma on_remote_applied_move k0 p answer s k :
  negs s !! k0 = Some (AwaitSetRemote p answer) →
  moves k (task_of k s) (task_of k (on_remote_applied k0 s)).
Proof. intros H. unfold on_remote_applied. task_move k k0 H. Qed.

Lemma cap_move k c c' st l : c ≤ c' → moves k (c, st, l) (c', st, l).
Proof. intros Hc. apply rtc_once. by constructor. Qed.

Lemma start_move s k :
  (∀ p, pc s = Some p → p < length (pcs s)) →
  moves k (task_of k s) (task_of k (start s)).
Proof.
  intros Hpc. unfold start, negotiate, addEventListener, task_of, cap. cbn.
  rewrite ?length_alter. calls_norm.
  etrans; [apply (cap_move k _ (length (pcs s)))|].
  { destruct (pc s) as [p|]; [|done]. specialize (Hpc p eq_refl). lia. }
  destruct (decide (length (negs s) = k)) as [<-|Hk]; cbn.
  - rewrite lookup_app_r, Nat.sub_diag by done. cbn.
    rewrite (lookup_ge_None_2 (negs s)) by done.
    apply rtc_once. constructor.
  - rewrite ?app_nil_r. destruct (decide (k < length (negs s))).
    + rewrite lookup_app_l by done. reflexivity.
    + rewrite (lookup_ge_None_2 (negs s)) by lia.
      rewrite lookup_ge_None_2; [reflexivity|].
      rewrite length_app. simpl. lia.
Qed.

Lemma run_onConnectionStateChange_task k s :
  task_of k (run_onConnectionStateChange s) = task_of k s.
Proof.
  unfold run_onConnectionStateChange.
  destruct (cur_pc s) as [[p o]|]; [|done].
  destruct (connectionState o); try done; by rewrite stop_task.
Qed.

Lemma run_onTrack_task k kind stream s :
  task_of k (run_onTrack kind stream s) = task_of k s.
Proof. unfold run_onTrack. by case_decide. Qed.

Lemma run_listener_move ev s l k :
  moves k (task_of k s) (task_of k (run_listener ev s l)).
Proof.
  destruct l as [| |k0]; simpl.
  - by rewrite run_onConnectionStateChange_task.
  - destruct ev; [done|]. by rewrite run_onTrack_task.
  - apply run_checkState_move.
Qed.

Lemma foldl_run_listener_move ev ls s k :
  moves k (task_of k s) (task_of k (foldl (run_listener ev) s ls)).
Proof.
  revert s. induction ls as [|l ls IH]; intros s; simpl; [done|].
  etrans; [apply run_listener_move|apply IH].
Qed.

Lemma dispatch_move ty ev p s k :
  moves k (task_of k s) (task_of k (dispatch ty ev p s)).
Proof.
  unfold dispatch. destruct (pcs s !! p); [|done].
  apply foldl_run_listener_move.
Qed.

Lemma upd_pc_task k p f s : task_of k (upd_pc p f s) = task_of k s.
Proof. unfold task_of, cap. cbn. by rewrite length_alter. Qed.

Lemma deferred_close_move k s :
  (∀ p, pc s = Some p → p < length (pcs s)) →
  moves k (task_of k s) (task_of k (deferred_close s)).
Proof.
  intros Hpc. unfold deferred_close. destruct (pc s) as [p|] eqn:Hq; [|done].
  unfold task_of, cap. cbn. rewrite Hq, length_alter. calls_norm.
  rewrite ?app_nil_r. apply cap_move. specialize (Hpc p eq_refl). lia.
Qed.

Lemma set_timeouts_task k v s : task_of k (set_timeouts v s) = task_of k s.
Proof. done. Qed.

Lemma dc_onopen_task k s : task_of k (dc_onopen s) = task_of k s.
Proof.
  unfold dc_onopen. destruct (cur_dc s) as [[d o]|]; [|done].
  unfold task_of. by calls_norm.
Qed.

Lemma dc_onclose_task k s : task_of k (dc_onclose s) = task_of k s.
Proof.
  unfold dc_onclose. destruct (cur_dc s) as [[d o]|]; [|done].
  unfold task_of. cbn. destruct (dcInterval s); by calls_norm.
Qed.

Lemma dc_onerror_task k error s : task_of k (dc_onerror error s) = task_of k s.
Proof. unfold dc_onerror. by destruct (cur_dc s) as [[d o]|]. Qed.

Lemma dc_onmessage_task k now data s :
  task_of k (dc_onmessage now data s) = task_of k s.
Proof.
  unfold dc_onmessage. destruct (is_pong data); [done|].
  by destruct (cur_dc s) as [[d o]|].
Qed.

Lemma ping_task k now r s : task_of k (ping now r s) = task_of k s.
Proof.
  unfold ping, dc_send, channel_send, task_of.
  destruct (cur_dc s) as [[d o]|]; cbn.
  - case_decide; [destruct r|]; cbn; destruct (dcInterval s); by calls_norm.
  - destruct (dcInterval s); by calls_norm.
Qed.

Lemma requestFrame_task k r s : task_of k (requestFrame r s).1 = task_of k s.
Proof.
  unfold requestFrame, channel_send, task_of.
  destruct (cur_dc s) as [[d o]|]; [case_decide|]; by calls_norm.
Qed.

(** Each event moves each negotiation along [task_step], or not at all. *)
Lemma step_moves e s s' k :
  (∀ p, pc s = Some p → p < length (pcs s)) →
  step e s = Some s' → moves k (task_of k s) (task_of k s').
Proof.
  intros Hpc. destruct e; simpl; intros Hs.
  - destruct (startDisabled s); simplify_eq. by apply start_move.
  - destruct (requestFrameDisabled s); [done|].
    pose proof (requestFrame_task k r s) as Hr.
    destruct (requestFrame r s) as [s1 [e|]]; cbn [fst] in Hr;
      injection Hs as <-; rewrite <- Hr; reflexivity.
  - destruct (stopDisabled s); simplify_eq. by rewrite stop_task.
  - destruct (negs s !! k0) as [[]|] eqn:H; simplify_eq.
    destruct (live_pc p s); simplify_eq.
    destruct r; [by eapply negotiation_failed_move|by eapply on_offer_move].
  - destruct (negs s !! k0) as [[]|] eqn:H; simplify_eq.
    destruct (live_pc p s); simplify_eq.
    destruct r; [by eapply negotiation_failed_move|].
    rewrite <- (upd_pc_task k p (with_localDescription (Some offer)) s).
    eapply on_local_applied_move. exact H.
  - destruct (negs s !! k0) as [[]|] eqn:H; simplify_eq.
    destruct r; [by eapply negotiation_failed_move|by eapply on_response_move].
  - destruct (negs s !! k0) as [[]|] eqn:H; simplify_eq.
    destruct (resp_json r);
      [by eapply negotiation_failed_move|by eapply on_answer_move].
  - destruct (negs s !! k0) as [[]|] eqn:H; simplify_eq.
    destruct (live_pc p s); simplify_eq.
    destruct r; [simplify_eq; by eapply negotiation_failed_move|].
    destruct answer; simplify_eq.
    rewrite <- (upd_pc_task k p (with_remoteDescription (Some d)) s).
    eapply on_remote_applied_move. exact H.
  - destruct (live_pc p s); simplify_eq. destruct (has_local p s); simplify_eq.
    rewrite <- (upd_pc_task k p (with_iceGatheringState g) s).
    apply dispatch_move.
  - destruct (live_pc p s); simplify_eq.
    rewrite <- (upd_pc_task k p (with_connectionState c) s).
    apply dispatch_move.
  - destruct (live_pc p s); simplify_eq. apply dispatch_move.
  - destruct (dcs s !! d); [|done]. case_decide; simplify_eq.
    by rewrite dc_onopen_task.
  - destruct (dcs s !! d); [|done]. by case_decide; simplify_eq.
  - destruct (dcs s !! d); [|done]. case_decide; simplify_eq.
    by rewrite dc_onclose_task.
  - destruct (dcs s !! d); [|done]. case_decide; simplify_eq.
    by rewrite dc_onerror_task.
  - destruct (dcs s !! d); [|done]. case_decide; simplify_eq.
    by rewrite dc_onmessage_task.
  - case_decide; simplify_eq. by rewrite ping_task.
  - case_decide; simplify_eq.
    rewrite <- (set_timeouts_task k (filter (λ x, x ≠ t) (timeouts s)) s) at 1.
    by apply deferred_close_move.
Qed.

Lemma channel_inv_pc s : channel_inv s → ∀ p, pc s = Some p → p < length (pcs s).
Proof. intros Hs. apply (inv_pc s Hs). Qed.

Lemma run_moves es s s' k :
  channel_inv s →
  run es s = Some s' → moves k (task_of k s) (task_of k s').
Proof.
  revert s. induction es as [|e es IH]; intros s Hinv; simpl.
  - by intros [= <-].
  - destruct (step e s) as [s1|] eqn:He; [|done]. simpl. intros Hr.
    etrans; [eapply step_moves; [by apply channel_inv_pc|exact He]|].
    apply IH; [by eapply step_channel_inv|done].
Qed.
(** ** The calls of one negotiation, in order *)

Ltac ok_open H :=
  destruct H as (n & q0 & q1 & o1 & q2 & b & q3 & a
                 & Hl & H01 & H12 & H23 & H3c & Hfit);
  cbn in Hfit; destruct_and?; subst.

Ltac ok_close n p0 p1 offer p2 body p3 answer :=
  exists n, p0, p1, offer, p2, body, p3, answer;
  split_and!; [cbn; reflexivity|lia..|cbn; try done; try lia].

Lemma task_step_ok k v v' : task_ok k v → task_step k v v' → task_ok k v'.
Proof.
  intros Hok Hstep. destruct Hstep; simpl in *.
  - destruct st as [st|]; [|done].
    destruct Hok as (n & q0 & q1 & o1 & q2 & b & q3 & a
                     & Hl & H01 & H12 & H23 & H3c & Hfit).
    exists n, q0, q1, o1, q2, b, q3, a. split_and!; try done; lia.
  - subst l.
    ok_close 1 c c {| sdp := ""; type := "" |} c {| sdp := ""; type := "" |}
             c (JOther "").
  - ok_open Hok. ok_close 2 q0 c offer c b c a.
  - ok_open Hok. ok_close 2 q0 q1 o1 q2 b q3 a.
  - ok_open Hok. ok_close 4 q0 q1 o1 c body c a.
  - ok_open Hok. ok_close 5 q0 q1 o1 q2 b q3 a.
  - ok_open Hok. ok_close 6 q0 q1 o1 q2 b c answer.
  - ok_open Hok. ok_close 6 q0 q1 o1 q2 b q3 a.
  - destruct st; try done; ok_open Hok.
    + ok_close 1 q0 q1 o1 q2 b q3 a.
    + ok_close 2 q0 q1 o1 q2 b q3 a.
    + ok_close 2 q0 q1 o1 q2 b q3 a.
    + ok_close 4 q0 q1 o1 q2 b q3 a.
    + ok_close 5 q0 q1 o1 q2 b q3 a.
    + ok_close 6 q0 q1 o1 q2 b q3 a.
  - ok_open Hok. ok_close 3 q0 q1 o1 c b c a.
Qed.

Lemma moves_ok k v v' : task_ok k v → moves k v v' → task_ok k v'.
Proof. intros Hok Hm. induction Hm; [done|]. eauto using task_step_ok. Qed.

Lemma task_step_settled k c st l v :
  settled st = true → task_step k (c, Some st, l) v →
  ∃ c', v = (c', Some st, l).
Proof.
  intros Hst Hstep. inversion Hstep; simplify_eq/=; try congruence; by eexists.
Qed.

Lemma moves_settled k c st l v :
  settled st = true → moves k (c, Some st, l) v → ∃ c', v = (c', Some st, l).
Proof.
  intros Hst Hm. remember (c, Some st, l) as v0 eqn:E. revert c E.
  induction Hm as [|x y z Hxy Hyz IH]; intros c ->; [by eexists|].
  destruct (task_step_settled _ _ _ _ _ Hst Hxy) as [c' ->]. by eapply IH.
Qed.

Lemma init_task_ok k : task_ok k (task_of k init).
Proof. done. Qed.

Lemma reachable_task_ok es s k : run es init = Some s → task_ok k (task_of k s).
Proof.
  intros Hr. eapply moves_ok; [apply init_task_ok|].
  eapply run_moves; [apply init_channel_inv|done].
Qed.

Lemma steps_of_trace k n p0 p1 offer p2 body p3 answer :
  omap (step_of k) (take n (trace k p0 p1 offer p2 body p3 answer))
  = take n negotiation_order.
Proof.
  unfold trace, negotiation_order.
  destruct n as [|[|[|[|[|[|n]]]]]]; simpl; repeat case_decide; try done.
  by rewrite !take_nil.
Qed.

(** ** What a dispatch does to the negotiations *)

Lemma gathering_complete_on_same q s s' :
  pc s' = pc s → descriptions s' = descriptions s →
  gathering_complete_on q s → gathering_complete_on q s'.
Proof.
  intros Hpc Hd [Hq (o & Ho & Hg)]. split; [congruence|].
  assert (descriptions s' !! q = descriptions s !! q) as Hl by (by rewrite Hd).
  unfold descriptions in Hl. rewrite !list_lookup_fmap, Ho in Hl.
  destruct (pcs s' !! q) as [o'|]; [|done]. exists o'. split; [done|].
  cbn in Hl. congruence.
Qed.

Lemma quiet_refl s : quiet s s.
Proof.
  split; [done|done| |by left]. exists []. rewrite app_nil_r.
  split; [done|]. by intros k q Hin%elem_of_nil.
Qed.

Lemma quiet_trans s1 s2 s3 : quiet s1 s2 → quiet s2 s3 → quiet s1 s3.
Proof.
  intros [P1 D1 (cs1 & C1 & R1) N1] [P2 D2 (cs2 & C2 & R2) N2]. split.
  - congruence.
  - congruence.
  - exists (cs1 ++ cs2). split; [by rewrite C2, C1, app_assoc|].
    intros k q [Hin|Hin]%elem_of_app; [by apply (R1 k)|].
    apply (gathering_complete_on_same q s2); [done|done|by apply (R2 k)].
  - intros k. destruct (N1 k) as [E1|[E1 F1]], (N2 k) as [E2|[E2 F2]].
    + left. congruence.
    + right. split; congruence.
    + right. split; congruence.
    + congruence.
Qed.

Lemma stop_descriptions s : descriptions (stop s) = descriptions s.
Proof.
  unfold descriptions. rewrite stop_pcs. destruct (pc s); [|done].
  by apply fmap_alter_same.
Qed.

Lemma teardown_calls_no_resolution k q s : GatheringResolved k q ∉ teardown_calls s.
Proof.
  unfold teardown_calls. intros Hin.
  apply elem_of_app in Hin as [Hin|Hin].
  { apply list_elem_of_fmap in Hin as (? & ? & _). done. }
  apply elem_of_app in Hin as [Hin|Hin].
  { apply list_elem_of_fmap in Hin as (? & ? & _). done. }
  destruct (pc s); [|by apply elem_of_nil in Hin].
  by apply list_elem_of_singleton in Hin.
Qed.

Lemma quiet_stop s : quiet s (stop s).
Proof.
  split.
  - apply stop_pc.
  - apply stop_descriptions.
  - exists (teardown_calls s). split; [apply stop_calls_exact|].
    intros k q Hin. by apply teardown_calls_no_resolution in Hin.
  - intros k. left. by rewrite stop_negs.
Qed.

(** A callback that leaves [pc], the connections, the calls and the
    negotiations as they are. *)
Lemma quiet_same s s' :
  pc s' = pc s → pcs s' = pcs s → calls s' = calls s → negs s' = negs s →
  quiet s s'.
Proof.
  intros E1 E2 E3 E4. split; [done|unfold descriptions; by rewrite E2| |].
  - exists []. rewrite app_nil_r. split; [done|]. by intros k q Hin%elem_of_nil.
  - intros k. left. by rewrite E4.
Qed.

Lemma quiet_checkState k s :
  Forall pc_wf (pcs s) → quiet s (run_checkState k s).
Proof.
  intros Hwf. unfold run_checkState, cur_pc.
  destruct (pc s) as [p|] eqn:Hp; cbn; [|by apply quiet_same].
  destruct (pcs s !! p) as [o|] eqn:Ho; cbn; [|by apply quiet_same].
  case_decide as Hg; [|apply quiet_refl].
  assert (is_Some (localDescription o)) as [offer Hoffer].
  { apply (wf_gathering o); [by eapply (Forall_lookup_1 _ (pcs s))|].
    by rewrite Hg. }
  unfold resolve_gathering.
  change (negs (removeEventListener p (checkState k) s)) with (negs s).
  assert (descriptions (removeEventListener p (checkState k) s) = descriptions s)
    as Hd by (by apply fmap_alter_same).
  destruct (negs s !! k) as [st|] eqn:Hst.
  2: { split; [done|done| |by left]. cbn. eexists. split; [done|].
       by intros k' q Hin%list_elem_of_singleton. }
  destruct st;
    try (split; [done|done| |by left]; cbn; eexists; split; [done|];
         by intros k' q Hin%list_elem_of_singleton).
  unfold on_gathering_complete, cur_pc. cbn. rewrite Hp. cbn.
  rewrite list_lookup_alter_eq, Ho. cbn. rewrite Hoffer.
  split; [done|done| |].
  - cbn. rewrite <- !app_assoc. eexists. split; [done|].
    intros k' q Hin. cbn in Hin.
    apply elem_of_cons in Hin as [?|Hin]; [done|].
    apply elem_of_cons in Hin as [[= -> ->]|Hin].
    + split; [done|]. by exists o.
    + by apply list_elem_of_singleton in Hin.
  - intros k'. cbn. destruct (decide (k' = k)) as [->|Hne].
    + right. split; [done|]. apply list_lookup_insert_eq.
      by eapply lookup_lt_Some.
    + left. by apply list_lookup_insert_ne.
Qed.

Lemma quiet_listener ev s l :
  Forall pc_wf (pcs s) → quiet s (run_listener ev s l).
Proof.
  intros Hwf. destruct l as [| |k]; simpl.
  - unfold run_onConnectionStateChange.
    destruct (cur_pc s) as [[p o]|]; [|by apply quiet_same].
    destruct (connectionState o); try (by apply quiet_same).
    all: eapply quiet_trans; [|apply quiet_stop]; by apply quiet_same.
  - destruct ev as [|kind stream]; [apply quiet_refl|].
    unfold run_onTrack. case_decide; by apply quiet_same.
  - by apply quiet_checkState.
Qed.

Lemma tos_wf s s' :
  tame_or_stop s s' → Forall pc_wf (pcs s) → Forall pc_wf (pcs s').
Proof.
  intros [[_ Ht]|(s0 & [_ Ht] & ->)] Hwf; [by apply Ht|].
  rewrite stop_pcs. destruct (pc s0); [|by apply Ht].
  apply Forall_alter_wf; [apply pc_wf_clear|by apply Ht].
Qed.

Lemma quiet_foldl ev ls s :
  Forall pc_wf (pcs s) → quiet s (foldl (run_listener ev) s ls).
Proof.
  revert s. induction ls as [|l ls IH]; intros s Hwf; simpl; [apply quiet_refl|].
  eapply quiet_trans; [by apply (quiet_listener ev s l)|].
  apply IH. eapply tos_wf; [apply run_listener_tos|done].
Qed.

Lemma quiet_dispatch ty ev p s :
  Forall pc_wf (pcs s) → quiet s (dispatch ty ev p s).
Proof.
  intros Hwf. unfold dispatch. destruct (pcs s !! p); [|apply quiet_refl].
  by apply quiet_foldl.
Qed.

(** ** What one event does to the calls and to the local descriptions *)

#[global] Arguments teardown_calls : simpl never.
#[global] Arguments stop : simpl never.

Ltac no_mem H :=
  repeat first
    [ apply elem_of_nil in H; destruct H
    | apply teardown_calls_no_resolution in H; destruct H
    | apply elem_of_app in H as [H|H]
    | apply elem_of_cons in H as [H|H]; [discriminate H|] ].

(** Settles [resolves_none s s'] once [s'] has been unfolded to setters and
    teardowns. *)
Ltac no_res :=
  unfold resolves_none; rewrite ?stop_calls_exact; cbn; rewrite <- ?app_assoc;
  first [ exists []; rewrite app_nil_r; split; [reflexivity|]
        | eexists; split; [reflexivity|] ];
  let H := fresh "Hin" in intros ? ? H; no_mem H.

Lemma negotiation_failed_resolves_none k e s :
  resolves_none s (negotiation_failed k e s).
Proof. unfold negotiation_failed. no_res. Qed.

Lemma start_resolves_none s : resolves_none s (start s).
Proof. unfold resolves_none. rewrite start_calls. no_res. Qed.

Lemma stop_resolves_none s : resolves_none s (stop s).
Proof. no_res. Qed.

Lemma requestFrame_resolves_none r s : resolves_none s (requestFrame r s).1.
Proof.
  unfold requestFrame, channel_send.
  destruct (cur_dc s) as [[d o]|]; [case_decide|]; no_res.
Qed.

Lemma on_offer_resolves_none k offer s : resolves_none s (on_offer k offer s).
Proof.
  unfold on_offer, negotiation_failed. cbn. destruct (pc s); no_res.
Qed.

Lemma on_response_resolves_none k r s : resolves_none s (on_response k r s).
Proof. unfold on_response. no_res. Qed.

Lemma on_answer_resolves_none k answer s : resolves_none s (on_answer k answer s).
Proof.
  unfold on_answer, negotiation_failed. cbn. destruct (pc s); no_res.
Qed.

Lemma on_remote_applied_resolves_none k p d s :
  resolves_none s
    (on_remote_applied k (upd_pc p (with_remoteDescription (Some d)) s)).
Proof. unfold on_remote_applied. no_res. Qed.

Lemma dc_onopen_resolves_none d s :
  resolves_none s (dc_onopen (upd_dc d (with_readyState RsOpen) s)).
Proof.
  unfold dc_onopen, cur_dc. cbn. destruct (dc s) as [d'|]; cbn; [|no_res].
  destruct (alter (with_readyState RsOpen) d (dcs s) !! d'); cbn; no_res.
Qed.

Lemma dc_onclose_resolves_none d s :
  resolves_none s (dc_onclose (upd_dc d (with_readyState RsClosed) s)).
Proof.
  unfold dc_onclose, cur_dc. cbn. destruct (dc s) as [d'|]; cbn; [|no_res].
  destruct (alter (with_readyState RsClosed) d (dcs s) !! d'); cbn; [|no_res].
  destruct (dcInterval s); no_res.
Qed.

Lemma dc_onerror_resolves_none error s : resolves_none s (dc_onerror error s).
Proof. unfold dc_onerror. destruct (cur_dc s) as [[]|]; no_res. Qed.

Lemma dc_onmessage_resolves_none now data s :
  resolves_none s (dc_onmessage now data s).
Proof.
  unfold dc_onmessage. destruct (is_pong data); [no_res|].
  destruct (cur_dc s) as [[]|]; no_res.
Qed.

Lemma ping_resolves_none now r s : resolves_none s (ping now r s).
Proof.
  unfold ping, dc_send, channel_send.
  destruct (cur_dc s) as [[d o]|]; [case_decide|]; [destruct r| |]; cbn;
    try destruct (dcInterval s); no_res.
Qed.

Lemma deferred_close_resolves_none v s :
  resolves_none s (deferred_close (set_timeouts v s)).
Proof. unfold deferred_close. cbn. destruct (pc s); no_res. Qed.

Lemma on_local_applied_resolutions k s :
  ∃ cs, calls (on_local_applied k s) = calls s ++ cs
        ∧ ∀ k' q, GatheringResolved k' q ∈ cs →
            pc s = Some q
            ∧ ∃ o, pcs s !! q = Some o ∧ iceGatheringState o = GsComplete.
Proof.
  unfold on_local_applied, cur_pc. cbn.
  destruct (pc s) as [p|] eqn:Hp; cbn;
    [|unfold negotiation_failed; no_res].
  destruct (pcs s !! p) as [o|] eqn:Ho; cbn;
    [|unfold negotiation_failed; no_res].
  case_decide as Hg; [|no_res].
  unfold on_gathering_complete, cur_pc. cbn. rewrite Hp. cbn. rewrite Ho. cbn.
  destruct (localDescription o) as [offer|].
  - cbn. rewrite <- app_assoc. eexists. split; [reflexivity|].
    intros k' q Hin. apply elem_of_cons in Hin as [[= -> ->]|Hin].
    + split; [done|]. by exists o.
    + no_mem Hin.
  - unfold negotiation_failed. rewrite stop_calls_exact. cbn.
    rewrite <- !app_assoc. eexists. split; [reflexivity|].
    intros k' q Hin. apply elem_of_cons in Hin as [[= -> ->]|Hin].
    + split; [done|]. by exists o.
    + no_mem Hin.
Qed.

Lemma on_local_applied_pc k s : pc (on_local_applied k s) = pc s.
Proof.
  unfold on_local_applied, on_gathering_complete, negotiation_failed, cur_pc.
  cbn. destruct (pc s) as [p|] eqn:Hp; cbn; rewrite ?Hp; cbn;
    [|by rewrite stop_pc].
  destruct (pcs s !! p) as [o|] eqn:Ho; cbn; [|by rewrite stop_pc].
  case_decide; [|done]. cbn. rewrite ?Hp. cbn. rewrite ?Ho. cbn.
  destruct (localDescription o); [done|by rewrite stop_pc].
Qed.

Lemma on_local_applied_descriptions k s :
  descriptions (on_local_applied k s) = descriptions s.
Proof.
  unfold on_local_applied, on_gathering_complete, negotiation_failed, cur_pc.
  cbn. destruct (pc s) as [p|] eqn:Hp; cbn; rewrite ?Hp; cbn;
    [|by rewrite stop_descriptions].
  destruct (pcs s !! p) as [o|] eqn:Ho; cbn; [|by rewrite stop_descriptions].
  case_decide.
  - cbn. rewrite ?Hp. cbn. rewrite ?Ho. cbn.
    destruct (localDescription o); [done|by rewrite stop_descriptions].
  - unfold descriptions. cbn. apply fmap_alter_same. intros x.
    by case_decide.
Qed.

(** The waits an event resolves are resolved on a current session that has
    finished gathering. *)
Lemma step_resolutions ev s s' :
  Forall pc_wf (pcs s) → step ev s = Some s' →
  ∃ cs, calls s' = calls s ++ cs
        ∧ ∀ k q, GatheringResolved k q ∈ cs → gathering_complete_on q s'.
Proof.
  assert (∀ x y : state,
            quiet x y →
            ∃ cs, calls y = calls x ++ cs
                  ∧ ∀ k q, GatheringResolved k q ∈ cs → gathering_complete_on q y)
    as Hquiet.
  { intros x y [Q1 Q2 (cs & Q3 & Q4) _]. exists cs. split; [done|].
    intros k q Hin. apply (gathering_complete_on_same q x); [done|done|].
    by apply (Q4 k). }
  assert (∀ y : state,
            resolves_none s y →
            ∃ cs, calls y = calls s ++ cs
                  ∧ ∀ k q, GatheringResolved k q ∈ cs → gathering_complete_on q y)
    as Hnone.
  { intros y (cs & Hcs & Hno). exists cs. split; [done|].
    intros k q Hin. by apply Hno in Hin. }
  intros Hwf. destruct ev; simpl; intros Hs.
  - destruct (startDisabled s); [done|]. injection Hs as <-.
    apply Hnone, start_resolves_none.
  - destruct (requestFrameDisabled s); [done|].
    pose proof (requestFrame_resolves_none r s) as Hr.
    destruct (requestFrame r s) as [s1 [e|]]; cbn [fst] in Hr;
      injection Hs as <-; apply Hnone; [|done].
    destruct Hr as (cs & Hcs & Hno). by exists cs.
  - destruct (stopDisabled s); [done|]. injection Hs as <-.
    apply Hnone, stop_resolves_none.
  - destruct (negs s !! k) as [[]|] eqn:H; try done.
    destruct (live_pc p s); [|done]. injection Hs as <-. apply Hnone.
    destruct r; [apply negotiation_failed_resolves_none
                |apply on_offer_resolves_none].
  - destruct (negs s !! k) as [[]|] eqn:H; try done.
    destruct (live_pc p s); [|done]. injection Hs as <-.
    destruct r; [apply Hnone, negotiation_failed_resolves_none|].
    set (s1 := upd_pc p (with_localDescription (Some offer)) s).
    destruct (on_local_applied_resolutions k s1) as (cs & Hcs & Hres).
    exists cs. split; [exact Hcs|]. intros k' q Hin.
    apply (gathering_complete_on_same q s1);
      [apply on_local_applied_pc|apply on_local_applied_descriptions|].
    by apply (Hres k').
  - destruct (negs s !! k) as [[]|] eqn:H; try done.
    injection Hs as <-. apply Hnone.
    destruct r; [apply negotiation_failed_resolves_none
                |apply on_response_resolves_none].
  - destruct (negs s !! k) as [[]|] eqn:H; try done.
    injection Hs as <-. apply Hnone.
    destruct (resp_json r); [apply negotiation_failed_resolves_none
                            |apply on_answer_resolves_none].
  - destruct (negs s !! k) as [[]|] eqn:H; try done.
    destruct (live_pc p s); [|done].
    destruct r; [injection Hs as <-;
                 apply Hnone, negotiation_failed_resolves_none|].
    destruct answer; [|done]. injection Hs as <-.
    apply Hnone, on_remote_applied_resolves_none.
  - destruct (live_pc p s); [|done].
    destruct (has_local p s) eqn:Hl; [|done]. injection Hs as <-.
    apply (Hquiet (upd_pc p (with_iceGatheringState g) s)).
    apply quiet_dispatch. destruct (tame_gathering p g s Hl) as [_ Ht].
    by apply Ht.
  - destruct (live_pc p s); [|done]. injection Hs as <-.
    apply (Hquiet (upd_pc p (with_connectionState c) s)).
    apply quiet_dispatch.
    destruct (tame_upd_pc p (with_connectionState c) s) as [_ Ht];
      [intros o; by apply pc_wf_same|by apply Ht].
  - destruct (live_pc p s); [|done]. injection Hs as <-.
    apply (Hquiet s). by apply quiet_dispatch.
  - destruct (dcs s !! d); [|done]. case_decide; [|done]. injection Hs as <-.
    apply Hnone, dc_onopen_resolves_none.
  - destruct (dcs s !! d); [|done]. case_decide; [|done]. injection Hs as <-.
    apply Hnone. no_res.
  - destruct (dcs s !! d); [|done]. case_decide; [done|]. injection Hs as <-.
    apply Hnone, dc_onclose_resolves_none.
  - destruct (dcs s !! d); [|done]. case_decide; [done|]. injection Hs as <-.
    apply Hnone, dc_onerror_resolves_none.
  - destruct (dcs s !! d); [|done]. case_decide; [|done]. injection Hs as <-.
    apply Hnone, dc_onmessage_resolves_none.
  - case_decide; [|done]. injection Hs as <-. apply Hnone, ping_resolves_none.
  - case_decide; [|done]. injection Hs as <-.
    apply Hnone, deferred_close_resolves_none.
Qed.

(** ** Local descriptions stay *)

Lemma local_kept_same s s' : locals s' = locals s → local_kept s s'.
Proof.
  intros E p o Ho Hl.
  assert (locals s' !! p = locals s !! p) as El by (by rewrite E).
  unfold locals in El. rewrite !list_lookup_fmap, Ho in El.
  destruct (pcs s' !! p) as [o'|]; [|done]. exists o'. split; [done|].
  cbn in El. by injection El as ->.
Qed.

Lemma local_kept_trans s1 s2 s3 :
  local_kept s1 s2 → local_kept s2 s3 → local_kept s1 s3.
Proof.
  intros H12 H23 p o Ho Hl. destruct (H12 p o Ho Hl) as (o2 & Ho2 & Hl2).
  by apply (H23 p o2).
Qed.

Lemma locals_descriptions s s' :
  descriptions s' = descriptions s → locals s' = locals s.
Proof.
  intros E. unfold locals.
  assert (∀ x, localDescription <$> pcs x = (λ d, d.1.2) <$> descriptions x)
    as Hx.
  { intros x. unfold descriptions. rewrite <- list_fmap_compose.
    by apply list_fmap_ext. }
  by rewrite !Hx, E.
Qed.

Lemma stop_locals s : locals (stop s) = locals s.
Proof. apply locals_descriptions, stop_descriptions. Qed.

Ltac locals_solve :=
  unfold locals; rewrite ?stop_pcs; cbn;
  repeat match goal with |- context [match pc ?s with _ => _ end] =>
           destruct (pc s) end;
  try done; rewrite ?fmap_alter_same by done; try done.

Lemma negotiation_failed_locals k e s : locals (negotiation_failed k e s) = locals s.
Proof. unfold negotiation_failed. by rewrite stop_locals. Qed.

Lemma on_offer_locals k offer s : locals (on_offer k offer s) = locals s.
Proof.
  unfold on_offer. cbn. destruct (pc s); [done|].
  by rewrite negotiation_failed_locals.
Qed.

Lemma on_answer_locals k answer s : locals (on_answer k answer s) = locals s.
Proof.
  unfold on_answer. cbn. destruct (pc s); [done|].
  by rewrite negotiation_failed_locals.
Qed.

Lemma upd_pc_locals p f s :
  (∀ o, localDescription (f o) = localDescription o) →
  locals (upd_pc p f s) = locals s.
Proof. intros Hf. unfold locals. cbn. by apply fmap_alter_same. Qed.

Lemma requestFrame_pcs r s : pcs (requestFrame r s).1 = pcs s.
Proof.
  unfold requestFrame, channel_send.
  destruct (cur_dc s) as [[d o]|]; [case_decide|]; done.
Qed.

Lemma dc_onopen_pcs s : pcs (dc_onopen s) = pcs s.
Proof. unfold dc_onopen. by destruct (cur_dc s) as [[]|]. Qed.

Lemma dc_onclose_pcs s : pcs (dc_onclose s) = pcs s.
Proof.
  unfold dc_onclose. destruct (cur_dc s) as [[]|]; [|done]. cbn.
  by destruct (dcInterval s).
Qed.

Lemma dc_onerror_pcs error s : pcs (dc_onerror error s) = pcs s.
Proof. unfold dc_onerror. by destruct (cur_dc s) as [[]|]. Qed.

Lemma dc_onmessage_pcs now data s : pcs (dc_onmessage now data s) = pcs s.
Proof.
  unfold dc_onmessage. destruct (is_pong data); [done|].
  by destruct (cur_dc s) as [[]|].
Qed.

Lemma ping_pcs now r s : pcs (ping now r s) = pcs s.
Proof.
  unfold ping, dc_send, channel_send.
  destruct (cur_dc s) as [[d o]|]; [case_decide|]; [destruct r| |]; cbn;
    try destruct (dcInterval s); done.
Qed.

Lemma deferred_close_locals s : locals (deferred_close s) = locals s.
Proof.
  unfold deferred_close, locals. destruct (pc s); [|done]. cbn.
  by apply fmap_alter_same.
Qed.

Lemma local_kept_set p offer s :
  local_kept s (upd_pc p (with_localDescription (Some offer)) s).
Proof.
  intros q o Ho Hl. cbn. rewrite list_lookup_alter. case_decide.
  - subst q. rewrite Ho. cbn. eexists. split; [done|]. by eexists.
  - by exists o.
Qed.

Lemma local_kept_start s : local_kept s (start s).
Proof.
  intros q o Ho Hl. rewrite start_pcs. exists o. split; [|done].
  by apply lookup_app_l_Some.
Qed.

(** A connection that has a local description keeps one. *)
Lemma step_local_kept ev s s' :
  Forall pc_wf (pcs s) → step ev s = Some s' → local_kept s s'.
Proof.
  intros Hwf. destruct ev; simpl; intros Hs.
  - destruct (startDisabled s); [done|]. injection Hs as <-.
    apply local_kept_start.
  - destruct (requestFrameDisabled s); [done|].
    pose proof (requestFrame_pcs r s) as Hr.
    destruct (requestFrame r s) as [s1 [e|]]; cbn [fst] in Hr;
      injection Hs as <-; apply local_kept_same; unfold locals; cbn;
      by rewrite Hr.
  - destruct (stopDisabled s); [done|]. injection Hs as <-.
    apply local_kept_same, stop_locals.
  - destruct (negs s !! k) as [[]|] eqn:H; try done.
    destruct (live_pc p s); [|done]. injection Hs as <-.
    apply local_kept_same.
    destruct r; [apply negotiation_failed_locals|apply on_offer_locals].
  - destruct (negs s !! k) as [[]|] eqn:H; try done.
    destruct (live_pc p s); [|done]. injection Hs as <-.
    destruct r; [apply local_kept_same, negotiation_failed_locals|].
    eapply local_kept_trans; [apply (local_kept_set p offer)|].
    apply local_kept_same, locals_descriptions, on_local_applied_descriptions.
  - destruct (negs s !! k) as [[]|] eqn:H; try done.
    injection Hs as <-. apply local_kept_same.
    destruct r; [apply negotiation_failed_locals|done].
  - destruct (negs s !! k) as [[]|] eqn:H; try done.
    injection Hs as <-. apply local_kept_same.
    destruct (resp_json r); [apply negotiation_failed_locals
                            |apply on_answer_locals].
  - destruct (negs s !! k) as [[]|] eqn:H; try done.
    destruct (live_pc p s); [|done].
    destruct r; [injection Hs as <-;
                 apply local_kept_same, negotiation_failed_locals|].
    destruct answer; [|done]. injection Hs as <-.
    apply local_kept_same.
    by apply (upd_pc_locals p (with_remoteDescription (Some d))).
  - destruct (live_pc p s); [|done].
    destruct (has_local p s) eqn:Hl; [|done]. injection Hs as <-.
    eapply local_kept_trans.
    + apply local_kept_same.
      by apply (upd_pc_locals p (with_iceGatheringState g)).
    + apply local_kept_same, locals_descriptions, quiet_descriptions.
      apply quiet_dispatch. destruct (tame_gathering p g s Hl) as [_ Ht].
      by apply Ht.
  - destruct (live_pc p s); [|done]. injection Hs as <-.
    eapply local_kept_trans.
    + apply local_kept_same.
      by apply (upd_pc_locals p (with_connectionState c)).
    + apply local_kept_same, locals_descriptions, quiet_descriptions.
      apply quiet_dispatch.
      destruct (tame_upd_pc p (with_connectionState c) s) as [_ Ht];
        [intros o; by apply pc_wf_same|by apply Ht].
  - destruct (live_pc p s); [|done]. injection Hs as <-.
    apply local_kept_same, locals_descriptions, quiet_descriptions.
    by apply quiet_dispatch.
  - destruct (dcs s !! d); [|done]. case_decide; [|done]. injection Hs as <-.
    apply local_kept_same. unfold locals. by rewrite dc_onopen_pcs.
  - destruct (dcs s !! d); [|done]. case_decide; [|done]. injection Hs as <-.
    by apply local_kept_same.
  - destruct (dcs s !! d); [|done]. case_decide; [done|]. injection Hs as <-.
    apply local_kept_same. unfold locals. by rewrite dc_onclose_pcs.
  - destruct (dcs s !! d); [|done]. case_decide; [done|]. injection Hs as <-.
    apply local_kept_same. unfold locals. by rewrite dc_onerror_pcs.
  - destruct (dcs s !! d); [|done]. case_decide; [|done]. injection Hs as <-.
    apply local_kept_same. unfold locals. by rewrite dc_onmessage_pcs.
  - case_decide; [|done]. injection Hs as <-.
    apply local_kept_same. unfold locals. by rewrite ping_pcs.
  - case_decide; [|done]. injection Hs as <-.
    apply local_kept_same.
    apply (deferred_close_locals (set_timeouts _ s)).
Qed.

Lemma step_resolved_have_local ev s s' :
  page_inv s → resolved_have_local s → step ev s = Some s' →
  resolved_have_local s'.
Proof.
  intros Hinv Hs Hstep k q Hin.
  pose proof (step_page_inv _ _ _ Hinv Hstep) as Hinv'.
  destruct (step_resolutions ev s s' (inv_pcs s Hinv) Hstep) as (cs & Hcs & Hres).
  rewrite Hcs in Hin. apply elem_of_app in Hin as [Hin|Hin].
  - destruct (Hs k q Hin) as (o & Ho & Hl).
    by apply (step_local_kept ev s s' (inv_pcs s Hinv) Hstep q o).
  - destruct (Hres k q Hin) as [_ (o & Ho & Hg)]. exists o. split; [done|].
    apply (wf_gathering o); [|by rewrite Hg].
    by eapply (Forall_lookup_1 _ (pcs s')), Ho; apply (inv_pcs s' Hinv').
Qed.

Lemma run_resolved_have_local es s s' :
  page_inv s → resolved_have_local s → run es s = Some s' →
  resolved_have_local s'.
Proof.
  revert s. induction es as [|e es IH]; intros s Hinv Hs; simpl.
  - by intros [= <-].
  - destruct (step e s) as [s1|] eqn:He; [|done]. simpl. intros Hr.
    apply (IH s1); [by eapply step_page_inv|by eapply step_resolved_have_local|done].
Qed.

Lemma reachable_resolved_have_local s : reachable s → resolved_have_local s.
Proof.
  intros [es Hr]. eapply run_resolved_have_local; [apply init_page_inv| |done].
  by intros k q Hin%elem_of_nil.
Qed.

(** ** The order of the steps of a negotiation *)

Lemma steps_of_task_ok k s :
  task_ok k (task_of k s) →
  (∃ n, steps_of k (calls s) = take n negotiation_order)
  ∧ (∀ st n, negs s !! k = Some st → progress st = Some n →
       steps_of k (calls s) = take n negotiation_order).
Proof.
  unfold task_ok, task_of. rewrite steps_of_calls_of.
  destruct (negs s !! k) as [st|].
  - intros (n & p0 & p1 & offer & p2 & body & p3 & answer & -> & _ & _ & _ & _
            & Hfit).
    rewrite steps_of_trace. split; [by exists n|].
    intros st' m [= <-] Hm.
    destruct st; cbn in Hfit, Hm; destruct_and?; by simplify_eq.
  - intros ->. split; [by exists 0|done].
Qed.

Lemma elem_of_calls_of k c cs :
  c ∈ calls_of k cs ↔ is_Some (step_of k c) ∧ c ∈ cs.
Proof. unfold calls_of. by rewrite list_elem_of_filter. Qed.

(** The application of the answer is the last call of a negotiation. *)
Lemma trace_applied k n p0 p1 offer p2 body p3 answer p a :
  SetRemoteDescription k p a ∈ take n (trace k p0 p1 offer p2 body p3 answer) →
  take n (trace k p0 p1 offer p2 body p3 answer)
  = trace k p0 p1 offer p2 body p3 answer
  ∧ p = p3 ∧ a = answer.
Proof.
  unfold trace. intros Hin.
  do 6 (destruct n as [|n];
        [cbn in Hin;
         repeat (apply elem_of_cons in Hin as [Hin|Hin]; [discriminate Hin|]);
         by apply elem_of_nil in Hin|]).
  cbn in *. rewrite take_nil in *. split; [done|].
  do 5 (apply elem_of_cons in Hin as [Hin|Hin]; [discriminate Hin|]).
  apply list_elem_of_singleton in Hin. by injection Hin as -> ->.
Qed.

(** The wait that a call of the negotiation resolved is in its trace. *)
Lemma trace_resolved k p0 p1 offer p2 body p3 answer :
  GatheringResolved k p2 ∈ trace k p0 p1 offer p2 body p3 answer.
Proof.
  unfold trace. apply list_elem_of_further, list_elem_of_further,
    list_elem_of_here.
Qed.



(** C1, as the spec has it, fails: a negotiation applies the answer to
    whatever session is current when the answer arrives.  After Disconnect
    and Start the answer to the offer of the first session is applied to
    the second one, which has not finished gathering. *)
Lemma answer_applied_before_gathering : ¬ remote_after_local_and_gathering.
Proof.
  intros Hclaim.
  pose (s := default init (run crossed_run init)).
  pose (s' := default init (step (RemoteSettled 0 None) s)).
  destruct (Hclaim s 0 1 answer1 s') as (o & Ho & _ & Hg).
  - exists crossed_run. vm_compute. reflexivity.
  - vm_compute. reflexivity.
  - vm_compute. reflexivity.
  - vm_compute in Ho. injection Ho as <-. discriminate Hg.
Qed.

(** Seen from the page: the first negotiation is fulfilled, its offer was
    created on the first connection, which has no remote description, and
    its answer is the remote description of the second connection, whose
    gathering has not begun. *)
Lemma crossed_sessions :
  ∃ s s', run crossed_run init = Some s
    ∧ step (RemoteSettled 0 None) s = Some s'
    ∧ negs s' !! 0 = Some Fulfilled
    ∧ steps_of 0 (calls s') = negotiation_order
    ∧ CreateOffer 0 0 ∈ calls s'
    ∧ SetRemoteDescription 0 1 (JDescription answer1) ∈ calls s'
    ∧ remoteDescription <$> pcs s' !! 0 = Some None
    ∧ remoteDescription <$> pcs s' !! 1 = Some (Some answer1)
    ∧ iceGatheringState <$> pcs s' !! 1 = Some GsNew.
Proof.
  eexists _, _. split; [vm_compute; reflexivity|].
  split; [vm_compute; reflexivity|].
  split; [vm_compute; reflexivity|].
  split; [vm_compute; reflexivity|].
  split; [vm_compute; apply list_elem_of_In; cbn; tauto|].
  split; [vm_compute; apply list_elem_of_In; cbn; tauto|].
  by vm_compute.
Qed.

(** ** Failures of a negotiation *)

Lemma stop_logs_exact s :
  ∃ after, logs (stop s)
           = logs s ++ "Stop connection button clicked / Starting stop process"
                       :: after.
Proof. stop_cases s; rewrite <- ?app_assoc; cbn; eauto. Qed.

Lemma teardown_calls_same s s' :
  dcInterval s' = dcInterval s → dc s' = dc s → pc s' = pc s →
  next_timer s' = next_timer s → teardown_calls s' = teardown_calls s.
Proof. unfold teardown_calls. by intros -> -> -> ->. Qed.

Lemma negotiation_failed_negs k e s :
  negs (negotiation_failed k e s) = <[k := Caught e]> (negs s).
Proof. unfold negotiation_failed. by rewrite stop_negs. Qed.

Lemma settled_page_fields s p :
  pc s = Some p →
  pc (settled_page s) = None
  ∧ pcs (settled_page s) = alter close_connection p (pcs s)
  ∧ intervals (settled_page s) = intervals s
  ∧ dcInterval (settled_page s) = dcInterval s
  ∧ dc (settled_page s) = dc s
  ∧ timeouts (settled_page s) = []
  ∧ srcObject (settled_page s) = srcObject s.
Proof. unfold settled_page, deferred_close. by intros ->. Qed.

(** Once teardown has run, the deferred closes close the session and
    nothing is left. *)
Lemma torn_down_after s p :
  channel_inv s → pc s = Some p → timeouts s ≠ [] →
  dcInterval s = None → intervals s = [] → dc s = None → srcObject s = None →
  ∃ t, run (pending_closes s) s = Some t ∧ closed_in p t ∧ torn_down t.
Proof.
  intros Hinv Hp Hto Hi Hint Hd Hsrc. exists (settled_page s).
  split; [apply run_pending; [apply (inv_timeouts s Hinv)|by right]|].
  destruct (settled_page_fields s p Hp) as (E1 & E2 & E3 & E4 & E5 & E6 & E7).
  split.
  - pose proof (inv_pc s Hinv p Hp) as Hlt.
    apply lookup_lt_is_Some in Hlt as [o Ho].
    exists (close_connection o). rewrite E2, list_lookup_alter_eq, Ho.
    by split.
  - unfold torn_down. by rewrite E1, E3, E4, E5, E6, E7, Hi, Hint, Hd, Hsrc.
Qed.

(** The [catch] callback, run on a page that differs from [s] by log lines
    only. *)
Lemma negotiation_failed_caught k e s s1 before :
  channel_inv s → channel_inv (negotiation_failed k e s1) →
  logs s1 = logs s ++ before → negs s1 = negs s → calls s1 = calls s →
  errors s1 = errors s → dc s1 = dc s → dcInterval s1 = dcInterval s →
  intervals s1 = intervals s → dcs s1 = dcs s → pc s1 = pc s →
  timeouts s1 = timeouts s → next_timer s1 = next_timer s →
  caught k e s (negotiation_failed k e s1).
Proof.
  intros Hinv Hinv' Hlogs Hnegs Hcalls Herr Hdc Hi Hint Hdcs Hpc Hto Hnt.
  revert Hinv'. unfold negotiation_failed.
  set (s2 := alert _ (log _ (set_stage k (Caught e) s1))).
  assert (negs s2 = <[k:=Caught e]> (negs s)) as E1 by (by rewrite <- Hnegs).
  assert (logs s2 = logs s ++ before ++ ["Negotiation failed: " +:+ e]) as E2.
  { unfold s2. cbn. by rewrite Hlogs, <- app_assoc. }
  assert (calls s2 = calls s ++ [Alert ("Negotiation failed: " +:+ e)]) as E3
    by (by rewrite <- Hcalls).
  assert (errors s2 = errors s) as E4 by (by rewrite <- Herr).
  assert (dcInterval s2 = dcInterval s) as E5 by (by rewrite <- Hi).
  assert (dc s2 = dc s) as E6 by (by rewrite <- Hdc).
  assert (dcs s2 = dcs s) as E7 by (by rewrite <- Hdcs).
  assert (pc s2 = pc s) as E8 by (by rewrite <- Hpc).
  assert (timeouts s2 = timeouts s) as E10 by (by rewrite <- Hto).
  assert (next_timer s2 = next_timer s) as E11 by (by rewrite <- Hnt).
  assert (intervals s2 = intervals s) as E12 by (by rewrite <- Hint).
  clearbody s2. intros Hinv'.
  assert (intervals (stop s2) = []) as Hnone.
  { rewrite stop_intervals, E5, E12. pose proof (inv_keepalive s Hinv) as Hk.
    destruct (dcInterval s) as [t|]; [|done]. destruct Hk as [-> _].
    by rewrite filter_cons, decide_False by (by intros ?). }
  split.
  - by rewrite stop_negs.
  - destruct (stop_logs_exact s2) as [after ->]. rewrite E2.
    exists before, after. by rewrite <- !app_assoc.
  - rewrite stop_calls_exact, E3, <- app_assoc.
    by rewrite (teardown_calls_same s s2).
  - by rewrite stop_errors.
  - by rewrite stop_dcInterval.
  - by rewrite stop_dc, stop_dcs, E6, E7.
  - by rewrite stop_pc, stop_timeouts, E8, E10, E11.
  - rewrite stop_srcObject. by destruct (stop_buttons s2) as (-> & -> & ->).
  - intros p Hp. apply torn_down_after.
    + exact Hinv'.
    + by rewrite stop_pc, E8.
    + rewrite stop_timeouts, E8, Hp. by intros [_ ?]%app_eq_nil.
    + apply stop_dcInterval.
    + exact Hnone.
    + apply stop_dc.
    + apply stop_srcObject.
Qed.

(** A stage that is not settled turns into [Caught] only where it is set. *)
Lemma insert_caught k k0 v e st (l : list stage) :
  l !! k = Some st → settled st = false →
  <[k0 := v]> l !! k = Some (Caught e) → k0 = k ∧ v = Caught e.
Proof.
  intros Hst Hs. destruct (decide (k0 = k)) as [->|Hne].
  - rewrite list_lookup_insert_eq by (by eapply lookup_lt_Some).
    by intros [= ->].
  - rewrite list_lookup_insert_ne by done. rewrite Hst. intros [= ->]. done.
Qed.

Lemma same_not_caught k e st (l l' : list stage) :
  l !! k = Some st → settled st = false → l' !! k = l !! k →
  l' !! k ≠ Some (Caught e).
Proof. intros Hst Hs ->. rewrite Hst. by intros [= ->]. Qed.

Lemma task_negs k s s' : task_of k s' = task_of k s → negs s' !! k = negs s !! k.
Proof. unfold task_of. by intros [= _ ? _]. Qed.

Lemma on_local_applied_caught k0 s k e st :
  Forall pc_wf (pcs s) → (∀ p, pc s = Some p → p < length (pcs s)) →
  negs s !! k = Some st → settled st = false →
  negs (on_local_applied k0 s) !! k = Some (Caught e) →
  k0 = k ∧ pc s = None ∧ e = TypeError_null.
Proof.
  intros Hwf Hlt Hst Hs. unfold on_local_applied, cur_pc. cbn.
  destruct (pc s) as [p|] eqn:Hp; cbn.
  - destruct (lookup_lt_is_Some_2 (pcs s) p) as [o Ho]; [by apply Hlt|].
    rewrite Ho. cbn. case_decide as Hg.
    + unfold on_gathering_complete, cur_pc. cbn. rewrite Hp. cbn. rewrite Ho. cbn.
      assert (is_Some (localDescription o)) as [offer ->].
      { apply (wf_gathering o); [by eapply (Forall_lookup_1 _ (pcs s))|].
        by rewrite Hg. }
      cbn. rewrite list_insert_insert_eq.
      by intros [_ [=]]%(insert_caught k k0 _ e st).
    + cbn. by intros [_ [=]]%(insert_caught k k0 _ e st).
  - rewrite negotiation_failed_negs. cbn.
    by intros [-> [= ->]]%(insert_caught k k0 _ e st).
Qed.

(** A negotiation that was under way is [Caught] after an event only when
    the event made one of its steps fail. *)
Lemma step_caught_fails ev s s' k e st :
  page_inv s → channel_inv s →
  negs s !! k = Some st → settled st = false →
  step ev s = Some s' → negs s' !! k = Some (Caught e) →
  fails_at k e s st ev.
Proof.
  intros Hpage Hchan Hst Hs.
  pose proof (same_not_caught k e st (negs s)) as Hsame.
  assert (∀ x : state, quiet s x → negs x !! k ≠ Some (Caught e)) as Hquiet.
  { intros x Hq. destruct (quiet_negs s x Hq k) as [E|[_ E]].
    - by apply (Hsame (negs x)).
    - rewrite E. by intros [=]. }
  assert (∀ x y : state, negs x = negs s → quiet x y →
            negs y !! k ≠ Some (Caught e)) as Hquiet'.
  { intros x y Hx Hq. destruct (quiet_negs x y Hq k) as [E|[_ E]].
    - apply (Hsame (negs y)); try done. by rewrite E, Hx.
    - rewrite E. by intros [=]. }
  destruct ev; simpl; intros Hstep Hc.
  - destruct (startDisabled s); [done|]. injection Hstep as <-.
    rewrite start_negs, lookup_app_l in Hc by (by eapply lookup_lt_Some).
    by apply Hsame in Hc.
  - destruct (requestFrameDisabled s); [done|].
    pose proof (task_negs k _ _ (requestFrame_task k r s)) as Hr.
    destruct (requestFrame r s) as [s1 [e1|]]; cbn [fst] in Hr;
      injection Hstep as <-; by apply Hsame in Hc.
  - destruct (stopDisabled s); [done|]. injection Hstep as <-.
    rewrite stop_negs in Hc. by apply Hsame in Hc.
  - destruct (negs s !! k0) as [[]|] eqn:H; try done.
    destruct (live_pc p s) eqn:Hlive; [|done]. injection Hstep as <-.
    destruct r as [e0|offer].
    + rewrite negotiation_failed_negs in Hc.
      apply (insert_caught k k0 _ e st) in Hc as [-> [= <-]]; try done.
      rewrite H in Hst. injection Hst as <-. by apply fail_create.
    + unfold on_offer in Hc. cbn in Hc. destruct (pc s) eqn:Hp.
      * cbn in Hc. by apply (insert_caught k k0 _ e st) in Hc as [_ [=]].
      * rewrite negotiation_failed_negs in Hc. cbn in Hc.
        apply (insert_caught k k0 _ e st) in Hc as [-> [= <-]]; try done.
        rewrite H in Hst. injection Hst as <-. by apply fail_offer_null.
  - destruct (negs s !! k0) as [[]|] eqn:H; try done.
    destruct (live_pc p s) eqn:Hlive; [|done]. injection Hstep as <-.
    destruct r as [e0|].
    + rewrite negotiation_failed_negs in Hc.
      apply (insert_caught k k0 _ e st) in Hc as [-> [= <-]]; try done.
      rewrite H in Hst. injection Hst as <-. by apply fail_local.
    + apply (on_local_applied_caught k0 _ k e st) in Hc
        as (-> & Hp & ->); try done.
      * rewrite H in Hst. injection Hst as <-. by apply fail_wait.
      * cbn. apply Forall_alter_wf; [apply pc_wf_local|apply (inv_pcs s Hpage)].
      * cbn. rewrite length_alter. apply (inv_pc s Hchan).
  - destruct (negs s !! k0) as [[]|] eqn:H; try done. injection Hstep as <-.
    destruct r as [e0|resp].
    + rewrite negotiation_failed_negs in Hc.
      apply (insert_caught k k0 _ e st) in Hc as [-> [= <-]]; try done.
      rewrite H in Hst. injection Hst as <-. by apply fail_request.
    + unfold on_response in Hc. cbn in Hc.
      by apply (insert_caught k k0 _ e st) in Hc as [_ [=]].
  - destruct (negs s !! k0) as [[]|] eqn:H; try done. injection Hstep as <-.
    destruct (resp_json r) as [e0|answer] eqn:Hj.
    + rewrite negotiation_failed_negs in Hc.
      apply (insert_caught k k0 _ e st) in Hc as [-> [= <-]]; try done.
      rewrite H in Hst. injection Hst as <-. by apply fail_response.
    + unfold on_answer in Hc. cbn in Hc. destruct (pc s) eqn:Hp.
      * cbn in Hc. by apply (insert_caught k k0 _ e st) in Hc as [_ [=]].
      * rewrite negotiation_failed_negs in Hc. cbn in Hc.
        apply (insert_caught k k0 _ e st) in Hc as [-> [= <-]]; try done.
        rewrite H in Hst. injection Hst as <-.
        by apply (fail_answer_null _ _ _ r answer).
  - destruct (negs s !! k0) as [[]|] eqn:H; try done.
    destruct (live_pc p s) eqn:Hlive; [|done].
    destruct r as [e0|].
    + injection Hstep as <-. rewrite negotiation_failed_negs in Hc.
      apply (insert_caught k k0 _ e st) in Hc as [-> [= <-]]; try done.
      rewrite H in Hst. injection Hst as <-. by apply fail_remote.
    + destruct answer; [|done]. injection Hstep as <-.
      unfold on_remote_applied in Hc. cbn in Hc.
      by apply (insert_caught k k0 _ e st) in Hc as [_ [=]].
  - destruct (live_pc p s); [|done].
    destruct (has_local p s) eqn:Hl; [|done]. injection Hstep as <-.
    exfalso. revert Hc.
    apply (Hquiet' (upd_pc p (with_iceGatheringState g) s)); [done|].
    apply quiet_dispatch. destruct (tame_gathering p g s Hl) as [_ Ht].
    apply Ht, (inv_pcs s Hpage).
  - destruct (live_pc p s); [|done]. injection Hstep as <-.
    exfalso. revert Hc.
    apply (Hquiet' (upd_pc p (with_connectionState c) s)); [done|].
    apply quiet_dispatch.
    destruct (tame_upd_pc p (with_connectionState c) s) as [_ Ht];
      [intros o; by apply pc_wf_same|apply Ht, (inv_pcs s Hpage)].
  - destruct (live_pc p s); [|done]. injection Hstep as <-.
    exfalso. revert Hc. apply Hquiet, quiet_dispatch, (inv_pcs s Hpage).
  - destruct (dcs s !! d); [|done]. case_decide; [|done]. injection Hstep as <-.
    rewrite (task_negs k _ _ (dc_onopen_task k _)) in Hc. by apply Hsame in Hc.
  - destruct (dcs s !! d); [|done]. case_decide; [|done]. injection Hstep as <-.
    by apply Hsame in Hc.
  - destruct (dcs s !! d); [|done]. case_decide; [done|]. injection Hstep as <-.
    rewrite (task_negs k _ _ (dc_onclose_task k _)) in Hc. by apply Hsame in Hc.
  - destruct (dcs s !! d); [|done]. case_decide; [done|]. injection Hstep as <-.
    rewrite (task_negs k _ _ (dc_onerror_task k _ _)) in Hc.
    by apply Hsame in Hc.
  - destruct (dcs s !! d); [|done]. case_decide; [|done]. injection Hstep as <-.
    rewrite (task_negs k _ _ (dc_onmessage_task k _ _ _)) in Hc.
    by apply Hsame in Hc.
  - case_decide; [|done]. injection Hstep as <-.
    rewrite (task_negs k _ _ (ping_task k _ _ _)) in Hc. by apply Hsame in Hc.
  - case_decide; [|done]. injection Hstep as <-.
    unfold deferred_close in Hc. cbn in Hc.
    destruct (pc s); by apply Hsame in Hc.
Qed.

Lemma cur_pc_None s : pc s = None → cur_pc s = None.
Proof. unfold cur_pc. by intros ->. Qed.

(** Each failure reaches the [catch] callback, on a page that differs from
    the one before the event by log lines and, after [setLocalDescription]
    was fulfilled, by the local description. *)
Lemma fails_at_step k e s st ev :
  negs s !! k = Some st → fails_at k e s st ev →
  ∃ s1 before,
    step ev s = Some (negotiation_failed k e s1)
    ∧ logs s1 = logs s ++ before ∧ negs s1 = negs s ∧ calls s1 = calls s
    ∧ errors s1 = errors s ∧ dc s1 = dc s ∧ dcInterval s1 = dcInterval s
    ∧ intervals s1 = intervals s ∧ dcs s1 = dcs s ∧ pc s1 = pc s
    ∧ timeouts s1 = timeouts s ∧ next_timer s1 = next_timer s
    ∧ pcs s1 = connections_at_failure st ev s.
Proof.
  intros Hst Hf.
  destruct Hf as [p Hlive|p offer Hlive Hp ->|p offer Hlive|p offer Hlive Hp ->
                 | |r Hj|r answer Hj Hp ->|p answer Hlive]; simpl; rewrite Hst.
  - rewrite Hlive. exists s, []. rewrite app_nil_r. by split_and!.
  - rewrite Hlive. unfold on_offer. cbv zeta.
    change (pc (log ?m s)) with (pc s). rewrite Hp.
    eexists _, ["Offer creation successful"]. by split_and!.
  - rewrite Hlive. exists s, []. rewrite app_nil_r. by split_and!.
  - rewrite Hlive. unfold on_local_applied. cbv zeta.
    rewrite cur_pc_None by done.
    eexists _, ["Local Description setting successful"]. by split_and!.
  - exists s, []. rewrite app_nil_r. by split_and!.
  - rewrite Hj. exists s, []. rewrite app_nil_r. by split_and!.
  - rewrite Hj. unfold on_answer. cbv zeta.
    change (pc (log ?m s)) with (pc s). rewrite Hp.
    eexists _, ["Answer setting started"]. by split_and!.
  - rewrite Hlive. destruct answer; exists s, []; rewrite app_nil_r;
      by split_and!.
Qed.

Lemma fails_at_unsettled k e s st ev : fails_at k e s st ev → settled st = false.
Proof. by intros []. Qed.

(** [checkState] run with [pc] null throws, and nothing catches it. *)
Lemma set_errors_twice v w s : set_errors v (set_errors w s) = set_errors v s.
Proof. done. Qed.

Lemma foldl_checkStates_throw (ls : list listener) s :
  Forall is_checkState ls → pc s = None →
  foldl (run_listener NoPayload) s ls
  = set_errors (errors s ++ replicate (length ls) TypeError_null) s.
Proof.
  intros Hall. revert s. induction Hall as [|l ls [k ->] _ IH]; intros s Hp.
  - simpl. rewrite app_nil_r. by destruct s.
  - simpl. unfold run_checkState. rewrite cur_pc_None by done.
    unfold uncaught. rewrite IH by done.
    rewrite set_errors_twice. cbn. by rewrite <- app_assoc.
Qed.

Lemma handlers_gathering_same g o :
  handlers icegatheringstatechange (with_iceGatheringState g o)
  = handlers icegatheringstatechange o.
Proof. done. Qed.

(** Each failure is caught, and the teardown runs. *)
Lemma negotiation_failed_reaches s k st ev e :
  reachable s → negs s !! k = Some st → fails_at k e s st ev →
  ∃ s', step ev s = Some s' ∧ caught k e s s'
        ∧ pcs s' = (if pc s is Some p
                    then alter clear_handler_attributes p
                           (connections_at_failure st ev s)
                    else connections_at_failure st ev s).
Proof.
  intros Hreach Hst Hf.
  pose proof (reachable_channel_inv s Hreach) as Hchan.
  destruct (fails_at_step k e s st ev Hst Hf)
    as (s1 & before & Hstep & E1 & E2 & E3 & E4 & E5 & E6 & E7 & E8 & E9
        & E10 & E11 & E12).
  exists (negotiation_failed k e s1). split; [exact Hstep|]. split.
  - apply (negotiation_failed_caught k e s s1 before); try done.
    by apply (step_channel_inv ev s).
  - unfold negotiation_failed. rewrite stop_pcs.
    change (pc (alert ?m (log ?m' (set_stage k (Caught e) s1)))) with (pc s1).
    change (pcs (alert ?m (log ?m' (set_stage k (Caught e) s1)))) with (pcs s1).
    by rewrite E9, E12.
Qed.



(** C2, as the spec has it, fails: the exception of [checkState] is a
    failure of the gathering wait that no [catch] sees.  On the page left by
    Disconnect, Start and the deferred close, the first connection, never
    closed, reports that gathering is complete; the listener throws, the
    negotiation is not over and nothing is shown. *)
Lemma listener_exception_is_not_caught : ¬ every_failure_is_caught.
Proof.
  intros Hclaim.
  pose (s' := default init
                (step (GatheringStateChange 0 GsComplete) orphaned_page)).
  destruct (Hclaim orphaned_page 0 AwaitGathering
              (GatheringStateChange 0 GsComplete) TypeError_null s')
    as [Hc _].
  - exists [ClickStart; OfferSettled 0 (inr offer0); LocalSettled 0 None;
            ClickStop; ClickStart; TimeoutFired 1]. vm_compute. reflexivity.
  - vm_compute. reflexivity.
  - apply (throw_listener _ _ _ 0
             (default new_connection (pcs orphaned_page !! 0))).
    + vm_compute. reflexivity.
    + vm_compute. apply list_elem_of_further, list_elem_of_further,
        list_elem_of_here.
    + vm_compute. reflexivity.
    + reflexivity.
  - vm_compute. reflexivity.
  - vm_compute in Hc. discriminate Hc.
Qed.

(** Seen from the page: after the event the negotiation still waits, the
    log and the calls are as before, and the console holds the error. *)
Lemma listener_exception_leaves_the_wait :
  ∃ s', step (GatheringStateChange 0 GsComplete) orphaned_page = Some s'
        ∧ negs s' !! 0 = Some AwaitGathering
        ∧ logs s' = logs orphaned_page ∧ calls s' = calls orphaned_page
        ∧ errors s' = errors orphaned_page ++ [TypeError_null]
        ∧ iceGatheringState <$> pcs s' !! 0 = Some GsComplete
        ∧ closed <$> pcs s' !! 0 = Some false.
Proof. eexists. split; [vm_compute; reflexivity|]. by vm_compute. Qed.

(** The teardown of a failure acts on the current session: the first
    negotiation fails after Disconnect and Start, and it is the channel of
    the second session that is closed and the second connection whose close
    is scheduled, while the first connection is never closed. *)
Lemma failure_tears_down_current_session :
  ∃ s s' t, run [ClickStart; ClickStop; ClickStart] init = Some s
    ∧ step (OfferSettled 0 (inl "OperationError")) s = Some s'
    ∧ caught 0 "OperationError" s s'
    ∧ pc s = Some 1 ∧ dc s = Some 1
    ∧ negs s' !! 1 = Some (AwaitOffer 1)
    ∧ readyState <$> dcs s' !! 1 = Some RsClosing
    ∧ run (pending_closes s') s' = Some t
    ∧ closed <$> pcs t !! 0 = Some false
    ∧ closed <$> pcs t !! 1 = Some true.
Proof.
  pose (s := default init (run [ClickStart; ClickStop; ClickStart] init)).
  assert (reachable s) as Hreach.
  { exists [ClickStart; ClickStop; ClickStart]. vm_compute. reflexivity. }
  destruct (negotiation_failed_reaches s 0 (AwaitOffer 0)
              (OfferSettled 0 (inl "OperationError")) "OperationError")
    as (s' & Hstep & Hcaught & _).
  - exact Hreach.
  - vm_compute. reflexivity.
  - constructor. vm_compute. reflexivity.
  - exists s, s'. eexists. split; [vm_compute; reflexivity|].
    split; [exact Hstep|]. split; [exact Hcaught|].
    assert (s' = default init (step (OfferSettled 0 (inl "OperationError")) s))
      as -> by (by rewrite Hstep).
    split; [vm_compute; reflexivity|]. split; [vm_compute; reflexivity|].
    split; [vm_compute; reflexivity|]. split; [vm_compute; reflexivity|].
    split; [vm_compute; reflexivity|]. by vm_compute.
Qed.

(** ** Sessions and negotiations *)


